(** * Difficulty retargeting, proof verification, seed selection and the
      RandomX hash engine of the node (rx2_helper.cpp, pow.cpp, crypto/rx2.cpp)

    A shallow embedding of the C++ sources.  Integers of the source are
    modelled by [Z].  Unsigned arithmetic and the conversions to the unsigned
    types of the source are written out as reductions modulo a power of two.
    Signed 64-bit arithmetic is exact integer arithmetic, with the division
    that truncates towards zero; its overflow is undefined in C++ and is not
    modelled.  Heights and indexes of type [int] are far below 2^31 and are
    not reduced.  Code that can throw or run into undefined behaviour returns
    a [result]. *)

From Equations Require Import Equations.
From stdpp Require Import gmap list.
From Stdlib Require Import ZArith Zwf Lia Bool Strings.Byte.

Open Scope Z_scope.

(** ** Faults and the result monad *)

(** The ways in which the modelled functions can fail to return a value:
    [std::out_of_range] thrown by [std::map::at], [uint_error] thrown by the
    division of [base_uint], and two kinds of undefined behaviour. *)
Inductive fault : Type :=
| out_of_range
| uint_error
| null_dereference
| integer_division_by_zero.

Inductive result (A : Type) : Type :=
| Ok (a : A)
| Fail (f : fault).
Arguments Ok {A} a.
Arguments Fail {A} f.

Definition rbind {A B : Type} (r : result A) (k : A -> result B) : result B :=
  match r with
  | Ok a => k a
  | Fail f => Fail f
  end.

Notation "'do' x <- r ; k" := (rbind r (fun x => k))
  (at level 10, x name, r at level 100, k at level 200).
Notation "'do' ' p <- r ; k" := (rbind r (fun x => match x with p => k end))
  (at level 10, p pattern, r at level 100, k at level 200).

(** ** Fixed-width integers *)

Definition to_uint32 (z : Z) : Z := z mod 2 ^ 32.
Definition to_uint64 (z : Z) : Z := z mod 2 ^ 64.

(** Conversion of a 32-bit unsigned value to [int] (two's complement). *)
Definition uint32_to_int (z : Z) : Z :=
  if z <? 2 ^ 31 then z else z - 2 ^ 32.

(** ** arith_uint256 *)

Module arith_uint256.

(** Modelled from the spec: the class arith_uint256 (arith_uint256.h and
    arith_uint256.cpp are not among the sources).  The spec describes it as
    a 256-bit unsigned magnitude with a compact encoding of 8 bits of
    exponent and 24 bits of mantissa, whose decoding reports a negative
    sign and an overflow.  A value is a [Z] in [0, 2^256); every operation
    reduces modulo 2^256. *)
Definition modulus : Z := 2 ^ 256.

Definition wrap (z : Z) : Z := z mod modulus.

Definition add (a b : Z) : Z := wrap (a + b).
Definition sub (a b : Z) : Z := wrap (a - b).

(** Modelled from the spec: [operator*=(uint32_t)] and
    [operator*(const base_uint&, uint32_t)].  These are the overloads that
    C++ selects when the right operand is a 64-bit integer, since an
    integral conversion is preferred to the converting constructor; the
    operand is therefore reduced to 32 bits. *)
Definition mul_u32 (a : Z) (b : Z) : Z := wrap (a * to_uint32 b).

(** Modelled from the spec: [operator/=(const base_uint&)] applied to a
    64-bit integer, which is first converted through
    [base_uint(uint64_t)].  Division by zero throws [uint_error]. *)
Definition div_u64 (a : Z) (b : Z) : result Z :=
  if to_uint64 b =? 0 then Fail uint_error else Ok (a / to_uint64 b).

(** Modelled from the spec: [bits()], the position of the highest set bit
    plus one, and zero for zero. *)
Definition bits (a : Z) : Z := if a =? 0 then 0 else Z.log2 a + 1.

Definition GetLow64 (a : Z) : Z := to_uint64 a.

(** Modelled from the spec: [SetCompact(nCompact, &fNegative, &fOverflow)],
    returning the decoded value with the two flags. *)
Definition SetCompact (nCompact : Z) : Z * bool * bool :=
  let nSize := Z.shiftr nCompact 24 in
  let nWord := Z.land nCompact 0x007fffff in
  let nWord' := if nSize <=? 3 then Z.shiftr nWord (8 * (3 - nSize)) else nWord in
  let value :=
    if nSize <=? 3 then nWord'
    else wrap (Z.shiftl nWord (8 * (nSize - 3))) in
  let fNegative :=
    negb (nWord' =? 0) && negb (Z.land nCompact 0x00800000 =? 0) in
  let fOverflow :=
    negb (nWord' =? 0) &&
    ((nSize >? 34) || ((nWord' >? 0xff) && (nSize >? 33))
                   || ((nWord' >? 0xffff) && (nSize >? 32))) in
  (value, fNegative, fOverflow).

Definition decode (nCompact : Z) : Z := fst (fst (SetCompact nCompact)).
Definition negative (nCompact : Z) : bool := snd (fst (SetCompact nCompact)).
Definition overflow (nCompact : Z) : bool := snd (SetCompact nCompact).

(** Modelled from the spec: [GetCompact()] with its default argument
    [fNegative = false]. *)
Definition GetCompact (a : Z) : Z :=
  let nSize := (bits a + 7) / 8 in
  let nCompact :=
    if nSize <=? 3 then to_uint32 (Z.shiftl (GetLow64 a) (8 * (3 - nSize)))
    else to_uint32 (GetLow64 (Z.shiftr a (8 * (nSize - 3)))) in
  let '(nCompact, nSize) :=
    if negb (Z.land nCompact 0x00800000 =? 0)
    then (Z.shiftr nCompact 8, nSize + 1)
    else (nCompact, nSize) in
  Z.lor nCompact (Z.shiftl nSize 24).

End arith_uint256.

(** ** The compact encoding, arithmetically *)

(** The size of the encoding of a positive value, counting the byte that
    keeps the sign bit clear, and its mantissa: the value brought to the
    three bytes below that size. *)
Definition compact_size (x : Z) : Z := arith_uint256.bits x / 8 + 1.

Definition scale_to_size (s x : Z) : Z :=
  if s <=? 3 then x * 2 ^ (8 * (3 - s)) else x / 2 ^ (8 * (s - 3)).

Definition compact_mantissa (x : Z) : Z := scale_to_size (compact_size x) x.

(** A uint256 is represented by the magnitude that [UintToArith256] gives
    it. *)
Definition uint256 : Type := Z.
Definition UintToArith256 (h : uint256) : Z := h.

(** ** Consensus parameters (consensus/params.h) *)

Module Consensus.

Record Params : Type := {
  QIP9Height : Z;
  nReduceBlocktimeHeight : Z;
  powLimit : uint256;
  posLimit : uint256;
  QIP9PosLimit : uint256;
  RBTPosLimit : uint256;
  fPowAllowMinDifficultyBlocks : bool;
  fPowNoRetargeting : bool;
  fPoSNoRetargeting : bool;
  nPowTargetSpacing : Z;
  nRBTPowTargetSpacing : Z;
  nPowTargetTimespan : Z;
  nPowTargetTimespanV2 : Z;
  nRBTPowTargetTimespan : Z;
  RX2SeedHeight : Z;
  RX2SeedInterval : Z;
  lwmaAveragingWindow : Z;
  nStakeTimestampMask : Z;
  nRBTStakeTimestampMask : Z
}.

Definition TargetSpacing (p : Params) (height : Z) : Z :=
  if height <? nReduceBlocktimeHeight p
  then nPowTargetSpacing p else nRBTPowTargetSpacing p.

Definition TargetTimespan (p : Params) (height : Z) : Z :=
  if height <? QIP9Height p then nPowTargetTimespan p
  else if height <? nReduceBlocktimeHeight p then nPowTargetTimespanV2 p
       else nRBTPowTargetTimespan p.

Definition DifficultyAdjustmentInterval (p : Params) (height : Z) : result Z :=
  let targetTimespan := TargetTimespan p height in
  let targetSpacing := TargetSpacing p height in
  if targetSpacing =? 0 then Fail integer_division_by_zero
  else Ok (Z.quot targetTimespan targetSpacing).

Definition StakeTimestampMask (p : Params) (height : Z) : Z :=
  if height <? nReduceBlocktimeHeight p
  then nStakeTimestampMask p else nRBTStakeTimestampMask p.

End Consensus.

(** ** Proof verification (pow.cpp) *)

Definition CheckProofOfWork (hash : uint256) (nBits : Z)
    (params : Consensus.Params) (fProofOfStake : bool) : bool :=
  let '(bnTarget, fNegative, fOverflow) := arith_uint256.SetCompact nBits in
  (* Check range *)
  if fNegative || (bnTarget =? 0) || fOverflow
     || (bnTarget >? UintToArith256 (Consensus.powLimit params))
  then false
  (* Check proof of work matches claimed amount *)
  else if UintToArith256 hash >? bnTarget then false
  else true.

(** The range check of [CheckProofOfWork], as a proposition. *)
Definition target_in_range (params : Consensus.Params)
    (target : Z) (fNegative fOverflow : bool) : Prop :=
  fNegative = false /\ target <> 0 /\ fOverflow = false /\
  target <= UintToArith256 (Consensus.powLimit params).

(** ** The block index (chain.h) *)

(** The fields of CBlockIndex that the retargeting code reads.  The height
    is not stored: see [nHeight] below. *)
Record CBlockIndex : Type := {
  phashBlock : uint256;
  nTime : Z;
  nBits : Z;
  IsProofOfStake : bool
}.

Definition IsProofOfWork (b : CBlockIndex) : bool := negb (IsProofOfStake b).
Definition GetBlockTime (b : CBlockIndex) : Z := nTime b.
Definition GetBlockHash (b : CBlockIndex) : uint256 := phashBlock b.

(** A pointer to a block index is modelled by the list of the blocks that
    are reached from it through [pprev], the pointed block first and the
    genesis block last.  The null pointer is the empty list.  Thus
    [pindex->pprev] is the tail of the list. *)
Definition pindex : Type := list CBlockIndex.

Definition pprev (p : pindex) : pindex := tail p.

(** [pindex->nHeight]: the chain store keeps the height of a block equal to
    the height of its predecessor plus one, with the genesis block at height
    zero, so the height is the number of predecessors. *)
Definition nHeight (p : pindex) : Z := Z.of_nat (length p) - 1.

(** Dereferencing a pointer. *)
Definition deref (p : pindex) : result CBlockIndex :=
  match p with
  | [] => Fail null_dereference
  | b :: _ => Ok b
  end.

(** Modelled from the spec: [CBlockIndex::GetAncestor] (chain.cpp is not
    among the sources), the read capability that returns the ancestor at a
    given height: the null pointer when the height is negative or above the
    block's own height, and otherwise the block of that height on the branch
    of [p]. *)
Definition GetAncestor (p : pindex) (height : Z) : pindex :=
  if (height >? nHeight p) || (height <? 0) then []
  else skipn (Z.to_nat (nHeight p - height)) p.

(** ** Ancestor walks (pow.cpp) *)

(** Returns the last PoS block index when [fProofOfStake] is true, or the
    last PoW block index otherwise. *)
Fixpoint GetLastBlockIndex (p : pindex) (fProofOfStake : bool) : pindex :=
  match p with
  | [] => []
  | b :: prev =>
      match prev with
      | [] => p
      | _ :: _ =>
          if negb (Bool.eqb (IsProofOfStake b) fProofOfStake)
          then GetLastBlockIndex prev fProofOfStake
          else p
      end
  end.

(** Counts the PoS block indexes above [nHeightScan]. *)
Fixpoint CountPoS_loop (p : pindex) (nHeightScan : Z) (nFound : Z) : Z :=
  match p with
  | [] => nFound
  | b :: prev =>
      match prev with
      | [] => nFound
      | _ :: _ =>
          if nHeight p >? nHeightScan
          then CountPoS_loop prev nHeightScan
                 (if IsProofOfStake b then nFound + 1 else nFound)
          else nFound
      end
  end.

Definition CountPoS (p : pindex) (nHeightScan : Z) : Z :=
  CountPoS_loop p nHeightScan 0.

(** [std::map::insert]: the pair is added only when the key is absent. *)
Definition map_insert (k v : Z) (m : gmap Z Z) : gmap Z Z :=
  match m !! k with
  | Some _ => m
  | None => <[k := v]> m
  end.

(** [std::map::at]: throws [std::out_of_range] on a missing key. *)
Definition map_at (m : gmap Z Z) (k : Z) : result Z :=
  match m !! k with
  | Some v => Ok v
  | None => Fail out_of_range
  end.

(** One of the two [while] loops of [GetContextLWMA]; [matches] is
    [IsProofOfStake] in the first loop and [IsProofOfWork] in the second. *)
Fixpoint GetContextLWMA_loop (matches : CBlockIndex -> bool)
    (p : pindex) (nContextScope : Z) (nIdx : Z) (mapRet : gmap Z Z)
  : gmap Z Z :=
  match p with
  | [] => mapRet
  | b :: prev =>
      match prev with
      | [] => mapRet
      | _ :: _ =>
          if nIdx <=? nContextScope
          then
            if matches b
            then GetContextLWMA_loop matches prev nContextScope (nIdx + 1)
                   (map_insert (nIdx + 1) (nHeight p) mapRet)
            else GetContextLWMA_loop matches prev nContextScope nIdx mapRet
          else mapRet
      end
  end.

(** Builds the map from the 1-based index of the most recent blocks of the
    given proof kind to their heights. *)
Definition GetContextLWMA (p : pindex) (nContextScope : Z)
    (fProofOfStake : bool) : gmap Z Z :=
  if fProofOfStake
  then GetContextLWMA_loop IsProofOfStake p nContextScope 0 ∅
  else GetContextLWMA_loop IsProofOfWork p nContextScope 0 ∅.

(** The keys of a context map are the indexes from 1 to its size. *)
Definition dense_keys (m : gmap Z Z) (nIdx : Z) : Prop :=
  0 <= nIdx /\ Z.of_nat (size m) = nIdx /\
  forall i, is_Some (m !! i) <-> 1 <= i <= nIdx.

(** ** LWMA retargeting (pow.cpp) *)

Section Lwma3.

Variable pindexLast : pindex.
Variable params : Consensus.Params.
Variable fProofOfStake : bool.

Let T : Z := Consensus.nPowTargetSpacing params.
Let N : Z := Consensus.lwmaAveragingWindow params.
Let k : Z := Z.quot (N * (N + 1) * T) 2.
Let ProofLimit : Z :=
  UintToArith256 (if fProofOfStake then Consensus.posLimit params
                  else Consensus.powLimit params).

(** The state of the [for] loop of the main path. *)
Record lwma_state : Type := {
  previousTimestamp : Z;
  j : Z;
  sumWeightedSolvetimes : Z;
  avgTarget : Z
}.

(** The body of the loop at index [i]. *)
Definition lwma_body (mapContext : gmap Z Z) (i : Z) (st : lwma_state)
  : result lwma_state :=
  do h <- map_at mapContext i;
  do block <- deref (GetAncestor pindexLast h);
  let thisTimestamp :=
    if GetBlockTime block >? previousTimestamp st
    then GetBlockTime block else previousTimestamp st + 1 in
  let solvetime := Z.min (6 * T) (thisTimestamp - previousTimestamp st) in
  let j' := j st + 1 in
  let target := arith_uint256.decode (nBits block) in
  do q1 <- arith_uint256.div_u64 target N;
  do q2 <- arith_uint256.div_u64 q1 k;
  Ok {| previousTimestamp := thisTimestamp;
        j := j';
        sumWeightedSolvetimes := sumWeightedSolvetimes st + solvetime * j';
        avgTarget := arith_uint256.add (avgTarget st) q2 |}.

(** [for (i = N; i > 0; i--)], with [n] iterations left. *)
Fixpoint lwma_loop (mapContext : gmap Z Z) (n : nat) (i : Z)
    (st : lwma_state) : result lwma_state :=
  match n with
  | O => Ok st
  | S n' =>
      do st' <- lwma_body mapContext i st;
      lwma_loop mapContext n' (i - 1) st'
  end.

(** The main path, from the declaration of [avgTarget] to the end. *)
Definition lwma_main (mapContext : gmap Z Z) : result Z :=
  do h <- map_at mapContext (N + 1);
  do blockPreviousTimestamp <- deref (GetAncestor pindexLast h);
  do st <- lwma_loop mapContext (Z.to_nat N) N
             {| previousTimestamp := GetBlockTime blockPreviousTimestamp;
                j := 0; sumWeightedSolvetimes := 0; avgTarget := 0 |};
  let nextTarget :=
    arith_uint256.mul_u32 (avgTarget st) (sumWeightedSolvetimes st) in
  let nextTarget :=
    if nextTarget >? ProofLimit then ProofLimit else nextTarget in
  Ok (arith_uint256.GetCompact nextTarget).

(** The rule for the first PoS blocks (ppcoin EMA). *)
Definition lwma_pos_activation : result Z :=
  let pindexPrev := GetLastBlockIndex pindexLast fProofOfStake in
  do bPrev <- deref pindexPrev;
  match pprev pindexPrev with
  | [] => Ok (arith_uint256.GetCompact ProofLimit) (* first block *)
  | _ :: _ =>
      let pindexPrevPrev :=
        GetLastBlockIndex (pprev pindexPrev) fProofOfStake in
      do bPrevPrev <- deref pindexPrevPrev;
      match pprev pindexPrevPrev with
      | [] => Ok (arith_uint256.GetCompact ProofLimit) (* second block *)
      | _ :: _ =>
          let nActualSpacing := GetBlockTime bPrev - GetBlockTime bPrevPrev in
          let nActualSpacing :=
            if nActualSpacing <? 0 then 1 else nActualSpacing in
          let nActualSpacing :=
            if nActualSpacing >? T * 10 then T * 10 else nActualSpacing in
          do bLast <- deref pindexLast;
          let bnNew := arith_uint256.decode (nBits bLast) in
          do nInterval <-
            (if T =? 0 then Fail integer_division_by_zero
             else Ok (Z.quot (Consensus.nPowTargetSpacing params) T));
          let bnNew :=
            arith_uint256.mul_u32 bnNew
              ((nInterval - 1) * T + nActualSpacing + nActualSpacing) in
          do bnNew <- arith_uint256.div_u64 bnNew ((nInterval + 1) * T);
          let bnNew :=
            if (bnNew <=? 0) || (bnNew >? ProofLimit)
            then ProofLimit else bnNew in
          Ok (arith_uint256.GetCompact bnNew)
      end
  end.

Definition Lwma3CalculateNextWorkRequired : result Z :=
  if Consensus.fPowNoRetargeting params || Consensus.fPoSNoRetargeting params
  then
    do noRetIdx <- deref (GetLastBlockIndex pindexLast fProofOfStake);
    Ok (nBits noRetIdx)
  else
    do _ <- deref pindexLast;
    let height := nHeight pindexLast in
    (* New coins should just give away first N blocks. *)
    if height <? N + 1 then Ok (arith_uint256.GetCompact ProofLimit)
    else
      let mapContext := GetContextLWMA pindexLast (N + 1) fProofOfStake in
      let short :=
        fProofOfStake && (Z.of_nat (size mapContext) <? to_uint64 (N + 1)) in
      if short && (CountPoS pindexLast 0 <=? N + 1)
      then lwma_pos_activation
      else lwma_main mapContext.

End Lwma3.

(** ** Legacy EMA retargeting (pow.cpp) *)

Definition GetLimit (nHeight : Z) (params : Consensus.Params)
    (fProofOfStake : bool) : Z :=
  if fProofOfStake then
    if nHeight <? Consensus.QIP9Height params
    then UintToArith256 (Consensus.posLimit params)
    else if nHeight <? Consensus.nReduceBlocktimeHeight params
         then UintToArith256 (Consensus.QIP9PosLimit params)
         else UintToArith256 (Consensus.RBTPosLimit params)
  else UintToArith256 (Consensus.powLimit params).

(** One turn of the [while] loop of [mul_exp]: [++n] on a [uint64_t],
    followed by [a = a * abs_p / q / n]. *)
Definition mul_exp_step (abs_p q : Z) (a n : Z) : result (Z * Z) :=
  let n' := to_uint64 (n + 1) in
  do t <- arith_uint256.div_u64 (arith_uint256.mul_u32 a abs_p) q;
  do a' <- arith_uint256.div_u64 t n';
  Ok (a', n').

(** The loop stops: once [n] has passed the (32-bit) multiplier, [a]
    decreases strictly. *)
Definition mul_exp_measure (a n : Z) : Z :=
  Z.max 0 (2 ^ 32 - to_uint64 n) * 2 ^ 256 + a.

(** The order of the measure.  The proof of well-foundedness is guarded by
    constructors so that closed calls of [mul_exp] evaluate. *)
Definition Zwf_guarded : well_founded (Zwf 0) :=
  Acc_intro_generator 64 (Zwf_well_founded 0).
#[local] Instance Zwf_WellFounded : WellFounded (Zwf 0) := Zwf_guarded.
#[global] Opaque Zwf_guarded.

Definition inspect {A : Type} (a : A) : {b : A | a = b} := exist _ a eq_refl.

Equations mul_exp_loop (isNegative : bool) (abs_p q : Z) (a n res : Z)
  : result Z by wf (mul_exp_measure a n) (Zwf 0) :=
  mul_exp_loop isNegative abs_p q a n res with Z_gt_dec a 0 => {
    | right _ := Ok res;
    | left Hpos with inspect (mul_exp_step abs_p q a n) => {
        | exist _ (Fail f) _ := Fail f;
        | exist _ (Ok (a', n')) Heq :=
            mul_exp_loop isNegative abs_p q a' n'
              (if isNegative && Z.odd n'
               then arith_uint256.sub res a'
               else arith_uint256.add res a') } }.
Next Obligation.
  intros _ abs_p q a Ha n a' n' H _ _. cbv beta in H. revert Ha H.
  unfold mul_exp_step, arith_uint256.div_u64, arith_uint256.mul_u32,
    arith_uint256.wrap, arith_uint256.modulus, mul_exp_measure, to_uint64,
    to_uint32, rbind.
  intros Ha H.
  destruct (Z.eqb_spec (q mod 2 ^ 64) 0) as [| Hq]; [discriminate |].
  destruct (Z.eqb_spec (((n + 1) mod 2 ^ 64) mod 2 ^ 64) 0) as [| Hn];
    [discriminate |].
  injection H as <- <-.
  rewrite Zmod_mod in *.
  pose proof (Z.mod_pos_bound q (2 ^ 64) ltac:(lia)) as Bq.
  pose proof (Z.mod_pos_bound n (2 ^ 64) ltac:(lia)) as Bn.
  pose proof (Z.mod_pos_bound abs_p (2 ^ 32) ltac:(lia)) as Bp.
  pose proof (Z.mod_pos_bound (a * (abs_p mod 2 ^ 32)) (2 ^ 256) ltac:(lia))
    as Bw.
  assert (Hn1 : (n + 1) mod 2 ^ 64 = n mod 2 ^ 64 + 1).
  { rewrite <- Zplus_mod_idemp_l.
    destruct (Z.eq_dec (n mod 2 ^ 64 + 1) (2 ^ 64)) as [E | E].
    - exfalso. apply Hn. rewrite <- Zplus_mod_idemp_l, E. apply Z.mod_same. lia.
    - apply Z.mod_small. lia. }
  rewrite Hn1 in *.
  set (w := (a * (abs_p mod 2 ^ 32)) mod 2 ^ 256) in *.
  set (q64 := q mod 2 ^ 64) in *. set (n0 := n mod 2 ^ 64) in *.
  set (p32 := abs_p mod 2 ^ 32) in *.
  assert (Hw1 : 0 <= w / q64 <= w).
  { split; [apply Z.div_pos; lia |].
    apply Z.div_le_upper_bound; nia. }
  assert (Ha' : 0 <= w / q64 / (n0 + 1) <= w / q64).
  { split; [apply Z.div_pos; lia |].
    apply Z.div_le_upper_bound; nia. }
  assert (Hdec : 2 ^ 32 <= n0 -> w / q64 / (n0 + 1) < a).
  { intros Hge. apply Z.div_lt_upper_bound; [lia |].
    assert (w <= a * p32).
    { unfold w. apply Z.mod_le; nia. }
    nia. }
  unfold Zwf. lia.
Qed.

(** Returns [a * exp(p/q)] where [|p/q|] is small. *)
Definition mul_exp (a p q : Z) : result Z :=
  let isNegative := p <? 0 in
  let abs_p := to_uint64 (if p >=? 0 then p else - p) in
  mul_exp_loop isNegative abs_p q a 0 a.

Section CalculateNextWorkRequired.

Variable pindexLast : pindex.
Variable nFirstBlockTime : Z.
Variable params : Consensus.Params.
Variable fProofOfStake : bool.

(** The part that follows the no-retargeting test. *)
Definition ema_retarget (bLast : CBlockIndex) : result Z :=
  (* Limit adjustment step *)
  let nHeight := nHeight pindexLast + 1 in
  let nTargetSpacing := Consensus.TargetSpacing params nHeight in
  let nActualSpacing := GetBlockTime bLast - nFirstBlockTime in
  (* Retarget *)
  let bnTargetLimit := GetLimit nHeight params fProofOfStake in
  let bnNew := arith_uint256.decode (nBits bLast) in
  do nInterval <- Consensus.DifficultyAdjustmentInterval params nHeight;
  do bnNew <-
    (if nHeight <? Consensus.QIP9Height params then
       let nActualSpacing :=
         if nActualSpacing <? 0 then nTargetSpacing else nActualSpacing in
       let nActualSpacing :=
         if nActualSpacing >? nTargetSpacing * 10
         then nTargetSpacing * 10 else nActualSpacing in
       let bnNew :=
         arith_uint256.mul_u32 bnNew
           ((nInterval - 1) * nTargetSpacing
            + nActualSpacing + nActualSpacing) in
       arith_uint256.div_u64 bnNew ((nInterval + 1) * nTargetSpacing)
     else
       let nActualSpacing :=
         if nActualSpacing <? 0 then nTargetSpacing else nActualSpacing in
       let nActualSpacing :=
         if nActualSpacing >? nTargetSpacing * 20
         then nTargetSpacing * 20 else nActualSpacing in
       let stakeTimestampMask :=
         to_uint32 (Consensus.StakeTimestampMask params nHeight) in
       let divisor := to_uint32 (stakeTimestampMask + 1) in
       if divisor =? 0 then Fail integer_division_by_zero
       else
         mul_exp bnNew
           (Z.quot (2 * (nActualSpacing - nTargetSpacing)) divisor)
           (Z.quot ((nInterval + 1) * nTargetSpacing) divisor));
  let bnNew :=
    if (bnNew <=? 0) || (bnNew >? bnTargetLimit)
    then bnTargetLimit else bnNew in
  Ok (arith_uint256.GetCompact bnNew).

Definition CalculateNextWorkRequired : result Z :=
  do bLast <- deref pindexLast;
  if fProofOfStake then
    if Consensus.fPoSNoRetargeting params then Ok (nBits bLast)
    else ema_retarget bLast
  else
    if Consensus.fPowNoRetargeting params then Ok (nBits bLast)
    else ema_retarget bLast.

End CalculateNextWorkRequired.

(** ** The entry point of the retargeting (pow.cpp) *)

(** ppcoin: find last block index up to pindex (the same loop as
    [GetLastBlockIndex]). *)
Definition GetLastBlockIndexQtum (p : pindex) (fProofOfStake : bool) : pindex :=
  GetLastBlockIndex p fProofOfStake.

(** The loop of the special difficulty rule: the last block that was not
    mined under the minimum-difficulty rule. *)
Fixpoint last_non_special_block (params : Consensus.Params)
    (nTargetLimit : Z) (p : pindex) : result CBlockIndex :=
  match p with
  | [] => Fail null_dereference
  | b :: prev =>
      match prev with
      | [] => Ok b
      | _ :: _ =>
          do nInterval <- Consensus.DifficultyAdjustmentInterval params (nHeight p);
          if nInterval =? 0 then Fail integer_division_by_zero
          else if negb (Z.rem (nHeight p) nInterval =? 0)
                  && (nBits b =? nTargetLimit)
               then last_non_special_block params nTargetLimit prev
               else Ok b
      end
  end.

(** [pblock] is represented by its block time, the one field read. *)
Definition GetNextWorkRequired (pindexLast : pindex) (pblockTime : Z)
    (params : Consensus.Params) (fProofOfStake : bool) : result Z :=
  let nTargetLimit :=
    arith_uint256.GetCompact
      (GetLimit (match pindexLast with
                 | [] => 0
                 | _ :: _ => nHeight pindexLast + 1
                 end) params fProofOfStake) in
  match pindexLast with
  | [] => Ok nTargetLimit (* genesis block *)
  | bLast :: _ =>
      let pindexPrev := GetLastBlockIndexQtum pindexLast fProofOfStake in
      do _ <- deref pindexPrev;
      match pprev pindexPrev with
      | [] => Ok nTargetLimit (* first block *)
      | _ :: _ =>
          let pindexPrevPrev :=
            GetLastBlockIndexQtum (pprev pindexPrev) fProofOfStake in
          do _ <- deref pindexPrevPrev;
          match pprev pindexPrevPrev with
          | [] => Ok nTargetLimit (* second block *)
          | _ :: _ =>
              if Consensus.fPowAllowMinDifficultyBlocks params then
                let nHeight := nHeight pindexLast + 1 in
                if pblockTime
                   >? GetBlockTime bLast
                      + Consensus.TargetSpacing params nHeight * 2
                then Ok nTargetLimit
                else
                  do b <- last_non_special_block params nTargetLimit pindexLast;
                  Ok (nBits b)
              else
                Lwma3CalculateNextWorkRequired pindexPrev params fProofOfStake
          end
      end
  end.

(** The number of proof-of-stake blocks of a chain above its genesis
    block. *)
Fixpoint count_above_genesis (matches : CBlockIndex -> bool) (p : pindex) : Z :=
  match p with
  | [] => 0
  | b :: prev =>
      match prev with
      | [] => 0
      | _ :: _ =>
          (if matches b then 1 else 0) + count_above_genesis matches prev
      end
  end.

(** ** Seed selection (rx2_helper.cpp) *)

(** Modelled from the spec: the active chain [CChain] (chain.h is not among
    the sources), the read capability [recordAtHeight]: the vector of the
    blocks of the active branch in the order of their heights, whose index
    operator returns the null pointer outside of the vector, and whose
    [Genesis()] is the block at height zero. *)
Definition CChain : Type := list CBlockIndex.

Definition CChain_at (c : CChain) (nHeight : Z) : result CBlockIndex :=
  if (nHeight <? 0) || (nHeight >=? Z.of_nat (length c))
  then Fail null_dereference
  else match c !! Z.to_nat nHeight with
       | Some b => Ok b
       | None => Fail null_dereference
       end.

Definition Genesis (c : CChain) : result CBlockIndex := CChain_at c 0.

(** [GetRandomXSeed]; the static variable [current_key_block] is passed in
    and returned with the result. *)
Definition GetRandomXSeed (ChainActive : CChain) (consensusParams : Consensus.Params)
    (current_key_block : uint256) (nHeight : Z) : result (uint256 * uint256) :=
  let SeedStartingHeight := to_uint32 (Consensus.RX2SeedHeight consensusParams) in
  let SeedInterval := to_uint32 (Consensus.RX2SeedInterval consensusParams) in
  if SeedInterval =? 0 then Fail integer_division_by_zero
  else
    let SwitchKey := SeedStartingHeight mod SeedInterval in
    do current_key_block <-
      (if current_key_block =? 0
       then do g <- Genesis ChainActive; Ok (GetBlockHash g)
       else Ok current_key_block);
    let remainer := nHeight mod SeedInterval in
    let first_check := to_uint32 (nHeight - remainer) in
    let second_check := to_uint32 (nHeight - SeedInterval - remainer) in
    do current_key_block <-
      (if nHeight >? to_uint32 (nHeight - remainer + SwitchKey) then
         if nHeight >? first_check then
           do b <- CChain_at ChainActive
                     (uint32_to_int (to_uint32 (first_check - SeedStartingHeight)));
           Ok (GetBlockHash b)
         else Ok current_key_block
       else
         if nHeight >? second_check then
           do b <- CChain_at ChainActive
                     (uint32_to_int (to_uint32 (second_check - SeedStartingHeight)));
           Ok (GetBlockHash b)
         else Ok current_key_block);
    Ok (current_key_block, current_key_block).

(** The reading of the seed rule in the specification: windows of
    [SeedInterval] heights that start at [SeedStartingHeight]; the seed is the
    hash of the first block of the current window when the height has passed
    the offset [SwitchKey] within its window, of the first block of the
    previous window otherwise, and the genesis hash below
    [SeedStartingHeight]. *)
Definition spec_seed_height (SeedStartingHeight SeedInterval nHeight : Z) : Z :=
  let SwitchKey := SeedStartingHeight mod SeedInterval in
  if nHeight <? SeedStartingHeight then 0
  else
    let offset := (nHeight - SeedStartingHeight) mod SeedInterval in
    let window_start := nHeight - offset in
    if offset >? SwitchKey then window_start else window_start - SeedInterval.

(** ** The RandomX hash engine (crypto/rx2.cpp) *)

#[global] Instance byte_eq_decision : EqDecision byte := Byte.byte_eq_dec.

Section HashEngine.

(** A cache is represented by the seed whose hexadecimal text initialised
    it, and a virtual machine by the cache it was created on. *)
Definition randomx_cache : Type := uint256.
Definition randomx_vm : Type := randomx_cache.

(** The primitive of the RandomX library: the 32 bytes computed by a
    machine for a buffer. *)
Variable randomx_calculate_hash : randomx_vm -> list byte -> list byte.

(** The static variables of [rx_slow_hash]. *)
Record rx_state : Type := {
  is_init : bool;
  randomx_seed2 : uint256;
  rx_vm : option randomx_vm;
  cache : option randomx_cache
}.

Definition rx_initial : rx_state :=
  {| is_init := false; randomx_seed2 := 0; rx_vm := None; cache := None |}.

(** The static variables of [rx_slow_hash] are either untouched or hold a
    machine on a cache of the current seed. *)
Definition rx_coherent (st : rx_state) : Prop :=
  (is_init st = false /\ rx_vm st = None /\ cache st = None)
  \/ (is_init st = true /\ rx_vm st = Some (randomx_seed2 st)
      /\ cache st = Some (randomx_seed2 st)).

Definition calculate (vm : option randomx_vm) (data : list byte) (length : Z)
  : result (list byte) :=
  match vm with
  | None => Fail null_dereference
  | Some v => Ok (randomx_calculate_hash v (take (Z.to_nat length) data))
  end.

(** The block [if (randomx_seed2 != seedhash)]. *)
Definition rx_rotate (st : rx_state) (seedhash : uint256) : rx_state :=
  if negb (randomx_seed2 st =? seedhash)
  then {| is_init := is_init st; randomx_seed2 := seedhash;
          rx_vm := Some seedhash; cache := Some seedhash |}
  else st.

Definition rx_slow_hash (st : rx_state) (data : list byte) (length : Z)
    (seedhash : uint256) : result (list byte * rx_state) :=
  let st :=
    if negb (is_init st) then
      let cache' :=
        match cache st with None => Some seedhash | Some c => Some c end in
      let vm' := match rx_vm st with None => cache' | Some v => Some v end in
      {| is_init := true; randomx_seed2 := seedhash;
         rx_vm := vm'; cache := cache' |}
    else st in
  let st := rx_rotate st seedhash in
  do hash <- calculate (rx_vm st) data length;
  Ok (hash, st).

(** The static variables of [rx_slow_hash2]: those of [rx_slow_hash] and
    the one-entry memo. *)
Record rx2_state : Type := {
  engine : rx_state;
  old_data : list byte;
  old_hash : list byte
}.

Definition rx2_initial : rx2_state :=
  {| engine := rx_initial;
     old_data := replicate 288 x00;
     old_hash := replicate 64 x00 |}.

(** [memcpy(dst, src, n)] on the first [n] bytes of [dst]. *)
Definition memcpy (dst src : list byte) (n : nat) : list byte :=
  take n src ++ drop n dst.

(** [memcmp(a, b, n) == 0]. *)
Definition memcmp_eq (a b : list byte) (n : nat) : bool :=
  bool_decide (take n a = take n b).

Definition rx_slow_hash2 (st : rx2_state) (data : list byte) (length : Z)
    (seedhash : uint256) : result (list byte * rx2_state) :=
  let e := engine st in
  let e :=
    if negb (is_init e) then
      let '(cache', init') :=
        match cache e with
        | None => (Some seedhash, true)
        | Some c => (Some c, is_init e)
        end in
      let vm' := match rx_vm e with None => cache' | Some v => Some v end in
      {| is_init := init'; randomx_seed2 := seedhash;
         rx_vm := vm'; cache := cache' |}
    else e in
  let e := rx_rotate e seedhash in
  if memcmp_eq data (old_data st) 144
  then
    Ok (take 32 (old_hash st),
        {| engine := e; old_data := old_data st; old_hash := old_hash st |})
  else
    do hash <- calculate (rx_vm e) data length;
    Ok (hash,
        {| engine := e;
           old_data := memcpy (old_data st) data 144;
           old_hash := memcpy (old_hash st) hash 32 |}).

(** A sequence of calls, each with its buffer, length and seed, threading
    the static variables; the outputs are collected in order. *)
Definition call : Type := list byte * Z * uint256.

Fixpoint run {S : Type}
    (f : S -> list byte -> Z -> uint256 -> result (list byte * S))
    (st : S) (calls : list call) : result (list (list byte)) :=
  match calls with
  | [] => Ok []
  | (data, length, seedhash) :: rest =>
      do '(hash, st') <- f st data length seedhash;
      do hashes <- run f st' rest;
      Ok (hash :: hashes)
  end.

End HashEngine.

(** ** The rules of the legacy EMA, one by one *)

(** The spacing as the code limits it: a negative spacing is replaced by the
    target spacing, a spacing above [bound] target spacings by that bound. *)
Definition ema_spacing (bound nTargetSpacing nActualSpacing : Z) : Z :=
  Z.min (if nActualSpacing <? 0 then nTargetSpacing else nActualSpacing)
        (nTargetSpacing * bound).

(** The spacing clamped into the interval from zero to [bound] target
    spacings, as the specification words it. *)
Definition clamped_spacing (bound nTargetSpacing nActualSpacing : Z) : Z :=
  Z.max 0 (Z.min nActualSpacing (nTargetSpacing * bound)).

(** The blend below the height threshold:
    [bnNew *= ((interval-1)*T + 2*actualSpacing); bnNew /= ((interval+1)*T)]. *)
Definition ema_blend (bnNew nInterval nTargetSpacing nActualSpacing : Z)
  : result Z :=
  arith_uint256.div_u64
    (arith_uint256.mul_u32 bnNew
       ((nInterval - 1) * nTargetSpacing + 2 * nActualSpacing))
    ((nInterval + 1) * nTargetSpacing).

(** The exponential decay at or above the height threshold. *)
Definition ema_decay (mask bnNew nInterval nTargetSpacing nActualSpacing : Z)
  : result Z :=
  let divisor := to_uint32 (to_uint32 mask + 1) in
  if divisor =? 0 then Fail integer_division_by_zero
  else mul_exp bnNew
         (Z.quot (2 * (nActualSpacing - nTargetSpacing)) divisor)
         (Z.quot ((nInterval + 1) * nTargetSpacing) divisor).

(** A result that is not positive or that exceeds the limit is replaced by
    the limit. *)
Definition replace_by_limit (limit bnNew : Z) : Z :=
  if (bnNew <=? 0) || (bnNew >? limit) then limit else bnNew.

(** The legacy EMA assembled from these rules, for a given rule of the
    spacing. *)
Definition ema_rules (spacing : Z -> Z -> Z -> Z)
    (pindexLast : pindex) (nFirstBlockTime : Z) (params : Consensus.Params)
    (fProofOfStake : bool) : result Z :=
  do bLast <- deref pindexLast;
  if (if fProofOfStake then Consensus.fPoSNoRetargeting params
      else Consensus.fPowNoRetargeting params)
  then Ok (nBits bLast)
  else
    let height := nHeight pindexLast + 1 in
    let T := Consensus.TargetSpacing params height in
    let raw := GetBlockTime bLast - nFirstBlockTime in
    let bn := arith_uint256.decode (nBits bLast) in
    do nInterval <- Consensus.DifficultyAdjustmentInterval params height;
    do bnNew <-
      (if height <? Consensus.QIP9Height params
       then ema_blend bn nInterval T (spacing 10 T raw)
       else ema_decay (Consensus.StakeTimestampMask params height)
              bn nInterval T (spacing 20 T raw));
    Ok (arith_uint256.GetCompact
          (replace_by_limit (GetLimit height params fProofOfStake) bnNew)).

(** ** The LWMA window, as a list *)

(** The effective timestamps of a window, oldest block first: each is the
    later of the block time and the previous effective timestamp plus one. *)
Fixpoint effective_timestamps (previousTimestamp : Z) (times : list Z)
  : list Z :=
  match times with
  | [] => []
  | t :: rest =>
      let thisTimestamp := Z.max t (previousTimestamp + 1) in
      thisTimestamp :: effective_timestamps thisTimestamp rest
  end.

(** The differences of successive timestamps. *)
Fixpoint differences (previous : Z) (stamps : list Z) : list Z :=
  match stamps with
  | [] => []
  | t :: rest => (t - previous) :: differences t rest
  end.

(** The solve times: the differences of the effective timestamps, each
    capped at [6 * T]. *)
Definition solvetimes (T previousTimestamp : Z) (times : list Z) : list Z :=
  map (Z.min (6 * T))
      (differences previousTimestamp
         (effective_timestamps previousTimestamp times)).

(** The linearly weighted sum: after [j] blocks, the next solve time has the
    weight [j + 1], the one after it [j + 2], and so on. *)
Fixpoint weighted_sum (j : Z) (sts : list Z) : Z :=
  match sts with
  | [] => 0
  | s :: rest => s * (j + 1) + weighted_sum (j + 1) rest
  end.

(** The sum of a list of solve times. *)
Definition sum_list (l : list Z) : Z := fold_right Z.add 0 l.

(** One result is a strictly easier target than another one. *)
Definition strictly_easier (rA rB : result Z) : Prop :=
  exists bitsA bitsB,
    rA = Ok bitsA /\ rB = Ok bitsB
    /\ arith_uint256.decode bitsB < arith_uint256.decode bitsA.

(** The sum of [target / N / k] over the bits of the window. *)
Fixpoint average_target (N k : Z) (avg : Z) (bits : list Z) : Z :=
  match bits with
  | [] => avg
  | b :: rest =>
      average_target N k
        (arith_uint256.add avg
           (arith_uint256.decode b / to_uint64 N / to_uint64 k))
        rest
  end.

(** The blocks that the loop of the main path visits, in the order of the
    visits (oldest first), and the window of a call: the timestamp of the
    block at index [N + 1] with the [N] blocks after it. *)
Section Window.

Variable pindexLast : pindex.

Fixpoint window_blocks (mapContext : gmap Z Z) (n : nat) (i : Z)
  : result (list CBlockIndex) :=
  match n with
  | O => Ok []
  | S n' =>
      do h <- map_at mapContext i;
      do block <- deref (GetAncestor pindexLast h);
      do rest <- window_blocks mapContext n' (i - 1);
      Ok (block :: rest)
  end.

Definition lwma_window (params : Consensus.Params) (fProofOfStake : bool)
  : result (Z * list CBlockIndex) :=
  let N := Consensus.lwmaAveragingWindow params in
  let mapContext := GetContextLWMA pindexLast (N + 1) fProofOfStake in
  do h <- map_at mapContext (N + 1);
  do blockPreviousTimestamp <- deref (GetAncestor pindexLast h);
  do blocks <- window_blocks mapContext (Z.to_nat N) N;
  Ok (GetBlockTime blockPreviousTimestamp, blocks).

End Window.

(** The next target of the main path for a window, before its encoding. *)
Definition lwma_next_target (params : Consensus.Params) (fProofOfStake : bool)
    (previousTimestamp : Z) (blocks : list CBlockIndex) : Z :=
  let T := Consensus.nPowTargetSpacing params in
  let N := Consensus.lwmaAveragingWindow params in
  let k := Z.quot (N * (N + 1) * T) 2 in
  let ProofLimit :=
    UintToArith256 (if fProofOfStake then Consensus.posLimit params
                    else Consensus.powLimit params) in
  let avgTarget := average_target N k 0 (map nBits blocks) in
  let sumWeightedSolvetimes :=
    weighted_sum 0 (solvetimes T previousTimestamp (map GetBlockTime blocks)) in
  let nextTarget := arith_uint256.mul_u32 avgTarget sumWeightedSolvetimes in
  if nextTarget >? ProofLimit then ProofLimit else nextTarget.

(** ** Parameters and chains for the examples *)

Module Examples.

(** A network with a window of [window] blocks, a spacing of 150 seconds
    and seed windows of 100 blocks from height 1000. *)
Definition network (window : Z) : Consensus.Params := {|
  Consensus.QIP9Height := 1000;
  Consensus.nReduceBlocktimeHeight := 2000;
  Consensus.powLimit := 2 ^ 224 - 1;
  Consensus.posLimit := 2 ^ 224 - 1;
  Consensus.QIP9PosLimit := 2 ^ 224 - 1;
  Consensus.RBTPosLimit := 2 ^ 224 - 1;
  Consensus.fPowAllowMinDifficultyBlocks := false;
  Consensus.fPowNoRetargeting := false;
  Consensus.fPoSNoRetargeting := false;
  Consensus.nPowTargetSpacing := 150;
  Consensus.nRBTPowTargetSpacing := 32;
  Consensus.nPowTargetTimespan := 960;
  Consensus.nPowTargetTimespanV2 := 4000;
  Consensus.nRBTPowTargetTimespan := 1000;
  Consensus.RX2SeedHeight := 1000;
  Consensus.RX2SeedInterval := 100;
  Consensus.lwmaAveragingWindow := window;
  Consensus.nStakeTimestampMask := 15;
  Consensus.nRBTStakeTimestampMask := 3
|}.

Definition params : Consensus.Params := network 5.

(** The same network with the two no-retargeting flags set as given. *)
Definition with_flags (p : Consensus.Params) (fPow fPoS : bool)
  : Consensus.Params := {|
  Consensus.QIP9Height := Consensus.QIP9Height p;
  Consensus.nReduceBlocktimeHeight := Consensus.nReduceBlocktimeHeight p;
  Consensus.powLimit := Consensus.powLimit p;
  Consensus.posLimit := Consensus.posLimit p;
  Consensus.QIP9PosLimit := Consensus.QIP9PosLimit p;
  Consensus.RBTPosLimit := Consensus.RBTPosLimit p;
  Consensus.fPowAllowMinDifficultyBlocks :=
    Consensus.fPowAllowMinDifficultyBlocks p;
  Consensus.fPowNoRetargeting := fPow;
  Consensus.fPoSNoRetargeting := fPoS;
  Consensus.nPowTargetSpacing := Consensus.nPowTargetSpacing p;
  Consensus.nRBTPowTargetSpacing := Consensus.nRBTPowTargetSpacing p;
  Consensus.nPowTargetTimespan := Consensus.nPowTargetTimespan p;
  Consensus.nPowTargetTimespanV2 := Consensus.nPowTargetTimespanV2 p;
  Consensus.nRBTPowTargetTimespan := Consensus.nRBTPowTargetTimespan p;
  Consensus.RX2SeedHeight := Consensus.RX2SeedHeight p;
  Consensus.RX2SeedInterval := Consensus.RX2SeedInterval p;
  Consensus.lwmaAveragingWindow := Consensus.lwmaAveragingWindow p;
  Consensus.nStakeTimestampMask := Consensus.nStakeTimestampMask p;
  Consensus.nRBTStakeTimestampMask := Consensus.nRBTStakeTimestampMask p
|}.

Definition block (t : Z) (bits : Z) (pos : bool) : CBlockIndex :=
  {| phashBlock := 5000 + t; nTime := t; nBits := bits;
     IsProofOfStake := pos |}.

(** Chains are written from the tip down to the genesis block. *)
Definition chain_of (kind : bool) (bits : Z) (times : list Z) : pindex :=
  map (fun t => block t bits kind) times.

(** Seven proof-of-work blocks; the newest solve time is 500 seconds. *)
Definition pow_chain : pindex :=
  chain_of false 0x1c0fffff [900; 400; 300; 200; 100; 0; 0].

(** Four blocks only: shorter than the window. *)
Definition young_chain : pindex :=
  chain_of false 0x1c0fffff [450; 300; 150; 0].

(** A hybrid chain of height 7: a proof-of-work genesis block, five
    proof-of-stake blocks, and two proof-of-work blocks at the tip. *)
Definition hybrid_chain : pindex :=
  chain_of false 0x1c0fffff [1050; 900]
  ++ chain_of true 0x1c0fffff [750; 600; 450; 300; 150]
  ++ chain_of false 0x1c0fffff [0].

(** Two chains for a window of four blocks that differ only in the place
    of the long solve times: [100; 100; 500; 500] from the oldest block of
    the window to the newest, and [500; 500; 100; 100]. *)
Definition recent_slow_chain (bits : Z) : pindex :=
  chain_of false bits [1200; 700; 200; 100; 0; 0].

Definition early_slow_chain (bits : Z) : pindex :=
  chain_of false bits [1200; 1100; 1000; 500; 0; 0].

End Examples.

(** ** Further examples: an active chain and a stand-in hash primitive *)

Module SeedExamples.

(** An active chain of 1300 blocks; the block at height [n] has the hash
    [5000 + n]. *)
Definition active_chain : CChain :=
  map (fun n => Examples.block (Z.of_nat n) 0x1c0fffff false) (seq 0 1300).

(** The seed rule as the specification words it. *)
Definition seed_as_specified (c : CChain) (p : Consensus.Params)
    (current_key_block nHeight : Z) : Prop :=
  exists b,
    CChain_at c
      (spec_seed_height (to_uint32 (Consensus.RX2SeedHeight p))
         (to_uint32 (Consensus.RX2SeedInterval p)) nHeight) = Ok b
    /\ GetRandomXSeed c p current_key_block nHeight
       = Ok (GetBlockHash b, GetBlockHash b).

(** A stand-in for the library primitive: 32 copies of the low byte of
    the seed of the machine. *)
Definition seed_byte_hash (vm : randomx_vm) (data : list byte) : list byte :=
  replicate 32
    (match Byte.of_N (Z.to_N (vm mod 256)) with
     | Some b => b
     | None => x00
     end).

(** A block header of 144 bytes. *)
Definition header : list byte := replicate 144 x01.

End SeedExamples.

(** ** Reference notions for the ancestor walks *)

(** The test of the proof kind made by the walks for [fProofOfStake]. *)
Definition of_kind (fProofOfStake : bool) (b : CBlockIndex) : bool :=
  if fProofOfStake then IsProofOfStake b else IsProofOfWork b.

(** The heights of the matching blocks above the genesis block, the most
    recent first. *)
Fixpoint matching_heights (matches : CBlockIndex -> bool) (p : pindex)
  : list Z :=
  match p with
  | [] => []
  | b :: prev =>
      match prev with
      | [] => []
      | _ :: _ =>
          (if matches b then [nHeight p] else [])
          ++ matching_heights matches prev
      end
  end.


(** ** The loop of [mul_exp] *)

(** The counter of the loop stays far below the 64-bit range: once it has
    passed [2^33], twice the largest multiplier, each turn halves [a]. *)
Definition mul_exp_invariant (a n : Z) : Prop :=
  0 <= a < 2 ^ 256 /\ 0 <= n <= 2 ^ 33 + 256
  /\ (2 ^ 33 <= n -> a < 2 ^ (256 - (n - 2 ^ 33))).


(** A chain at the target pace: proof-of-work blocks that follow each other
    at 150 seconds, all with the same bits. *)
Definition steady_chain : pindex :=
  Examples.chain_of false 0x1c0fffff [900; 750; 600; 450; 300; 150; 0].


(** The example network with the minimum-difficulty rule of the test
    networks switched on. *)
Definition min_difficulty_params : Consensus.Params := {|
  Consensus.QIP9Height := Consensus.QIP9Height Examples.params;
  Consensus.nReduceBlocktimeHeight :=
    Consensus.nReduceBlocktimeHeight Examples.params;
  Consensus.powLimit := Consensus.powLimit Examples.params;
  Consensus.posLimit := Consensus.posLimit Examples.params;
  Consensus.QIP9PosLimit := Consensus.QIP9PosLimit Examples.params;
  Consensus.RBTPosLimit := Consensus.RBTPosLimit Examples.params;
  Consensus.fPowAllowMinDifficultyBlocks := true;
  Consensus.fPowNoRetargeting := false;
  Consensus.fPoSNoRetargeting := false;
  Consensus.nPowTargetSpacing := Consensus.nPowTargetSpacing Examples.params;
  Consensus.nRBTPowTargetSpacing :=
    Consensus.nRBTPowTargetSpacing Examples.params;
  Consensus.nPowTargetTimespan := Consensus.nPowTargetTimespan Examples.params;
  Consensus.nPowTargetTimespanV2 :=
    Consensus.nPowTargetTimespanV2 Examples.params;
  Consensus.nRBTPowTargetTimespan :=
    Consensus.nRBTPowTargetTimespan Examples.params;
  Consensus.RX2SeedHeight := Consensus.RX2SeedHeight Examples.params;
  Consensus.RX2SeedInterval := Consensus.RX2SeedInterval Examples.params;
  Consensus.lwmaAveragingWindow :=
    Consensus.lwmaAveragingWindow Examples.params;
  Consensus.nStakeTimestampMask :=
    Consensus.nStakeTimestampMask Examples.params;
  Consensus.nRBTStakeTimestampMask :=
    Consensus.nRBTStakeTimestampMask Examples.params
|}.


(** ** The engine without static variables (crypto/rx2.cpp) *)

Section HashEngineOld.

Variable randomx_calculate_hash : randomx_vm -> list byte -> list byte.

(** [rx_slow_hash2_old] keeps nothing between calls: it allocates a cache
    for the seed of the call, creates a machine on it, computes the hash and
    destroys both. *)
Definition rx_slow_hash2_old (st : unit) (data : list byte) (length : Z)
    (seedhash : uint256) : result (list byte * unit) :=
  let randomx_seed2 := seedhash in
  let cache : randomx_cache := randomx_seed2 in
  let rx_vm : randomx_vm := cache in
  do hash <- calculate randomx_calculate_hash (Some rx_vm) data length;
  Ok (hash, st).

(** The static variables of [rx_slow_hash2] during a run of calls that all
    carry the seed [s]: the engine is untouched or holds a machine for [s],
    and the memo is untouched (its key is still zero) or holds the hash of
    its key under [s]. *)
Definition rx2_memo_sound (s : uint256) (st : rx2_state) : Prop :=
  ((is_init (engine st) = false /\ rx_vm (engine st) = None
    /\ cache (engine st) = None)
   \/ (is_init (engine st) = true /\ randomx_seed2 (engine st) = s
       /\ rx_vm (engine st) = Some s /\ cache (engine st) = Some s))
  /\ (take 144 (old_data st) = replicate 144 x00
      \/ take 32 (old_hash st)
         = randomx_calculate_hash s (take 144 (old_data st))).

End HashEngineOld.

(** A call that hashes a block header of 144 bytes, not all zero, under the
    seed [s]. *)
Definition header_call (s : uint256) (c : call) : Prop :=
  snd c = s /\ snd (fst c) = 144
  /\ (144 <= length (fst (fst c)))%nat
  /\ take 144 (fst (fst c)) <> replicate 144 x00.


(** A chain of height 7 under the minimum-difficulty rule: the two blocks
    at the tip carry the bits of the limit, and the lower one of them lies
    on a boundary of the adjustment interval of six blocks. *)
Definition boundary_chain : pindex :=
  Examples.block 1050 0x1d00ffff false
  :: Examples.block 900 0x1d00ffff false
  :: Examples.chain_of false 0x1c0fffff [400; 300; 200; 100; 0; 0].

(** ** The schedule accessors of the consensus parameters (consensus/params.h) *)

(** Conversion to [int] of a wider integer (two's complement). *)
Definition to_int32 (z : Z) : Z := uint32_to_int (to_uint32 z).

(** The fields of [Consensus::Params] that only the schedule accessors
    read; the fields shared with the retargeting code are those of
    [Consensus.Params]. *)
Record ScheduleParams : Type := {
  nSubsidyHalvingInterval : Z;
  nSubsidyHalvingIntervalV2 : Z;
  nBlocktimeDownscaleFactor : Z;
  nCheckpointSpan : Z;
  nRBTCheckpointSpan : Z;
  nCoinbaseMaturity : Z;
  nRBTCoinbaseMaturity : Z
}.

Definition SubsidyHalvingInterval (p : Consensus.Params) (s : ScheduleParams)
    (height : Z) : Z :=
  if height <? Consensus.nReduceBlocktimeHeight p
  then nSubsidyHalvingInterval s else nSubsidyHalvingIntervalV2 s.

Definition BlocktimeDownscaleFactor (p : Consensus.Params)
    (s : ScheduleParams) (height : Z) : Z :=
  if height <? Consensus.nReduceBlocktimeHeight p
  then 1 else nBlocktimeDownscaleFactor s.

(** The value of an expression of type [int]: signed overflow is undefined
    behaviour, which [None] stands for. *)
Definition int_arith (z : Z) : option Z :=
  if (- 2 ^ 31 <=? z) && (z <? 2 ^ 31) then Some z else None.

(** The arithmetic is that of [int], each intermediate value checked for
    overflow; the factor is narrowed from 64 bits on its way into the local
    variable. *)
Definition SubsidyHalvingWeight (p : Consensus.Params) (s : ScheduleParams)
    (height : Z) : option Z :=
  let blocktimeDownscaleFactor :=
    to_int32 (BlocktimeDownscaleFactor p s height) in
  let blockCount := height in
  match (if blocktimeDownscaleFactor =? 1 then Some 0
         else int_arith (Consensus.nReduceBlocktimeHeight p - 1)) with
  | None => None
  | Some beforeDownscale =>
      match int_arith (blockCount - beforeDownscale),
            int_arith (beforeDownscale * blocktimeDownscaleFactor) with
      | Some difference, Some product => int_arith (difference + product)
      | _, _ => None
      end
  end.

(** The quotient is computed on 32-bit unsigned values. *)
Definition TimestampDownscaleFactor (p : Consensus.Params) (height : Z)
  : result Z :=
  if height <? Consensus.nReduceBlocktimeHeight p then Ok 1
  else
    let divisor := to_uint32 (to_uint32 (Consensus.nRBTStakeTimestampMask p) + 1) in
    if divisor =? 0 then Fail integer_division_by_zero
    else Ok (to_uint32 (to_uint32 (Consensus.nStakeTimestampMask p) + 1)
             / divisor).

Definition CheckpointSpan (p : Consensus.Params) (s : ScheduleParams)
    (height : Z) : Z :=
  if height <? Consensus.nReduceBlocktimeHeight p
  then nCheckpointSpan s else nRBTCheckpointSpan s.

Definition CoinbaseMaturity (p : Consensus.Params) (s : ScheduleParams)
    (height : Z) : Z :=
  if height <? Consensus.nReduceBlocktimeHeight p
  then nCoinbaseMaturity s else nRBTCoinbaseMaturity s.

Definition MaxCheckpointSpan (s : ScheduleParams) : Z :=
  if nCheckpointSpan s <=? nRBTCheckpointSpan s
  then nRBTCheckpointSpan s else nCheckpointSpan s.

(** A schedule for the example network: blocks four times as fast after
    the height 2000. *)
Definition example_schedule : ScheduleParams := {|
  nSubsidyHalvingInterval := 985500;
  nSubsidyHalvingIntervalV2 := 3942000;
  nBlocktimeDownscaleFactor := 4;
  nCheckpointSpan := 500;
  nRBTCheckpointSpan := 2000;
  nCoinbaseMaturity := 500;
  nRBTCoinbaseMaturity := 2000
|}.


(** The linearly weighted sum written out: the solve time at position [m]
    counted from the oldest block (from zero) has the weight [m + 1]. *)
Definition linear_weighted (sts : list Z) : Z :=
  sum_list (map (fun m : nat => List.nth m sts 0 * (Z.of_nat m + 1))
              (seq 0 (length sts))).


(** * Theorems *)

Lemma range_check_false params target fNegative fOverflow :
  fNegative || (target =? 0) || fOverflow
    || (target >? UintToArith256 (Consensus.powLimit params)) = false
  <-> target_in_range params target fNegative fOverflow.
Proof.
  unfold target_in_range.
  rewrite !orb_false_iff, Z.eqb_neq, Z.gtb_ltb, Z.ltb_ge. tauto.
Qed.

Lemma CheckProofOfWork_true hash nBits params kind :
  CheckProofOfWork hash nBits params kind = true <->
  target_in_range params (arith_uint256.decode nBits)
    (arith_uint256.negative nBits) (arith_uint256.overflow nBits)
  /\ UintToArith256 hash <= arith_uint256.decode nBits.
Proof.
  unfold CheckProofOfWork, arith_uint256.decode, arith_uint256.negative,
    arith_uint256.overflow.
  destruct (arith_uint256.SetCompact nBits) as [[target fNegative] fOverflow].
  cbn [fst snd].
  rewrite <- range_check_false.
  destruct (fNegative || (target =? 0) || fOverflow
            || (target >? UintToArith256 (Consensus.powLimit params))).
  - split; [discriminate | intros [? _]; discriminate].
  - destruct (Z.gtb_spec (UintToArith256 hash) target).
    + split; [discriminate | intros [_ ?]; lia].
    + split; [intros _; split; [reflexivity | assumption] | reflexivity].
Qed.

(** C6: [CheckProofOfWork] answers [true] exactly when the decoding of
    [nBits] is not negative, not zero, did not overflow, does not exceed
    [powLimit], and the hash as a magnitude is at most the decoded target.
    Hence, for bits that pass the range check, a hash equal to the target and
    a hash one below it are accepted and a hash one above it is refused.  The
    function is total: every refusal is the value [false]. *)
Theorem CheckProofOfWork_iff :
  forall (hash : uint256) (nBits : Z) (params : Consensus.Params) (kind : bool),
    let target := arith_uint256.decode nBits in
    let in_range :=
      target_in_range params target
        (arith_uint256.negative nBits) (arith_uint256.overflow nBits) in
    (CheckProofOfWork hash nBits params kind = true <->
     in_range /\ UintToArith256 hash <= target) /\
    (CheckProofOfWork hash nBits params kind = false <->
     ~ (in_range /\ UintToArith256 hash <= target)) /\
    (in_range ->
     CheckProofOfWork target nBits params kind = true /\
     CheckProofOfWork (target - 1) nBits params kind = true /\
     CheckProofOfWork (target + 1) nBits params kind = false).
Proof.
  intros hash nBits params kind target in_range.
  pose proof (fun h => CheckProofOfWork_true h nBits params kind) as Ht.
  fold target in Ht. fold in_range in Ht. unfold UintToArith256 in *.
  split; [apply Ht | split].
  - rewrite <- Ht. destruct (CheckProofOfWork hash nBits params kind).
    + split; [discriminate | intros H; exfalso; apply H; reflexivity].
    + split; [intros _; discriminate | reflexivity].
  - intros Hr. split; [| split].
    + apply Ht. split; [assumption | lia].
    + apply Ht. split; [assumption | lia].
    + destruct (CheckProofOfWork (target + 1) nBits params kind) eqn:E;
        [| reflexivity].
      apply Ht in E. lia.
Qed.

Lemma CheckProofOfWork_iff_witness :
  let target := arith_uint256.decode 0x1d00ffff in
  target = 0xffff * 2 ^ 208 /\
  CheckProofOfWork target 0x1d00ffff Examples.params false = true /\
  CheckProofOfWork (target - 1) 0x1d00ffff Examples.params false = true /\
  CheckProofOfWork (target + 1) 0x1d00ffff Examples.params false = false.
Proof.
  split; [reflexivity |].
  apply (CheckProofOfWork_iff 0 0x1d00ffff Examples.params false).
  unfold target_in_range. vm_compute.
  repeat split; discriminate.
Defined.

(** C10: the answer of [CheckProofOfWork] does not depend on its
    [fProofOfStake] argument: the range check always uses [powLimit]. *)
Theorem CheckProofOfWork_kind_irrelevant :
  forall (hash : uint256) (nBits : Z) (params : Consensus.Params),
    CheckProofOfWork hash nBits params true
    = CheckProofOfWork hash nBits params false.
Proof.
  intros hash nBits params. unfold CheckProofOfWork.
  destruct (arith_uint256.SetCompact nBits) as [[target fNegative] fOverflow].
  reflexivity.
Qed.

(** ** The bootstrap period of [Lwma3CalculateNextWorkRequired] *)

(** C5: with retargeting enabled, a tip whose height is below [N + 1] makes
    [Lwma3CalculateNextWorkRequired] return exactly the compact encoding of
    the proof limit of the given kind ([posLimit] for proof of stake,
    [powLimit] for proof of work). *)
Theorem Lwma3_bootstrap_returns_limit :
  forall (pindexLast : pindex) (params : Consensus.Params) (kind : bool),
    pindexLast <> [] ->
    Consensus.fPowNoRetargeting params = false ->
    Consensus.fPoSNoRetargeting params = false ->
    nHeight pindexLast < Consensus.lwmaAveragingWindow params + 1 ->
    Lwma3CalculateNextWorkRequired pindexLast params kind
    = Ok (arith_uint256.GetCompact
            (UintToArith256 (if kind then Consensus.posLimit params
                             else Consensus.powLimit params))).
Proof.
  intros pindexLast params kind Hnn Hpow Hpos Hh.
  unfold Lwma3CalculateNextWorkRequired.
  rewrite Hpow, Hpos. cbn [orb].
  destruct pindexLast as [| b rest]; [contradiction |].
  cbn [deref rbind].
  apply Z.ltb_lt in Hh. rewrite Hh. reflexivity.
Qed.

Lemma Lwma3_bootstrap_returns_limit_witness :
  Lwma3CalculateNextWorkRequired Examples.young_chain Examples.params false
  = Ok 0x1d00ffff.
Proof.
  rewrite (Lwma3_bootstrap_returns_limit Examples.young_chain Examples.params false).
  - reflexivity.
  - discriminate.
  - reflexivity.
  - reflexivity.
  - vm_compute. reflexivity.
Defined.

(** ** The no-retargeting flags *)

(** When one of the two no-retargeting flags is set,
    [Lwma3CalculateNextWorkRequired] returns the bits of the block that
    [GetLastBlockIndex] finds for the given kind. *)
Lemma Lwma3_no_retargeting :
  forall (pindexLast : pindex) (params : Consensus.Params) (kind : bool),
    Consensus.fPowNoRetargeting params || Consensus.fPoSNoRetargeting params = true ->
    Lwma3CalculateNextWorkRequired pindexLast params kind
    = do b <- deref (GetLastBlockIndex pindexLast kind); Ok (nBits b).
Proof.
  intros pindexLast params kind H.
  unfold Lwma3CalculateNextWorkRequired. rewrite H. reflexivity.
Qed.

(** In [CalculateNextWorkRequired] the flag of the given kind alone decides:
    when it is set the bits of [pindexLast] are returned, and the flag of the
    other kind never changes the result. *)
Lemma CalculateNextWorkRequired_flags :
  forall (pindexLast : pindex) (nFirstBlockTime : Z)
         (params : Consensus.Params) (kind fPow fPoS other : bool),
    let governed := Examples.with_flags params fPow fPoS in
    ((if kind then fPoS else fPow) = true ->
     CalculateNextWorkRequired pindexLast nFirstBlockTime governed kind
     = do b <- deref pindexLast; Ok (nBits b)) /\
    CalculateNextWorkRequired pindexLast nFirstBlockTime governed kind
    = CalculateNextWorkRequired pindexLast nFirstBlockTime
        (if kind then Examples.with_flags params other fPoS
         else Examples.with_flags params fPow other) kind.
Proof.
  intros pindexLast nFirstBlockTime params kind fPow fPoS other governed.
  unfold governed, CalculateNextWorkRequired.
  destruct pindexLast as [| b rest]; [split; reflexivity |].
  cbn [deref rbind].
  destruct kind; cbn [Examples.with_flags Consensus.fPoSNoRetargeting
                      Consensus.fPowNoRetargeting]; split;
    try (intros ->; reflexivity);
    destruct fPow, fPoS; reflexivity.
Qed.

(** C2: a proof-of-work call of [Lwma3CalculateNextWorkRequired] whose own
    flag [fPowNoRetargeting] is clear is nevertheless changed by the flag of
    the other kind: with [fPoSNoRetargeting] set the bits of the last block
    come back unchanged, with it clear the window is retargeted. *)
Theorem Lwma3_other_flag_changes_result :
  Consensus.fPowNoRetargeting (Examples.with_flags Examples.params false true)
  = false /\
  Lwma3CalculateNextWorkRequired Examples.pow_chain
    (Examples.with_flags Examples.params false true) false = Ok 0x1c0fffff /\
  Lwma3CalculateNextWorkRequired Examples.pow_chain
    (Examples.with_flags Examples.params false false) false = Ok 0x1c18e38c.
Proof.
  split; [reflexivity |]. split; vm_compute; reflexivity.
Qed.

(** ** The legacy EMA *)

Lemma ema_spacing_bounds bound T raw :
  0 <= T -> 0 <= bound ->
  0 <= ema_spacing bound T raw <= T * bound.
Proof.
  intros HT Hb. unfold ema_spacing.
  destruct (Z.ltb_spec raw 0); nia.
Qed.

Lemma ema_spacing_cases bound T raw :
  (raw < 0 -> ema_spacing bound T raw = Z.min T (T * bound)) /\
  (0 <= raw <= T * bound -> ema_spacing bound T raw = raw) /\
  (0 <= raw -> T * bound < raw -> ema_spacing bound T raw = T * bound).
Proof.
  unfold ema_spacing.
  destruct (Z.ltb_spec raw 0); repeat split; intros; lia.
Qed.

Lemma rbind_ext {A B : Type} (r : result A) (f g : A -> result B) :
  (forall a, f a = g a) -> rbind r f = rbind r g.
Proof. intros H. destruct r; [apply H | reflexivity]. Qed.

Lemma cap_is_min s b : (if s >? b then b else s) = Z.min s b.
Proof. destruct (Z.gtb_spec s b); lia. Qed.

Lemma ema_retarget_rules pindexLast nFirstBlockTime params kind bLast :
  ema_retarget pindexLast nFirstBlockTime params kind bLast
  = let height := nHeight pindexLast + 1 in
    let T := Consensus.TargetSpacing params height in
    let raw := GetBlockTime bLast - nFirstBlockTime in
    let bn := arith_uint256.decode (nBits bLast) in
    do nInterval <- Consensus.DifficultyAdjustmentInterval params height;
    do bnNew <-
      (if height <? Consensus.QIP9Height params
       then ema_blend bn nInterval T (ema_spacing 10 T raw)
       else ema_decay (Consensus.StakeTimestampMask params height)
              bn nInterval T (ema_spacing 20 T raw));
    Ok (arith_uint256.GetCompact
          (replace_by_limit (GetLimit height params kind) bnNew)).
Proof.
  unfold ema_retarget. cbv zeta.
  apply rbind_ext. intros nInterval.
  rewrite !cap_is_min.
  unfold ema_blend, ema_decay, replace_by_limit, ema_spacing.
  rewrite <- Z.add_assoc, Z.add_diag. reflexivity.
Qed.

(** C7, as the code has it: [CalculateNextWorkRequired] is the assembly of
    the rules above, where a negative spacing is replaced by the target
    spacing (not by zero) and a spacing above 10 target spacings (below the
    height threshold) or 20 target spacings (at or above it) is replaced by
    that bound, so that for a non-negative target spacing the spacing used
    lies between zero and the bound; the blend below the threshold is
    [bnNew *= ((interval-1)*T + 2*actualSpacing); bnNew /= ((interval+1)*T)];
    and a final result that is not positive or exceeds the proof limit is
    replaced by the limit. *)
Theorem CalculateNextWorkRequired_rules :
  forall (pindexLast : pindex) (nFirstBlockTime : Z)
         (params : Consensus.Params) (kind : bool),
    CalculateNextWorkRequired pindexLast nFirstBlockTime params kind
    = ema_rules ema_spacing pindexLast nFirstBlockTime params kind
    /\ (forall bound T raw,
          0 <= T -> 1 <= bound ->
          0 <= ema_spacing bound T raw <= T * bound
          /\ (raw < 0 -> ema_spacing bound T raw = T)
          /\ (0 <= raw <= T * bound -> ema_spacing bound T raw = raw)
          /\ (T * bound < raw -> ema_spacing bound T raw = T * bound))
    /\ (forall limit bn,
          (bn <= 0 \/ limit < bn -> replace_by_limit limit bn = limit)
          /\ (0 < bn <= limit -> replace_by_limit limit bn = bn)).
Proof.
  intros pindexLast nFirstBlockTime params kind. split; [| split].
  - unfold CalculateNextWorkRequired, ema_rules.
    destruct pindexLast as [| b rest]; [reflexivity |].
    cbn [deref rbind].
    rewrite ema_retarget_rules.
    destruct kind; reflexivity.
  - intros bound T raw HT Hb.
    pose proof (ema_spacing_bounds bound T raw HT ltac:(lia)) as B.
    pose proof (ema_spacing_cases bound T raw) as [C1 [C2 C3]].
    split; [exact B | split; [| split]].
    + intros Hr. rewrite C1 by assumption. nia.
    + exact C2.
    + intros Hr. apply C3; nia.
  - intros limit bn. unfold replace_by_limit.
    destruct (Z.leb_spec bn 0); destruct (Z.gtb_spec bn limit);
      cbn [orb]; split; intros; lia.
Qed.

Lemma CalculateNextWorkRequired_rules_witness :
  CalculateNextWorkRequired Examples.pow_chain 1000 Examples.params false
  = Ok 0x1c0fffff
  /\ ema_spacing 10 150 (900 - 1000) = 150.
Proof.
  destruct (CalculateNextWorkRequired_rules
              Examples.pow_chain 1000 Examples.params false) as [E [S _]].
  split.
  - rewrite E. vm_compute. reflexivity.
  - apply (S 10 150 (900 - 1000)); lia.
Defined.

(** The claim as worded: the spacing is clamped into the interval from zero
    to the bound.  With the tip at time 900 and a first block time of 1000
    the spacing is negative; the code retargets with the target spacing and
    leaves the target unchanged, where a spacing clamped to zero would lower
    the target. *)
Lemma CalculateNextWorkRequired_not_clamped :
  CalculateNextWorkRequired Examples.pow_chain 1000 Examples.params false
  <> ema_rules clamped_spacing Examples.pow_chain 1000 Examples.params false.
Proof.
  vm_compute. discriminate.
Qed.

(** ** Seed selection *)

Lemma to_uint32_small z : 0 <= z < 2 ^ 32 -> to_uint32 z = z.
Proof. intros H. unfold to_uint32. apply Z.mod_small. exact H. Qed.

Lemma uint32_to_int_small z : 0 <= z < 2 ^ 31 -> uint32_to_int z = z.
Proof.
  intros H. unfold uint32_to_int.
  destruct (Z.ltb_spec z (2 ^ 31)); lia.
Qed.

Lemma CChain_at_lookup (c : CChain) (z : Z) (b : CBlockIndex) :
  0 <= z -> c !! Z.to_nat z = Some b -> CChain_at c z = Ok b.
Proof.
  intros Hz Hb. unfold CChain_at.
  pose proof (lookup_lt_Some _ _ _ Hb) as Hlt.
  destruct (Z.ltb_spec z 0); [lia |].
  destruct (Z.geb_spec z (Z.of_nat (length c))); [lia |].
  cbn [orb]. rewrite Hb. reflexivity.
Qed.

Lemma Genesis_of_lookup (c : CChain) (n : nat) (b : CBlockIndex) :
  c !! n = Some b -> exists g, Genesis c = Ok g.
Proof.
  intros Hb. destruct c as [| g rest]; [discriminate |].
  exists g. reflexivity.
Qed.

Lemma CChain_at_nonempty (c : CChain) (z : Z) (b : CBlockIndex) :
  CChain_at c z = Ok b -> exists g, Genesis c = Ok g.
Proof.
  unfold CChain_at.
  destruct ((z <? 0) || (z >=? Z.of_nat (length c))); [discriminate |].
  destruct (c !! Z.to_nat z) eqn:E; [| discriminate].
  intros _. eapply Genesis_of_lookup; eassumption.
Qed.

(** C9, as the code has it: with [r = nHeight mod SeedInterval] and
    [SwitchKey = SeedStartingHeight mod SeedInterval], the windows are the
    multiples of [SeedInterval]; when [r] exceeds [SwitchKey] the seed is the
    hash of the active block at height [(nHeight - r) - SeedStartingHeight],
    otherwise (from the second window on) the hash of the active block at
    height [(nHeight - r - SeedInterval) - SeedStartingHeight], provided that
    height lies on the active chain; and asking for the same height twice
    in a row on an unchanged chain returns the same seed. *)
Theorem GetRandomXSeed_windows :
  forall (c : CChain) (p : Consensus.Params)
         (current_key_block : uint256) (nHeight : Z),
    let start := to_uint32 (Consensus.RX2SeedHeight p) in
    let interval := to_uint32 (Consensus.RX2SeedInterval p) in
    let SwitchKey := start mod interval in
    let r := nHeight mod interval in
    (interval <> 0 -> 0 <= nHeight -> nHeight + interval < 2 ^ 32 ->
     (forall b, r > SwitchKey ->
        0 <= nHeight - r - start < 2 ^ 31 ->
        c !! Z.to_nat (nHeight - r - start) = Some b ->
        GetRandomXSeed c p current_key_block nHeight
        = Ok (GetBlockHash b, GetBlockHash b))
     /\
     (forall b, r <= SwitchKey -> interval <= nHeight ->
        0 <= nHeight - r - interval - start < 2 ^ 31 ->
        c !! Z.to_nat (nHeight - r - interval - start) = Some b ->
        GetRandomXSeed c p current_key_block nHeight
        = Ok (GetBlockHash b, GetBlockHash b)))
    /\
    (forall seed key,
       GetRandomXSeed c p current_key_block nHeight = Ok (seed, key) ->
       GetRandomXSeed c p key nHeight = Ok (seed, key)).
Proof.
  intros c p cur h start interval SwitchKey r.
  assert (HI0 : 0 <= interval < 2 ^ 32) by (apply Z.mod_pos_bound; lia).
  split.
  - intros HI Hh Hhi.
    assert (Hr : 0 <= r < interval) by (apply Z.mod_pos_bound; lia).
    assert (HK : 0 <= SwitchKey < interval) by (apply Z.mod_pos_bound; lia).
    assert (Hmul : h - r = interval * (h / interval)).
    { unfold r. pose proof (Z.div_mod h interval HI). lia. }
    assert (Hdiv : 0 <= h / interval) by (apply Z.div_pos; lia).
    assert (Hhr : 0 <= h - r <= h) by nia.
    assert (Hsecond : interval <= h -> interval <= h - r).
    { intros HIh. assert (1 <= h / interval) by (apply Z.div_le_lower_bound; lia).
      nia. }
    assert (Hcur : forall b n, c !! n = Some b ->
              exists k, (if cur =? 0
                         then do g <- Genesis c; Ok (GetBlockHash g)
                         else Ok cur) = Ok k).
    { intros b n Hb. destruct (cur =? 0); [| eauto].
      destruct (Genesis_of_lookup c n b Hb) as [g ->]. cbn. eauto. }
    split; intros b Hrk; [| intros HIh]; intros Hidx Hb;
      unfold GetRandomXSeed; cbv zeta;
      change (to_uint32 (Consensus.RX2SeedHeight p)) with start;
      change (to_uint32 (Consensus.RX2SeedInterval p)) with interval;
      change (start mod interval) with SwitchKey; change (h mod interval) with r;
      destruct (Z.eqb_spec interval 0) as [| _]; try contradiction;
      destruct (Hcur b _ Hb) as [k ->]; cbn [rbind];
      clear Hcur; clearbody r SwitchKey start interval.
    + rewrite (to_uint32_small (h - r + SwitchKey)) by lia.
      rewrite (to_uint32_small (h - r)) by lia.
      destruct (Z.gtb_spec h (h - r + SwitchKey)); [| lia].
      destruct (Z.gtb_spec h (h - r)); [| lia].
      rewrite (to_uint32_small (h - r - start)) by lia.
      rewrite uint32_to_int_small by lia.
      rewrite (CChain_at_lookup c _ b) by (lia || assumption).
      reflexivity.
    + specialize (Hsecond HIh).
      rewrite (to_uint32_small (h - r + SwitchKey)) by lia.
      rewrite (to_uint32_small (h - interval - r)) by lia.
      destruct (Z.gtb_spec h (h - r + SwitchKey)); [lia |].
      destruct (Z.gtb_spec h (h - interval - r)); [| lia].
      replace (h - interval - r - start) with (h - r - interval - start) by lia.
      rewrite (to_uint32_small (h - r - interval - start)) by lia.
      rewrite uint32_to_int_small by lia.
      rewrite (CChain_at_lookup c _ b) by (lia || assumption).
      reflexivity.
  - intros seed key. unfold GetRandomXSeed. cbv zeta.
    change (to_uint32 (Consensus.RX2SeedHeight p)) with start.
    change (to_uint32 (Consensus.RX2SeedInterval p)) with interval.
    destruct (interval =? 0); [discriminate |].
    set (first :=
           CChain_at c
             (uint32_to_int
                (to_uint32 (to_uint32 (h - h mod interval) - start)))).
    set (second :=
           CChain_at c
             (uint32_to_int
                (to_uint32
                   (to_uint32 (h - interval - h mod interval) - start)))).
    destruct (h >? to_uint32 (h - h mod interval + start mod interval));
      [destruct (h >? to_uint32 (h - h mod interval))
      | destruct (h >? to_uint32 (h - interval - h mod interval))].
    + (* the first block of the window is read again *)
      destruct (cur =? 0);
        [destruct (Genesis c) as [g |] eqn:Eg; [| discriminate] |];
        cbn [rbind];
        (destruct first as [b |] eqn:Ef; [| discriminate]);
        cbn [rbind]; intros [= <- <-];
        destruct (CChain_at_nonempty c _ b Ef) as [g' Eg'];
        destruct (GetBlockHash b =? 0); rewrite ?Eg'; reflexivity.
    + destruct (Z.eqb_spec cur 0) as [-> | Hc];
        [destruct (Genesis c) as [g |] eqn:Eg; [| discriminate] |];
        cbn [rbind]; intros [= <- <-].
      * destruct (GetBlockHash g =? 0) eqn:E0; [| reflexivity].
        cbn [rbind]. reflexivity.
      * destruct (Z.eqb_spec cur 0); [contradiction | reflexivity].
    + destruct (cur =? 0);
        [destruct (Genesis c) as [g |] eqn:Eg; [| discriminate] |];
        cbn [rbind];
        (destruct second as [b |] eqn:Ef; [| discriminate]);
        cbn [rbind]; intros [= <- <-];
        destruct (CChain_at_nonempty c _ b Ef) as [g' Eg'];
        destruct (GetBlockHash b =? 0); rewrite ?Eg'; reflexivity.
    + destruct (Z.eqb_spec cur 0) as [-> | Hc];
        [destruct (Genesis c) as [g |] eqn:Eg; [| discriminate] |];
        cbn [rbind]; intros [= <- <-].
      * destruct (GetBlockHash g =? 0) eqn:E0; [| reflexivity].
        cbn [rbind]. reflexivity.
      * destruct (Z.eqb_spec cur 0); [contradiction | reflexivity].
Qed.

Lemma GetRandomXSeed_windows_witness :
  GetRandomXSeed SeedExamples.active_chain Examples.params 0 1150
  = Ok (5100, 5100)
  /\ GetRandomXSeed SeedExamples.active_chain Examples.params 0 1200
     = Ok (5100, 5100).
Proof.
  destruct (GetRandomXSeed_windows
              SeedExamples.active_chain Examples.params 0 1150) as [[W _] _];
    [vm_compute; discriminate | lia | vm_compute; reflexivity |].
  destruct (GetRandomXSeed_windows
              SeedExamples.active_chain Examples.params 0 1200) as [[_ W'] _];
    [vm_compute; discriminate | lia | vm_compute; reflexivity |].
  split.
  - apply (W (Examples.block 100 0x1c0fffff false)).
    + vm_compute. reflexivity.
    + vm_compute. split; [discriminate | reflexivity].
    + vm_compute. reflexivity.
  - apply (W' (Examples.block 100 0x1c0fffff false)).
    + vm_compute. discriminate.
    + vm_compute. discriminate.
    + vm_compute. split; [discriminate | reflexivity].
    + vm_compute. reflexivity.
Defined.

(** The claim as worded fails at height 1150 of a chain of 1300 blocks with
    windows of 100 blocks from height 1000: the current window starts at
    height 1100, yet the seed is the hash of the block at height 100. *)
Lemma GetRandomXSeed_not_window_start :
  ~ SeedExamples.seed_as_specified
      SeedExamples.active_chain Examples.params 0 1150.
Proof.
  intros [b [Hb Hseed]].
  vm_compute in Hb. injection Hb as <-.
  vm_compute in Hseed. discriminate.
Qed.

(** Below [SeedStartingHeight] the index handed to the active chain is
    negative and the null pointer is dereferenced. *)
Example GetRandomXSeed_below_start :
  GetRandomXSeed SeedExamples.active_chain Examples.params 0 999
  = Fail null_dereference.
Proof. vm_compute. reflexivity. Qed.

(** ** The hash engine *)

Section HashEngineFacts.

Variable H : randomx_vm -> list byte -> list byte.

Lemma rx_slow_hash_computes st data length seedhash :
  rx_coherent st ->
  exists st',
    rx_slow_hash H st data length seedhash
    = Ok (H seedhash (take (Z.to_nat length) data), st')
    /\ rx_coherent st'.
Proof.
  intros [[Hi [Hv Hc]] | [Hi [Hv Hc]]]; unfold rx_slow_hash, rx_rotate;
    rewrite Hi, ?Hv, ?Hc; cbn [negb is_init randomx_seed2 rx_vm cache].
  - rewrite Z.eqb_refl. cbn [negb rx_vm calculate rbind].
    eexists. split; [reflexivity |]. right. cbn. auto.
  - destruct (Z.eqb_spec (randomx_seed2 st) seedhash) as [E | E];
      cbn [negb rx_vm calculate rbind].
    + rewrite Hv, E. cbn [calculate rbind].
      eexists. split; [reflexivity |]. right. auto.
    + eexists. split; [reflexivity |]. right. cbn. auto.
Qed.

(** The engine without memo returns, call after call, the hash that the
    library computes for the data under the seed of the call. *)
Lemma run_rx_slow_hash st calls :
  rx_coherent st ->
  run (rx_slow_hash H) st calls
  = Ok (map (fun c : call =>
               H (snd c) (take (Z.to_nat (snd (fst c))) (fst (fst c))))
          calls).
Proof.
  revert st. induction calls as [| [[data length] seedhash] rest IH];
    intros st Hst; [reflexivity |].
  cbn [run map fst snd].
  destruct (rx_slow_hash_computes st data length seedhash Hst)
    as [st' [-> Hst']].
  cbn [rbind]. rewrite (IH st' Hst'). reflexivity.
Qed.

(** The memo of [rx_slow_hash2] is keyed by the first 144 bytes of the
    buffer alone: when they equal the stored ones the stored hash is
    returned, whatever the seed, the length and the rest of the buffer. *)
Lemma rx_slow_hash2_memo_hit st data length seedhash :
  take 144 data = take 144 (old_data st) ->
  exists st',
    rx_slow_hash2 H st data length seedhash = Ok (take 32 (old_hash st), st')
    /\ old_data st' = old_data st /\ old_hash st' = old_hash st.
Proof.
  intros E. unfold rx_slow_hash2, memcmp_eq.
  rewrite bool_decide_eq_true_2 by exact E.
  eexists. split; [reflexivity |]. split; reflexivity.
Qed.

End HashEngineFacts.

(** C3: the memoized engine does not refine the engine without memo.  Two
    calls with the same 144-byte header and the seeds 1 and 2 give two
    distinct hashes in [rx_slow_hash]; in [rx_slow_hash2] the rebuild of the
    context for the second seed leaves the memo in place and the hash of the
    first seed is returned again. *)
Theorem rx_slow_hash2_stale_after_seed_change :
  let calls := [(SeedExamples.header, 144, 1); (SeedExamples.header, 144, 2)] in
  let h1 := SeedExamples.seed_byte_hash 1 SeedExamples.header in
  let h2 := SeedExamples.seed_byte_hash 2 SeedExamples.header in
  h1 <> h2 /\
  run (rx_slow_hash SeedExamples.seed_byte_hash) rx_initial calls = Ok [h1; h2] /\
  run (rx_slow_hash2 SeedExamples.seed_byte_hash) rx2_initial calls = Ok [h1; h1].
Proof.
  cbv zeta. split; [| split].
  - vm_compute. discriminate.
  - vm_compute. reflexivity.
  - vm_compute. reflexivity.
Qed.

(** The memo starts as zero bytes, so a first call whose buffer begins with
    144 zero bytes returns 32 zero bytes without any computation. *)
Example rx_slow_hash2_zero_header :
  run (rx_slow_hash2 SeedExamples.seed_byte_hash) rx2_initial
    [(replicate 144 x00, 144, 1)] = Ok [replicate 32 x00]
  /\ run (rx_slow_hash SeedExamples.seed_byte_hash) rx_initial
       [(replicate 144 x00, 144, 1)] = Ok [replicate 32 x01].
Proof. split; vm_compute; reflexivity. Qed.

(** ** The loop of the LWMA main path *)

Lemma this_timestamp_is_max t previous :
  (if t >? previous then t else previous + 1) = Z.max t (previous + 1).
Proof. destruct (Z.gtb_spec t previous); lia. Qed.

Lemma last_cons_default {A : Type} (l : list A) (x d : A) :
  List.last (x :: l) d = List.last l x.
Proof.
  revert x d. induction l as [| y l IH]; intros x d; [reflexivity |].
  change (List.last (x :: y :: l) d) with (List.last (y :: l) d).
  rewrite (IH y d), (IH y x). reflexivity.
Qed.

Lemma div_u64_nonzero a b :
  to_uint64 b <> 0 -> arith_uint256.div_u64 a b = Ok (a / to_uint64 b).
Proof.
  intros Hb. unfold arith_uint256.div_u64.
  destruct (Z.eqb_spec (to_uint64 b) 0); [contradiction | reflexivity].
Qed.

Lemma window_blocks_length pindexLast mapContext n i blocks :
  window_blocks pindexLast mapContext n i = Ok blocks -> length blocks = n.
Proof.
  revert i blocks. induction n as [| n IH]; intros i blocks; cbn [window_blocks].
  - intros [= <-]. reflexivity.
  - destruct (map_at mapContext i) as [h |]; [| discriminate]. cbn [rbind].
    destruct (deref (GetAncestor pindexLast h)) as [b |]; [| discriminate].
    cbn [rbind].
    destruct (window_blocks pindexLast mapContext n (i - 1)) as [rest |] eqn:E;
      [| discriminate].
    cbn [rbind]. intros [= <-]. cbn [length]. f_equal. eapply IH. exact E.
Qed.

(** The loop over a window that resolves, in terms of the list of its
    blocks. *)
Lemma lwma_loop_window pindexLast params mapContext n i st blocks :
  let T := Consensus.nPowTargetSpacing params in
  let N := Consensus.lwmaAveragingWindow params in
  let k := Z.quot (N * (N + 1) * T) 2 in
  window_blocks pindexLast mapContext n i = Ok blocks ->
  blocks = [] \/ (to_uint64 N <> 0 /\ to_uint64 k <> 0) ->
  lwma_loop pindexLast params mapContext n i st
  = Ok {| previousTimestamp :=
            List.last (effective_timestamps (previousTimestamp st)
                         (map GetBlockTime blocks)) (previousTimestamp st);
          j := j st + Z.of_nat n;
          sumWeightedSolvetimes :=
            sumWeightedSolvetimes st
            + weighted_sum (j st)
                (solvetimes T (previousTimestamp st) (map GetBlockTime blocks));
          avgTarget := average_target N k (avgTarget st) (map nBits blocks) |}.
Proof.
  intros T N k. revert i st blocks.
  induction n as [| n IH]; intros i st blocks Hw Hdiv.
  - cbn [window_blocks] in Hw. injection Hw as <-.
    cbn. destruct st; cbn. repeat f_equal; lia.
  - cbn [window_blocks] in Hw. cbn [lwma_loop]. unfold lwma_body.
    destruct (map_at mapContext i) as [h |]; [| discriminate].
    cbn [rbind] in *.
    destruct (deref (GetAncestor pindexLast h)) as [b |]; [| discriminate].
    cbn [rbind] in *.
    destruct (window_blocks pindexLast mapContext n (i - 1)) as [rest |] eqn:E;
      [| discriminate].
    cbn [rbind] in Hw. injection Hw as <-.
    destruct Hdiv as [Hnil | [HN Hk]]; [discriminate |].
    fold T N k.
    rewrite (div_u64_nonzero _ N HN). cbn [rbind].
    rewrite (div_u64_nonzero _ k Hk). cbn [rbind].
    rewrite (IH (i - 1) _ rest E (or_intror (conj HN Hk))).
    cbn [previousTimestamp j sumWeightedSolvetimes avgTarget].
    rewrite this_timestamp_is_max.
    cbn [map effective_timestamps average_target].
    unfold solvetimes. cbn [effective_timestamps differences map weighted_sum].
    f_equal. f_equal.
    + symmetry. apply last_cons_default.
    + lia.
    + lia.
Qed.

Lemma effective_timestamps_length previous times :
  length (effective_timestamps previous times) = length times.
Proof.
  revert previous. induction times as [| t rest IH]; intros previous;
    [reflexivity |].
  cbn [effective_timestamps length]. f_equal. apply IH.
Qed.

(** Each effective timestamp is the later of the block time and the
    effective timestamp before it plus one. *)
Lemma effective_timestamps_lookup times previous (m : nat) t :
  times !! m = Some t ->
  effective_timestamps previous times !! m
  = Some (Z.max t
            (List.nth m (previous :: effective_timestamps previous times)
               previous + 1)).
Proof.
  revert previous m. induction times as [| t0 rest IH]; intros previous m Hm;
    [discriminate |].
  destruct m as [| m]; cbn [effective_timestamps] in *.
  - injection Hm as ->. reflexivity.
  - change ((t0 :: rest) !! S m) with (rest !! m) in Hm.
    set (this := Z.max t0 (previous + 1)).
    change ((this :: effective_timestamps this rest) !! S m)
      with (effective_timestamps this rest !! m).
    rewrite (IH this m Hm). do 3 f_equal.
    change (List.nth (S m) (previous :: this :: effective_timestamps this rest)
              previous)
      with (List.nth m (this :: effective_timestamps this rest) previous).
    apply List.nth_indep. cbn [length].
    rewrite effective_timestamps_length.
    apply lookup_lt_Some in Hm. lia.
Qed.

(** Successive effective timestamps differ by at least one. *)
Lemma differences_effective_ge_1 previous times :
  Forall (fun d => 1 <= d)
    (differences previous (effective_timestamps previous times)).
Proof.
  revert previous. induction times as [| t rest IH]; intros previous;
    cbn [effective_timestamps differences]; constructor.
  - lia.
  - apply IH.
Qed.

Lemma solvetimes_capped T previous times :
  Forall (fun s => s <= 6 * T) (solvetimes T previous times).
Proof.
  unfold solvetimes. apply List.Forall_forall. intros s Hs.
  apply in_map_iff in Hs as [d [<- _]]. lia.
Qed.

Lemma solvetimes_ge_1 T previous times :
  1 <= 6 * T -> Forall (fun s => 1 <= s) (solvetimes T previous times).
Proof.
  intros HT. unfold solvetimes. apply List.Forall_forall. intros s Hs.
  apply in_map_iff in Hs as [d [<- Hd]].
  pose proof (differences_effective_ge_1 previous times) as F.
  rewrite List.Forall_forall in F. specialize (F d Hd). lia.
Qed.

Lemma solvetimes_length T previous times :
  length (solvetimes T previous times) = length times.
Proof.
  unfold solvetimes. rewrite length_map.
  generalize (effective_timestamps_length previous times).
  generalize (effective_timestamps previous times) as ets.
  intros ets <-. revert previous.
  induction ets as [| e ets IH]; intros previous; [reflexivity |].
  cbn [differences length]. f_equal. apply IH.
Qed.

(** The weights grow by one from block to block. *)
Lemma weighted_sum_app j sts sts' :
  weighted_sum j (sts ++ sts')
  = weighted_sum j sts + weighted_sum (j + Z.of_nat (length sts)) sts'.
Proof.
  revert j. induction sts as [| s rest IH]; intros j.
  - cbn [app weighted_sum length].
    replace (j + Z.of_nat 0) with j by lia. lia.
  - cbn [app weighted_sum length]. rewrite IH.
    replace (j + 1 + Z.of_nat (length rest))
      with (j + Z.of_nat (S (length rest))) by lia.
    lia.
Qed.

(** ** The context map *)

Lemma dense_keys_empty : dense_keys ∅ 0.
Proof.
  split; [lia |]. split; [reflexivity |].
  intros i. rewrite lookup_empty. split; [intros [? ?]; discriminate | lia].
Qed.

Lemma dense_keys_insert m nIdx v :
  dense_keys m nIdx -> dense_keys (map_insert (nIdx + 1) v m) (nIdx + 1).
Proof.
  intros [H0 [Hs Hk]].
  assert (Hnone : m !! (nIdx + 1) = None).
  { destruct (m !! (nIdx + 1)) eqn:E; [| reflexivity].
    assert (is_Some (m !! (nIdx + 1))) as Hsome by (rewrite E; eauto).
    apply Hk in Hsome. lia. }
  unfold map_insert. rewrite Hnone.
  split; [lia |]. split.
  - rewrite map_size_insert_None by exact Hnone. lia.
  - intros i. destruct (Z.eq_dec i (nIdx + 1)) as [-> | Hne].
    + rewrite lookup_insert_eq. split; [lia | eauto].
    + rewrite lookup_insert_ne by congruence. rewrite Hk. lia.
Qed.

Lemma GetContextLWMA_loop_dense matches p nContextScope nIdx m :
  dense_keys m nIdx ->
  exists nIdx',
    nIdx <= nIdx' /\
    dense_keys (GetContextLWMA_loop matches p nContextScope nIdx m) nIdx'.
Proof.
  revert nIdx m. induction p as [| b prev IH]; intros nIdx m Hd.
  - exists nIdx. split; [lia | exact Hd].
  - cbn [GetContextLWMA_loop]. destruct prev as [| b' prev'].
    + exists nIdx. split; [lia | exact Hd].
    + destruct (nIdx <=? nContextScope); [| exists nIdx; split; [lia | exact Hd]].
      destruct (matches b).
      * destruct (IH (nIdx + 1) _ (dense_keys_insert m nIdx
                                     (nHeight (b :: b' :: prev')) Hd))
          as [n' [Hle Hd']].
        exists n'. split; [lia | exact Hd'].
      * apply IH. exact Hd.
Qed.

Lemma GetContextLWMA_dense p nContextScope kind :
  exists nIdx, dense_keys (GetContextLWMA p nContextScope kind) nIdx.
Proof.
  unfold GetContextLWMA.
  destruct kind;
    [destruct (GetContextLWMA_loop_dense IsProofOfStake p nContextScope 0 ∅
                 dense_keys_empty) as [n [_ Hd]]
    | destruct (GetContextLWMA_loop_dense IsProofOfWork p nContextScope 0 ∅
                  dense_keys_empty) as [n [_ Hd]]];
    exists n; exact Hd.
Qed.

Lemma map_at_dense m nIdx i v :
  dense_keys m nIdx -> map_at m i = Ok v -> 1 <= i <= Z.of_nat (size m).
Proof.
  intros [H0 [Hs Hk]]. unfold map_at.
  destruct (m !! i) eqn:E; [| discriminate]. intros _.
  rewrite Hs. apply Hk. rewrite E. eauto.
Qed.

(** ** The main path *)

Lemma to_uint64_small z : 0 <= z < 2 ^ 64 -> to_uint64 z = z.
Proof. intros H. unfold to_uint64. apply Z.mod_small. exact H. Qed.

Lemma GetAncestor_null h : GetAncestor [] h = [].
Proof.
  unfold GetAncestor. destruct ((h >? nHeight []) || (h <? 0)); [reflexivity |].
  destruct (Z.to_nat (nHeight [] - h)); reflexivity.
Qed.

Lemma lwma_window_nonnull pindexLast params kind w :
  lwma_window pindexLast params kind = Ok w -> pindexLast <> [].
Proof.
  intros Hw ->. unfold lwma_window in Hw. cbv zeta in Hw.
  destruct (map_at _ _) as [h |]; [| discriminate].
  cbn [rbind] in Hw. rewrite GetAncestor_null in Hw. discriminate.
Qed.

(** When the window of a call resolves, the call takes the main path and
    returns the encoding of the next target of that window. *)
Lemma Lwma3_main_path pindexLast params kind previous blocks :
  let T := Consensus.nPowTargetSpacing params in
  let N := Consensus.lwmaAveragingWindow params in
  let k := Z.quot (N * (N + 1) * T) 2 in
  Consensus.fPowNoRetargeting params = false ->
  Consensus.fPoSNoRetargeting params = false ->
  N + 1 <= nHeight pindexLast ->
  N + 1 < 2 ^ 64 ->
  lwma_window pindexLast params kind = Ok (previous, blocks) ->
  blocks = [] \/ (to_uint64 N <> 0 /\ to_uint64 k <> 0) ->
  Lwma3CalculateNextWorkRequired pindexLast params kind
  = Ok (arith_uint256.GetCompact
          (lwma_next_target params kind previous blocks)).
Proof.
  intros T N k Hpow Hpos Hheight HN64 Hw Hdiv.
  pose proof (lwma_window_nonnull _ _ _ _ Hw) as Hnn.
  unfold Lwma3CalculateNextWorkRequired. rewrite Hpow, Hpos. cbn [orb].
  destruct pindexLast as [| b0 rest0] eqn:Ep; [contradiction |].
  cbn [deref rbind]. rewrite <- Ep in *. clear Hnn.
  fold N. destruct (Z.ltb_spec (nHeight pindexLast) (N + 1)); [lia |].
  unfold lwma_window in Hw. cbv zeta in Hw. fold N in Hw.
  set (mapContext := GetContextLWMA pindexLast (N + 1) kind) in *.
  destruct (GetContextLWMA_dense pindexLast (N + 1) kind) as [nIdx Hd].
  fold mapContext in Hd.
  destruct (map_at mapContext (N + 1)) as [h |] eqn:Eat; [| discriminate].
  pose proof (map_at_dense _ _ _ _ Hd Eat) as Hsize.
  cbn [rbind] in Hw.
  destruct (deref (GetAncestor pindexLast h)) as [anchor |] eqn:Ea;
    [| discriminate].
  cbn [rbind] in Hw.
  destruct (window_blocks pindexLast mapContext (Z.to_nat N) N)
    as [bs |] eqn:Ebs; [| discriminate].
  cbn [rbind] in Hw. injection Hw as <- <-.
  rewrite (to_uint64_small (N + 1)) by lia.
  destruct (Z.ltb_spec (Z.of_nat (size mapContext)) (N + 1)); [lia |].
  rewrite andb_false_r. cbn [andb].
  unfold lwma_main. fold N. rewrite Eat. cbn [rbind]. rewrite Ea.
  cbn [rbind].
  rewrite (lwma_loop_window pindexLast params mapContext (Z.to_nat N) N _ bs
             Ebs Hdiv).
  cbn [rbind avgTarget sumWeightedSolvetimes previousTimestamp j].
  unfold lwma_next_target. rewrite Z.add_0_l. reflexivity.
Qed.

(** ** The compact encoding keeps the order *)

Lemma land_bit23 m :
  Z.land m 0x00800000 = if Z.testbit m 23 then 0x00800000 else 0.
Proof.
  change 0x00800000 with (2 ^ 23).
  apply Z.bits_inj'. intros n Hn.
  rewrite Z.land_spec, Z.pow2_bits_eqb by lia.
  destruct (Z.eqb_spec 23 n) as [<- | Hne].
  - rewrite andb_true_r. destruct (Z.testbit m 23).
    + rewrite Z.pow2_bits_true by lia. reflexivity.
    + rewrite Z.bits_0. reflexivity.
  - rewrite andb_false_r. destruct (Z.testbit m 23).
    + rewrite Z.pow2_bits_false by lia. reflexivity.
    + rewrite Z.bits_0. reflexivity.
Qed.

Lemma testbit23_of_mantissa m :
  0 <= m < 2 ^ 24 -> Z.testbit m 23 = negb (m <? 2 ^ 23).
Proof.
  intros Hm. rewrite Z.testbit_odd, Z.shiftr_div_pow2 by lia.
  destruct (Z.ltb_spec m (2 ^ 23)); cbn [negb].
  - rewrite Z.div_small by lia. reflexivity.
  - assert (m / 2 ^ 23 = 1) as ->; [| reflexivity].
    symmetry. apply (Z.div_unique m (2 ^ 23) 1 (m - 2 ^ 23)); lia.
Qed.

Lemma sign_test_of_mantissa m :
  0 <= m < 2 ^ 24 ->
  negb (Z.land m 0x00800000 =? 0) = negb (m <? 2 ^ 23).
Proof.
  intros Hm. rewrite land_bit23, testbit23_of_mantissa by exact Hm.
  destruct (m <? 2 ^ 23); reflexivity.
Qed.

Lemma lor_size m s :
  0 <= m < 2 ^ 24 -> 0 <= s ->
  Z.lor m (Z.shiftl s 24) = m + s * 2 ^ 24.
Proof.
  intros Hm Hs.
  pose proof (Z.add_lor_land m (Z.shiftl s 24)) as Hadd.
  assert (Z.land m (Z.shiftl s 24) = 0) as Hland.
  { apply Z.bits_inj'. intros n Hn.
    rewrite Z.land_spec, Z.bits_0.
    destruct (Z.ltb_spec n 24).
    - rewrite Z.shiftl_spec_low by lia. apply andb_false_r.
    - assert (Z.testbit m n = false) as ->; [| reflexivity].
      destruct (Z.eq_dec m 0) as [-> | Hne]; [apply Z.bits_0 |].
      apply Z.bits_above_log2; [lia |].
      assert (Z.log2 m < 24) by (apply Z.log2_lt_pow2; lia). lia. }
  rewrite Hland in Hadd. rewrite Z.shiftl_mul_pow2 in * by lia. lia.
Qed.

Lemma pow2_add a b : 0 <= a -> 0 <= b -> 2 ^ (a + b) = 2 ^ a * 2 ^ b.
Proof. intros. apply Z.pow_add_r; assumption. Qed.

Lemma pow2_pos a : 0 <= a -> 0 < 2 ^ a.
Proof. intros. apply Z.pow_pos_nonneg; lia. Qed.

(** Bounds of a value carry over to its scaling. *)
Lemma scale_to_size_upper s x b :
  0 <= s -> 0 <= x < 2 ^ b -> 8 * (s - 3) <= b -> 0 <= b ->
  0 <= scale_to_size s x < 2 ^ (b - 8 * (s - 3)).
Proof.
  intros Hs Hx Hb Hb0. unfold scale_to_size.
  destruct (Z.leb_spec s 3).
  - replace (b - 8 * (s - 3)) with (b + 8 * (3 - s)) by lia.
    rewrite pow2_add by lia.
    pose proof (pow2_pos (8 * (3 - s)) ltac:(lia)). nia.
  - pose proof (pow2_pos (8 * (s - 3)) ltac:(lia)) as He.
    split; [apply Z.div_pos; lia |].
    apply Z.div_lt_upper_bound; [lia |].
    rewrite <- pow2_add by lia.
    replace (8 * (s - 3) + (b - 8 * (s - 3))) with b by lia. lia.
Qed.

Lemma scale_to_size_lower s x a :
  0 <= s -> 2 ^ a <= x -> 8 * (s - 3) <= a -> 0 <= a ->
  2 ^ (a - 8 * (s - 3)) <= scale_to_size s x.
Proof.
  intros Hs Hx Ha Ha0. unfold scale_to_size.
  destruct (Z.leb_spec s 3).
  - replace (a - 8 * (s - 3)) with (a + 8 * (3 - s)) by lia.
    rewrite pow2_add by lia.
    pose proof (pow2_pos (8 * (3 - s)) ltac:(lia)). nia.
  - pose proof (pow2_pos (8 * (s - 3)) ltac:(lia)) as He.
    apply Z.div_le_lower_bound; [lia |].
    rewrite <- pow2_add by lia.
    replace (8 * (s - 3) + (a - 8 * (s - 3))) with a by lia. lia.
Qed.

Lemma scale_to_size_mono s x y :
  0 <= x <= y -> scale_to_size s x <= scale_to_size s y.
Proof.
  intros Hxy. unfold scale_to_size. destruct (Z.leb_spec s 3).
  - pose proof (pow2_pos (8 * (3 - s)) ltac:(lia)). nia.
  - pose proof (pow2_pos (8 * (s - 3)) ltac:(lia)).
    apply Z.div_le_mono; lia.
Qed.

(** Dropping one more byte. *)
Lemma scale_to_size_next s x :
  0 <= s -> 0 <= x -> scale_to_size s x / 2 ^ 8 = scale_to_size (s + 1) x.
Proof.
  intros Hs Hx. unfold scale_to_size.
  destruct (Z.leb_spec s 3); destruct (Z.leb_spec (s + 1) 3); try lia.
  - replace (8 * (3 - s)) with (8 * (3 - (s + 1)) + 8) by lia.
    rewrite pow2_add by lia. rewrite Z.mul_assoc.
    apply Z.div_mul. lia.
  - assert (s = 3) as -> by lia. cbn. rewrite Z.mul_1_r. reflexivity.
  - rewrite Z.div_div by (try apply pow2_pos; lia).
    rewrite <- pow2_add by lia. do 2 f_equal. lia.
Qed.

Lemma bits_positive x :
  0 < x ->
  let b := arith_uint256.bits x in
  1 <= b /\ 2 ^ (b - 1) <= x < 2 ^ b.
Proof.
  intros Hx. unfold arith_uint256.bits.
  destruct (Z.eqb_spec x 0); [lia |].
  pose proof (Z.log2_spec x Hx) as Hl.
  pose proof (Z.log2_nonneg x).
  replace (Z.log2 x + 1 - 1) with (Z.log2 x) by lia.
  replace (Z.succ (Z.log2 x)) with (Z.log2 x + 1) in Hl by lia.
  cbv zeta. lia.
Qed.

Lemma bits_mono x y :
  0 < x <= y -> arith_uint256.bits x <= arith_uint256.bits y.
Proof.
  intros Hxy. unfold arith_uint256.bits.
  destruct (Z.eqb_spec x 0); [lia |]. destruct (Z.eqb_spec y 0); [lia |].
  pose proof (Z.log2_le_mono x y ltac:(lia)). lia.
Qed.

(** The encoding of a positive value is its mantissa under its size. *)
Lemma GetCompact_positive x :
  0 < x ->
  arith_uint256.GetCompact x = compact_mantissa x + compact_size x * 2 ^ 24
  /\ 0 <= compact_mantissa x < 2 ^ 23
  /\ 1 <= compact_size x.
Proof.
  intros Hx.
  destruct (bits_positive x Hx) as [Hb1 Hbx].
  unfold compact_mantissa, compact_size, arith_uint256.GetCompact.
  set (b := arith_uint256.bits x) in *.
  set (s := (b + 7) / 8).
  pose proof (Z.div_mod b 8 ltac:(lia)) as Hdm.
  pose proof (Z.mod_pos_bound b 8 ltac:(lia)) as Hr.
  set (q := b / 8) in *. set (r := b mod 8) in *.
  assert (Hq : 0 <= q) by (apply Z.div_pos; lia).
  (* the value before the sign test *)
  assert (Hm : (if s <=? 3
                then to_uint32 (Z.shiftl (arith_uint256.GetLow64 x) (8 * (3 - s)))
                else to_uint32 (arith_uint256.GetLow64
                                  (Z.shiftr x (8 * (s - 3)))))
               = scale_to_size s x
               /\ 1 <= s /\ b <= 8 * s /\ 8 * s - 7 <= b).
  { assert (Hs : 8 * s <= b + 7 < 8 * s + 8).
    { unfold s. pose proof (Z.div_mod (b + 7) 8 ltac:(lia)).
      pose proof (Z.mod_pos_bound (b + 7) 8 ltac:(lia)). lia. }
    split; [| lia].
    assert (Hx' : 0 <= x < 2 ^ (8 * s)).
    { split; [lia |]. apply Z.lt_le_trans with (2 ^ b); [lia |].
      apply Z.pow_le_mono_r; lia. }
    pose proof (scale_to_size_upper s x (8 * s) ltac:(lia) Hx'
                  ltac:(lia) ltac:(lia)) as Hu.
    replace (8 * s - 8 * (s - 3)) with 24 in Hu by lia.
    unfold scale_to_size in *. unfold arith_uint256.GetLow64.
    destruct (Z.leb_spec s 3).
    - rewrite (to_uint64_small x).
      + rewrite Z.shiftl_mul_pow2 by lia. apply to_uint32_small. lia.
      + split; [lia |]. apply Z.lt_le_trans with (2 ^ (8 * s)); [lia |].
        apply Z.pow_le_mono_r; lia.
    - rewrite Z.shiftr_div_pow2 by lia.
      rewrite to_uint64_small by lia. apply to_uint32_small. lia. }
  destruct Hm as [-> [Hs1 [Hbs Hsb]]].
  pose proof (scale_to_size_upper s x b ltac:(lia) ltac:(lia)
                ltac:(lia) ltac:(lia)) as Hub.
  assert (Hm24 : 0 <= scale_to_size s x < 2 ^ 24).
  { split; [lia |]. apply Z.lt_le_trans with (2 ^ (b - 8 * (s - 3))); [lia |].
    apply Z.pow_le_mono_r; lia. }
  rewrite sign_test_of_mantissa by exact Hm24.
  destruct (Z.ltb_spec (scale_to_size s x) (2 ^ 23)) as [Hlow | Hhigh];
    cbn [negb].
  - (* the sign bit is clear: the size is kept *)
    assert (Hsq : q + 1 = s).
    { destruct (Z.eq_dec r 0) as [Hr0 | Hr0]; [| lia].
      exfalso.
      pose proof (scale_to_size_lower s x (b - 1) ltac:(lia) ltac:(lia)
                    ltac:(lia) ltac:(lia)) as Hl.
      assert (23 <= b - 1 - 8 * (s - 3)) by lia.
      pose proof (Z.pow_le_mono_r 2 23 (b - 1 - 8 * (s - 3)) ltac:(lia)
                    ltac:(lia)). lia. }
    rewrite Hsq. rewrite lor_size by lia. repeat split; lia.
  - (* the sign bit is set: one more byte *)
    assert (Hsq : q = s).
    { destruct (Z.eq_dec r 0) as [Hr0 | Hr0]; [lia |].
      exfalso.
      assert (b - 8 * (s - 3) <= 23) by lia.
      pose proof (Z.pow_le_mono_r 2 (b - 8 * (s - 3)) 23 ltac:(lia)
                    ltac:(lia)). lia. }
    rewrite Hsq. rewrite Z.shiftr_div_pow2 by lia.
    rewrite scale_to_size_next by lia.
    assert (Hm' : 0 <= scale_to_size (s + 1) x < 2 ^ 16).
    { rewrite <- scale_to_size_next by lia.
      split; [apply Z.div_pos; lia |].
      apply Z.div_lt_upper_bound; lia. }
    rewrite lor_size by lia. repeat split; lia.
Qed.

Lemma compact_size_bounds x :
  0 < x ->
  let b := arith_uint256.bits x in
  8 * (compact_size x - 1) <= b < 8 * compact_size x.
Proof.
  intros Hx b. unfold compact_size. fold b.
  pose proof (Z.div_mod b 8 ltac:(lia)).
  pose proof (Z.mod_pos_bound b 8 ltac:(lia)). lia.
Qed.

Lemma compact_size_mono x y :
  0 < x <= y -> compact_size x <= compact_size y.
Proof.
  intros Hxy. unfold compact_size.
  pose proof (bits_mono x y Hxy).
  pose proof (Z.div_le_mono _ _ 8 ltac:(lia) H). lia.
Qed.

Lemma GetCompact_nonneg x : 0 <= x -> 0 <= arith_uint256.GetCompact x.
Proof.
  intros Hx. destruct (Z.eq_dec x 0) as [-> | Hne]; [vm_compute; discriminate |].
  destruct (GetCompact_positive x ltac:(lia)) as [-> [Hm Hs]]. lia.
Qed.

(** The compact encoding is monotone. *)
Lemma GetCompact_mono x y :
  0 <= x <= y -> arith_uint256.GetCompact x <= arith_uint256.GetCompact y.
Proof.
  intros Hxy. destruct (Z.eq_dec x 0) as [-> | Hne].
  - change (arith_uint256.GetCompact 0) with 0.
    apply GetCompact_nonneg. lia.
  - destruct (GetCompact_positive x ltac:(lia)) as [-> [Hmx Hsx]].
    destruct (GetCompact_positive y ltac:(lia)) as [-> [Hmy Hsy]].
    pose proof (compact_size_mono x y ltac:(lia)) as Hs.
    destruct (Z.eq_dec (compact_size x) (compact_size y)) as [E | E].
    + unfold compact_mantissa. rewrite E.
      pose proof (scale_to_size_mono (compact_size y) x y ltac:(lia)). lia.
    + nia.
Qed.

(** What decoding gives back: the value itself up to three bytes, and the
    value cut to its three leading bytes above. *)
Lemma decode_GetCompact x :
  0 < x < 2 ^ 256 ->
  arith_uint256.decode (arith_uint256.GetCompact x)
  = if compact_size x <=? 3 then x
    else x / 2 ^ (8 * (compact_size x - 3)) * 2 ^ (8 * (compact_size x - 3)).
Proof.
  intros Hx.
  destruct (GetCompact_positive x ltac:(lia)) as [-> [Hm Hs]].
  unfold arith_uint256.decode, arith_uint256.SetCompact. cbn [fst].
  set (s := compact_size x) in *. set (m := compact_mantissa x) in *.
  assert (Hsize : Z.shiftr (m + s * 2 ^ 24) 24 = s).
  { rewrite Z.shiftr_div_pow2 by lia.
    symmetry. apply (Z.div_unique _ _ s m); lia. }
  assert (Hword : Z.land (m + s * 2 ^ 24) 0x007fffff = m).
  { change 0x007fffff with (Z.ones 23). rewrite Z.land_ones by lia.
    symmetry. apply (Z.mod_unique _ _ (2 * s) m); lia. }
  rewrite Hsize, Hword.
  unfold m, compact_mantissa, scale_to_size. fold s.
  destruct (Z.leb_spec s 3).
  - rewrite Z.shiftr_div_pow2 by lia. apply Z.div_mul.
    pose proof (pow2_pos (8 * (3 - s)) ltac:(lia)). lia.
  - rewrite Z.shiftl_mul_pow2 by lia.
    unfold arith_uint256.wrap, arith_uint256.modulus.
    pose proof (pow2_pos (8 * (s - 3)) ltac:(lia)) as He.
    apply Z.mod_small. split.
    + apply Z.mul_nonneg_nonneg; [apply Z.div_pos |]; lia.
    + pose proof (Z.mul_div_le x (2 ^ (8 * (s - 3))) He). lia.
Qed.

Lemma decode_GetCompact_le x :
  0 <= x < 2 ^ 256 ->
  0 <= arith_uint256.decode (arith_uint256.GetCompact x) <= x.
Proof.
  intros Hx. destruct (Z.eq_dec x 0) as [-> | Hne]; [vm_compute; split; discriminate |].
  rewrite decode_GetCompact by lia.
  destruct (compact_size x <=? 3) eqn:E; [lia |].
  apply Z.leb_gt in E.
  pose proof (pow2_pos (8 * (compact_size x - 3)) ltac:(lia)) as He.
  pose proof (Z.mul_div_le x _ He).
  pose proof (Z.div_pos x _ ltac:(lia) He). nia.
Qed.

(** Decoding the encoding is monotone on 256-bit values. *)
Lemma decode_GetCompact_mono x y :
  0 <= x <= y -> y < 2 ^ 256 ->
  arith_uint256.decode (arith_uint256.GetCompact x)
  <= arith_uint256.decode (arith_uint256.GetCompact y).
Proof.
  intros Hxy Hy. destruct (Z.eq_dec x 0) as [-> | Hne].
  - change (arith_uint256.decode (arith_uint256.GetCompact 0)) with 0.
    apply decode_GetCompact_le. lia.
  - pose proof (decode_GetCompact_le x ltac:(lia)) as Hdx.
    rewrite (decode_GetCompact y) by lia.
    pose proof (compact_size_mono x y ltac:(lia)) as Hs.
    destruct (Z.leb_spec (compact_size y) 3) as [Hy3 | Hy3]; [lia |].
    set (e := 8 * (compact_size y - 3)).
    pose proof (pow2_pos e ltac:(unfold e; lia)) as He.
    destruct (Z.eq_dec (compact_size x) (compact_size y)) as [E | E].
    + rewrite (decode_GetCompact x) by lia. rewrite E.
      destruct (Z.leb_spec (compact_size y) 3); [lia |]. fold e.
      pose proof (Z.div_le_mono x y (2 ^ e) He ltac:(lia)). nia.
    + (* a shorter value lies below the leading power of the longer one *)
      destruct (bits_positive x ltac:(lia)) as [_ [_ Hxb]].
      destruct (bits_positive y ltac:(lia)) as [_ [Hyb _]].
      pose proof (compact_size_bounds x ltac:(lia)) as Bx.
      pose proof (compact_size_bounds y ltac:(lia)) as By.
      cbv zeta in *.
      set (bx := arith_uint256.bits x) in *.
      set (by_ := arith_uint256.bits y) in *.
      assert (Hpow : 2 ^ bx <= 2 ^ (by_ - 1))
        by (apply Z.pow_le_mono_r; lia).
      assert (Hexact : 2 ^ (by_ - 1) / 2 ^ e * 2 ^ e = 2 ^ (by_ - 1)).
      { replace (by_ - 1) with ((by_ - 1 - e) + e) by lia.
        rewrite pow2_add by (unfold e; lia).
        rewrite Z.div_mul by lia. reflexivity. }
      pose proof (Z.div_le_mono (2 ^ (by_ - 1)) y (2 ^ e) He ltac:(lia)).
      nia.
Qed.

(** ** Recent solve times weigh more *)

Lemma weighted_sum_shift j c sts :
  weighted_sum (j + c) sts = weighted_sum j sts + c * sum_list sts.
Proof.
  revert j. induction sts as [| s rest IH]; intros j;
    cbn [weighted_sum sum_list fold_right]; [lia |].
  replace (j + c + 1) with (j + 1 + c) by lia.
  rewrite IH. fold (sum_list rest). lia.
Qed.

(** Exchanging the two halves of a window changes the weighted sum by the
    length of a half times the difference of the sums of the halves. *)
Lemma weighted_sum_swap older newer :
  length older = length newer ->
  weighted_sum 0 (older ++ newer) - weighted_sum 0 (newer ++ older)
  = Z.of_nat (length older) * (sum_list newer - sum_list older).
Proof.
  intros Hlen. rewrite !weighted_sum_app, !weighted_sum_shift, Hlen. lia.
Qed.

Lemma sum_list_le shorter longer :
  length shorter = length longer ->
  (forall s l, In s shorter -> In l longer -> s <= l) ->
  sum_list shorter <= sum_list longer.
Proof.
  revert longer. induction shorter as [| s rest IH]; intros [| l rest'] Hlen H;
    try (cbn in Hlen; discriminate Hlen); [cbn; lia |].
  cbn [sum_list fold_right]. fold (sum_list rest) (sum_list rest').
  assert (s <= l) by (apply H; left; reflexivity).
  assert (sum_list rest <= sum_list rest').
  { apply IH; [cbn in Hlen; lia |].
    intros s' l' Hs Hl. apply H; right; assumption. }
  lia.
Qed.

Lemma weighted_sum_nonneg j sts :
  0 <= j -> Forall (fun s => 1 <= s) sts -> 0 <= weighted_sum j sts.
Proof.
  intros Hj H. revert j Hj. induction H as [| s rest Hs _ IH]; intros j Hj;
    cbn [weighted_sum]; [lia |].
  specialize (IH (j + 1) ltac:(lia)). nia.
Qed.

Lemma average_target_range N k avg bits :
  0 <= avg < 2 ^ 256 -> 0 <= average_target N k avg bits < 2 ^ 256.
Proof.
  revert avg. induction bits as [| b rest IH]; intros avg Havg;
    cbn [average_target]; [exact Havg |].
  apply IH. unfold arith_uint256.add, arith_uint256.wrap, arith_uint256.modulus.
  apply Z.mod_pos_bound. lia.
Qed.

(** The clamp at the proof limit keeps the order, and its results are
    either equal or 256-bit values. *)
Lemma clamp_order limit a b :
  0 <= b <= a -> a < 2 ^ 256 ->
  let ca := if a >? limit then limit else a in
  let cb := if b >? limit then limit else b in
  ca = cb \/ (0 <= cb <= ca /\ ca < 2 ^ 256).
Proof.
  intros Hab Ha. cbv zeta.
  destruct (Z.gtb_spec a limit); destruct (Z.gtb_spec b limit);
    try (left; reflexivity); right; lia.
Qed.

(** ** The precision of the compact encoding *)

(** Two values that differ by one part in [2^15] or more have different
    encodings: the encoding keeps at least 15 bits below the leading one. *)
Lemma GetCompact_strict x y :
  0 < x -> x < y < 2 ^ 256 -> x <= (y - x) * 2 ^ 15 ->
  arith_uint256.decode (arith_uint256.GetCompact x)
  < arith_uint256.decode (arith_uint256.GetCompact y)
  /\ arith_uint256.GetCompact x < arith_uint256.GetCompact y.
Proof.
  intros Hx Hy Hgap.
  destruct (bits_positive x Hx) as [Hb1 Hbx].
  pose proof (compact_size_bounds x Hx) as Hsb. cbv zeta in Hsb.
  set (b := arith_uint256.bits x) in *. set (s := compact_size x) in *.
  set (e := if s <=? 3 then 0 else 8 * (s - 3)).
  assert (He0 : 0 <= e) by (unfold e; destruct (Z.leb_spec s 3); lia).
  assert (Hs1 : 1 <= s) by lia.
  pose proof (pow2_pos e He0) as HE. set (E := 2 ^ e) in *.
  set (x' := (x / E + 1) * E).
  assert (Hx' : x < x' <= x + E).
  { unfold x'. pose proof (Z.div_mod x E ltac:(lia)).
    pose proof (Z.mod_pos_bound x E HE). nia. }
  assert (HEgap : E <= y - x).
  { unfold E, e. destruct (Z.leb_spec s 3); [change (2 ^ 0) with 1; lia |].
    assert (2 ^ (8 * (s - 3)) * 2 ^ 15 <= 2 ^ (b - 1)).
    { rewrite <- pow2_add by lia. apply Z.pow_le_mono_r; lia. }
    pose proof (pow2_pos (8 * (s - 3)) ltac:(lia)). nia. }
  assert (Htop : x' <= 2 ^ (8 * s - 1)).
  { assert (Hsplit : 2 ^ (8 * s - 1) = E * 2 ^ (8 * s - 1 - e)).
    { unfold E. rewrite <- pow2_add; [f_equal; lia | lia |].
      unfold e. destruct (Z.leb_spec s 3); lia. }
    assert (x < 2 ^ (8 * s - 1)).
    { assert (2 ^ b <= 2 ^ (8 * s - 1)) by (apply Z.pow_le_mono_r; lia). lia. }
    assert (x / E < 2 ^ (8 * s - 1 - e))
      by (apply Z.div_lt_upper_bound; lia).
    unfold x'. rewrite Hsplit. nia. }
  assert (Hexact : arith_uint256.decode (arith_uint256.GetCompact x') = x').
  { rewrite decode_GetCompact by lia.
    destruct (Z.eq_dec x' (2 ^ (8 * s - 1))) as [Etop | Ntop].
    - assert (Hsize : compact_size x' = s + 1).
      { rewrite Etop. unfold compact_size, arith_uint256.bits.
        pose proof (pow2_pos (8 * s - 1) ltac:(lia)).
        destruct (Z.eqb_spec (2 ^ (8 * s - 1)) 0); [lia |].
        rewrite Z.log2_pow2 by lia.
        replace (8 * s - 1 + 1) with (s * 8) by lia.
        rewrite Z.div_mul by lia. reflexivity. }
      rewrite Hsize. destruct (Z.leb_spec (s + 1) 3); [reflexivity |].
      rewrite Etop.
      replace (8 * s - 1) with (15 + 8 * (s + 1 - 3)) by lia.
      rewrite pow2_add by lia.
      rewrite Z.div_mul by (pose proof (pow2_pos (8 * (s + 1 - 3))
                                          ltac:(lia)); lia).
      reflexivity.
    - assert (Hsize : compact_size x' = s).
      { unfold compact_size.
        assert (Hbx' : 8 * (s - 1) <= arith_uint256.bits x' <= 8 * s - 1).
        { split.
          - pose proof (bits_mono x x' ltac:(lia)). fold b in H. lia.
          - unfold arith_uint256.bits.
            destruct (Z.eqb_spec x' 0); [lia |].
            assert (Z.log2 x' < 8 * s - 1)
              by (apply Z.log2_lt_pow2; lia).
            lia. }
        assert (arith_uint256.bits x' / 8 = s - 1).
        { symmetry.
          apply (Z.div_unique _ 8 (s - 1)
                   (arith_uint256.bits x' - 8 * (s - 1))); lia. }
        lia. }
      rewrite Hsize. destruct (Z.leb_spec s 3) as [Hle | Hgt]; [reflexivity |].
      unfold x', E, e. destruct (Z.leb_spec s 3); [lia |].
      rewrite Z.div_mul by (pose proof (pow2_pos (8 * (s - 3)) ltac:(lia));
                            lia).
      reflexivity. }
  pose proof (decode_GetCompact_le x ltac:(lia)) as Hlow.
  pose proof (decode_GetCompact_mono x' y ltac:(lia) ltac:(lia)) as Hup.
  assert (Hdec : arith_uint256.decode (arith_uint256.GetCompact x)
                 < arith_uint256.decode (arith_uint256.GetCompact y)) by lia.
  split; [exact Hdec |].
  pose proof (GetCompact_mono x y ltac:(lia)) as Hmono.
  destruct (Z.eq_dec (arith_uint256.GetCompact x) (arith_uint256.GetCompact y))
    as [Eq | Ne]; [rewrite Eq in Hdec; lia | lia].
Qed.

Lemma sum_list_lt shorter longer :
  length shorter = length longer -> shorter <> [] ->
  (forall s l, In s shorter -> In l longer -> s < l) ->
  sum_list shorter < sum_list longer.
Proof.
  intros Hlen Hne H.
  destruct shorter as [| s rest]; [contradiction |].
  destruct longer as [| l rest']; [discriminate |].
  cbn [sum_list fold_right]. fold (sum_list rest) (sum_list rest').
  assert (s < l) by (apply H; left; reflexivity).
  assert (sum_list rest <= sum_list rest').
  { apply sum_list_le; [cbn in Hlen; lia |].
    intros s' l' Hs Hl. apply Z.lt_le_incl. apply H; right; assumption. }
  lia.
Qed.

(** C8, as the code has it: for two windows with the same bits whose solve
    times are the same two halves in exchanged order, the window whose longer
    solve times are the recent ones has the strictly larger weighted sum
    (the weights grow with recency), and, for a positive average target, the
    strictly larger next target before the encoding as long as the target of
    the other window is below the limit.  The returned bits and the decoded
    targets are never smaller; they are strictly larger when neither target
    is capped at the limit and the two weighted sums differ by one part in
    [2^15] or more, the precision of the compact encoding.  All this
    provided that the weighted sum fits in 32 bits and its product with the
    average target fits in 256 bits.  (It is not always larger: see the
    lemma after the witness.) *)
Theorem Lwma3_recent_solvetimes_weigh_more :
  forall (pindexA pindexB : pindex) (params : Consensus.Params) (kind : bool)
         (previousA previousB : Z) (windowA windowB : list CBlockIndex)
         (shorter longer : list Z),
    let T := Consensus.nPowTargetSpacing params in
    let N := Consensus.lwmaAveragingWindow params in
    let k := Z.quot (N * (N + 1) * T) 2 in
    let ProofLimit :=
      UintToArith256 (if kind then Consensus.posLimit params
                      else Consensus.powLimit params) in
    let avgTarget := average_target N k 0 (map nBits windowA) in
    let sumA := weighted_sum 0 (shorter ++ longer) in
    let sumB := weighted_sum 0 (longer ++ shorter) in
    let nextA := lwma_next_target params kind previousA windowA in
    let nextB := lwma_next_target params kind previousB windowB in
    Consensus.fPowNoRetargeting params = false ->
    Consensus.fPoSNoRetargeting params = false ->
    0 < T -> N * (N + 1) * T < 2 ^ 63 ->
    N + 1 <= nHeight pindexA -> N + 1 <= nHeight pindexB ->
    lwma_window pindexA params kind = Ok (previousA, windowA) ->
    lwma_window pindexB params kind = Ok (previousB, windowB) ->
    map nBits windowA = map nBits windowB ->
    solvetimes T previousA (map GetBlockTime windowA) = shorter ++ longer ->
    solvetimes T previousB (map GetBlockTime windowB) = longer ++ shorter ->
    length shorter = length longer ->
    (forall s l, In s shorter -> In l longer -> s < l) ->
    sumA < 2 ^ 32 ->
    avgTarget * sumA < 2 ^ 256 ->
    exists bitsA bitsB,
      Lwma3CalculateNextWorkRequired pindexA params kind = Ok bitsA
      /\ Lwma3CalculateNextWorkRequired pindexB params kind = Ok bitsB
      /\ bitsB <= bitsA
      /\ arith_uint256.decode bitsB <= arith_uint256.decode bitsA
      /\ bitsA = arith_uint256.GetCompact nextA
      /\ bitsB = arith_uint256.GetCompact nextB
      /\ (shorter <> [] ->
          sumB < sumA
          /\ (0 < avgTarget -> nextB < ProofLimit -> nextB < nextA)
          /\ (0 < avgTarget -> avgTarget * sumA <= ProofLimit ->
              sumB <= (sumA - sumB) * 2 ^ 15 ->
              bitsB < bitsA
              /\ arith_uint256.decode bitsB < arith_uint256.decode bitsA)).
Proof.
  intros pindexA pindexB params kind previousA previousB windowA windowB
    shorter longer T N k L avg WA WB nextA nextB Hpow Hpos HT Hint HhA HhB
    HwA HwB Hbits HsA HsB Hlen Hlonger H32 H256.
  (* the window has N blocks, and N is not negative *)
  assert (HN : 0 <= N).
  { unfold lwma_window in HwA. cbv zeta in HwA. fold N in HwA.
    destruct (GetContextLWMA_dense pindexA (N + 1) kind) as [nIdx Hd].
    destruct (map_at _ (N + 1)) as [h |] eqn:Eat; [| discriminate].
    pose proof (map_at_dense _ _ _ _ Hd Eat). lia. }
  assert (Hk : 0 <= k < 2 ^ 63 /\ (0 < N -> 0 < k)).
  { unfold k. assert (0 <= N * (N + 1) * T) by nia.
    rewrite Z.quot_div_nonneg by lia.
    pose proof (Z.div_pos (N * (N + 1) * T) 2 ltac:(lia) ltac:(lia)).
    pose proof (Z.div_le_upper_bound (N * (N + 1) * T) 2 (2 ^ 63)
                  ltac:(lia) ltac:(lia)).
    split; [split; [lia |] |].
    - apply Z.div_lt_upper_bound; lia.
    - intros HN0. apply Z.div_str_pos. nia. }
  assert (Hdiv : forall blocks : list CBlockIndex,
             length blocks = Z.to_nat N ->
             blocks = [] \/ (to_uint64 N <> 0 /\ to_uint64 k <> 0)).
  { intros blocks Hl. destruct (Z.eq_dec N 0) as [E | E].
    - left. rewrite E in Hl. destruct blocks; [reflexivity | discriminate].
    - right. assert (N < 2 ^ 63) by nia.
      rewrite !to_uint64_small by lia. lia. }
  assert (HlA : length windowA = Z.to_nat N).
  { unfold lwma_window in HwA. cbv zeta in HwA. fold N in HwA.
    destruct (map_at _ (N + 1)); [| discriminate]. cbn [rbind] in HwA.
    destruct (deref _); [| discriminate]. cbn [rbind] in HwA.
    destruct (window_blocks _ _ _ _) as [bs |] eqn:E; [| discriminate].
    cbn [rbind] in HwA. injection HwA as _ <-.
    eapply window_blocks_length. exact E. }
  assert (HlB : length windowB = Z.to_nat N).
  { rewrite <- HlA, <- (length_map nBits windowB), <- Hbits, length_map.
    reflexivity. }
  assert (HN64 : N + 1 < 2 ^ 64).
  { destruct (Z.eq_dec N 0); [lia | nia]. }
  rewrite (Lwma3_main_path pindexA params kind previousA windowA
             Hpow Hpos HhA HN64 HwA (Hdiv windowA HlA)).
  rewrite (Lwma3_main_path pindexB params kind previousB windowB
             Hpow Hpos HhB HN64 HwB (Hdiv windowB HlB)).
  fold nextA nextB.
  exists (arith_uint256.GetCompact nextA), (arith_uint256.GetCompact nextB).
  split; [reflexivity |]. split; [reflexivity |].
  assert (Havg : 0 <= avg < 2 ^ 256) by (apply average_target_range; lia).
  assert (HWB : 0 <= WB).
  { apply weighted_sum_nonneg; [lia |]. rewrite <- HsB.
    apply solvetimes_ge_1. lia. }
  pose proof (weighted_sum_swap shorter longer Hlen) as Hswap.
  fold WA WB in Hswap.
  assert (HWBA : WB <= WA).
  { pose proof (sum_list_le shorter longer Hlen
                  ltac:(intros s l Hs Hl; specialize (Hlonger s l Hs Hl); lia)).
    nia. }
  assert (HnextA : nextA = if avg * WA >? L then L else avg * WA).
  { unfold nextA, lwma_next_target. fold T N k L. rewrite HsA.
    fold WA avg.
    unfold arith_uint256.mul_u32, arith_uint256.wrap, arith_uint256.modulus.
    rewrite (to_uint32_small WA) by lia.
    rewrite (Z.mod_small (avg * WA)) by nia. reflexivity. }
  assert (HnextB : nextB = if avg * WB >? L then L else avg * WB).
  { unfold nextB, lwma_next_target. fold T N k L. rewrite HsB, <- Hbits.
    fold WB avg.
    unfold arith_uint256.mul_u32, arith_uint256.wrap, arith_uint256.modulus.
    rewrite (to_uint32_small WB) by lia.
    rewrite (Z.mod_small (avg * WB)) by nia. reflexivity. }
  assert (Hweak : arith_uint256.GetCompact nextB <= arith_uint256.GetCompact nextA
                  /\ arith_uint256.decode (arith_uint256.GetCompact nextB)
                     <= arith_uint256.decode (arith_uint256.GetCompact nextA)).
  { rewrite HnextA, HnextB.
    destruct (clamp_order L (avg * WA) (avg * WB) ltac:(nia) ltac:(lia))
      as [-> | [Hord Hlt]].
    - split; reflexivity.
    - split; [apply GetCompact_mono | apply decode_GetCompact_mono]; lia. }
  split; [apply Hweak |]. split; [apply Hweak |].
  split; [reflexivity |]. split; [reflexivity |].
  intros Hne.
  assert (Hstrict : WB < WA).
  { pose proof (sum_list_lt shorter longer Hlen Hne Hlonger).
    assert (0 < Z.of_nat (length shorter))
      by (destruct shorter; [contradiction | cbn [length]; lia]).
    nia. }
  split; [exact Hstrict |]. split.
  - intros Hpos_avg HB. rewrite HnextA. rewrite HnextB in HB |- *.
    destruct (Z.gtb_spec (avg * WB) L); [lia |].
    destruct (Z.gtb_spec (avg * WA) L); [lia | nia].
  - intros Hpos_avg HA Hgap. rewrite HnextA, HnextB.
    destruct (Z.gtb_spec (avg * WA) L); [lia |].
    destruct (Z.gtb_spec (avg * WB) L); [nia |].
    assert (HWB1 : 0 < WB).
    { assert (Hall : Forall (fun s => 1 <= s) (longer ++ shorter)).
      { rewrite <- HsB. apply solvetimes_ge_1. lia. }
      unfold WB. destruct longer as [| l rest'];
        [destruct shorter; [contradiction | discriminate] |].
      cbn [app weighted_sum].
      inversion Hall as [| ? ? Hl Hrest]; subst.
      pose proof (weighted_sum_nonneg (0 + 1) (rest' ++ shorter) ltac:(lia)
                    Hrest).
      lia. }
    destruct (GetCompact_strict (avg * WB) (avg * WA) ltac:(nia) ltac:(nia)
                ltac:(nia)) as [Hd Hb].
    split; assumption.
Qed.

Lemma Lwma3_recent_solvetimes_weigh_more_witness :
  Lwma3CalculateNextWorkRequired
    (Examples.recent_slow_chain 0x1c0fffff) (Examples.network 4) false
  = Ok 0x1c288885
  /\ Lwma3CalculateNextWorkRequired
       (Examples.early_slow_chain 0x1c0fffff) (Examples.network 4) false
     = Ok 0x1c177775.
Proof.
  destruct (Lwma3_recent_solvetimes_weigh_more
              (Examples.recent_slow_chain 0x1c0fffff)
              (Examples.early_slow_chain 0x1c0fffff)
              (Examples.network 4) false 0 0
              (Examples.chain_of false 0x1c0fffff [100; 200; 700; 1200])
              (Examples.chain_of false 0x1c0fffff [500; 1000; 1100; 1200])
              [100; 100] [500; 500])
    as [bitsA [bitsB [HA [HB _]]]].
  - reflexivity.
  - reflexivity.
  - vm_compute. reflexivity.
  - vm_compute. reflexivity.
  - vm_compute. discriminate.
  - vm_compute. discriminate.
  - vm_compute. reflexivity.
  - vm_compute. reflexivity.
  - reflexivity.
  - vm_compute. reflexivity.
  - vm_compute. reflexivity.
  - reflexivity.
  - intros s l [<- | [<- | []]] [<- | [<- | []]]; lia.
  - vm_compute. reflexivity.
  - vm_compute. reflexivity.
  - split; vm_compute; reflexivity.
Defined.

(** The claim as worded asks for a strictly larger target.  On a chain at
    the proof limit both windows are clamped to the limit and the two calls
    return the same bits. *)
Lemma Lwma3_recent_solvetimes_not_strict :
  let A := Examples.recent_slow_chain 0x1d00ffff in
  let B := Examples.early_slow_chain 0x1d00ffff in
  let p := Examples.network 4 in
  lwma_window A p false
  = Ok (0, Examples.chain_of false 0x1d00ffff [100; 200; 700; 1200])
  /\ lwma_window B p false
     = Ok (0, Examples.chain_of false 0x1d00ffff [500; 1000; 1100; 1200])
  /\ solvetimes 150 0 [100; 200; 700; 1200] = [100; 100] ++ [500; 500]
  /\ solvetimes 150 0 [500; 1000; 1100; 1200] = [500; 500] ++ [100; 100]
  /\ ~ strictly_easier (Lwma3CalculateNextWorkRequired A p false)
                       (Lwma3CalculateNextWorkRequired B p false).
Proof.
  cbv zeta.
  split; [vm_compute; reflexivity |].
  split; [vm_compute; reflexivity |].
  split; [vm_compute; reflexivity |].
  split; [vm_compute; reflexivity |].
  intros [bitsA [bitsB [HA [HB Hlt]]]].
  vm_compute in HA. vm_compute in HB.
  injection HA as <-. injection HB as <-. lia.
Qed.

(** ** Short windows *)

Lemma count_above_genesis_nonneg matches p :
  0 <= count_above_genesis matches p.
Proof.
  induction p as [| b prev IH]; cbn [count_above_genesis]; [lia |].
  destruct prev; [lia |]. destruct (matches b); lia.
Qed.

(** Unless the walk stops at the bound, the map holds every matching block
    above the genesis block. *)
Lemma GetContextLWMA_loop_count matches p nContextScope nIdx m :
  dense_keys m nIdx ->
  let m' := GetContextLWMA_loop matches p nContextScope nIdx m in
  Z.of_nat (size m') = nIdx + count_above_genesis matches p
  \/ nContextScope < Z.of_nat (size m').
Proof.
  revert nIdx m. induction p as [| b prev IH]; intros nIdx m Hd; cbv zeta.
  - left. destruct Hd as [_ [Hs _]]. cbn. lia.
  - cbn [GetContextLWMA_loop count_above_genesis].
    destruct prev as [| b' prev'].
    + left. destruct Hd as [_ [Hs _]]. lia.
    + destruct (Z.leb_spec nIdx nContextScope).
      * destruct (matches b).
        -- destruct (IH (nIdx + 1) _
                       (dense_keys_insert m nIdx (nHeight (b :: b' :: prev')) Hd))
             as [E | E]; [left; lia | right; exact E].
        -- destruct (IH nIdx m Hd) as [E | E]; [left; lia | right; exact E].
      * right. destruct Hd as [_ [Hs _]]. lia.
Qed.

Lemma CountPoS_loop_le p nHeightScan nFound :
  CountPoS_loop p nHeightScan nFound
  <= nFound + count_above_genesis IsProofOfStake p.
Proof.
  revert nFound. induction p as [| b prev IH]; intros nFound;
    cbn [CountPoS_loop count_above_genesis]; [lia |].
  destruct prev as [| b' prev']; [lia |].
  pose proof (count_above_genesis_nonneg IsProofOfStake (b' :: prev')).
  destruct (nHeight (b :: b' :: prev') >? nHeightScan).
  - specialize (IH (if IsProofOfStake b then nFound + 1 else nFound)).
    destruct (IsProofOfStake b); lia.
  - destruct (IsProofOfStake b); lia.
Qed.

Lemma lwma_loop_keys_present pindexLast params mapContext n i st :
  (forall i', i - Z.of_nat n < i' <= i -> is_Some (mapContext !! i')) ->
  lwma_loop pindexLast params mapContext n i st <> Fail out_of_range.
Proof.
  revert i st. induction n as [| n IH]; intros i st Hkeys; [discriminate |].
  cbn [lwma_loop]. unfold lwma_body, map_at.
  destruct (Hkeys i ltac:(lia)) as [h ->]. cbn [rbind].
  destruct (GetAncestor pindexLast h); cbn [deref rbind]; [discriminate |].
  unfold arith_uint256.div_u64.
  destruct (to_uint64 (Consensus.lwmaAveragingWindow params) =? 0);
    cbn [rbind]; [discriminate |].
  destruct (to_uint64 _ =? 0); cbn [rbind]; [discriminate |].
  apply IH. intros i' Hi'. apply Hkeys. lia.
Qed.

Lemma lwma_pos_activation_no_out_of_range pindexLast params kind :
  lwma_pos_activation pindexLast params kind <> Fail out_of_range.
Proof.
  unfold lwma_pos_activation.
  destruct (GetLastBlockIndex pindexLast kind) as [| bPrev prev];
    cbn [deref rbind pprev tail]; [discriminate |].
  destruct prev as [| b' prev']; [discriminate |].
  destruct (GetLastBlockIndex (b' :: prev') kind) as [| bPrevPrev prev2];
    cbn [deref rbind pprev tail]; [discriminate |].
  destruct prev2; [discriminate |].
  destruct pindexLast; cbn [deref rbind]; [discriminate |].
  destruct (Consensus.nPowTargetSpacing params =? 0); cbn [rbind];
    [discriminate |].
  unfold arith_uint256.div_u64.
  destruct (to_uint64 _ =? 0); cbn [rbind]; discriminate.
Qed.

(** For a proof-of-stake call a short window always reaches the fallback,
    and on the main path every key that is read is in the map. *)
Lemma Lwma3_pos_no_out_of_range pindexLast params :
  let N := Consensus.lwmaAveragingWindow params in
  0 <= N -> N + 1 < 2 ^ 64 ->
  Lwma3CalculateNextWorkRequired pindexLast params true <> Fail out_of_range.
Proof.
  intros N HN HN64. unfold Lwma3CalculateNextWorkRequired.
  destruct (Consensus.fPowNoRetargeting params || Consensus.fPoSNoRetargeting params).
  { destruct (GetLastBlockIndex pindexLast true); cbn [deref rbind];
      discriminate. }
  destruct pindexLast as [| bLast rest] eqn:Ep; cbn [deref rbind];
    [discriminate |].
  rewrite <- Ep. clear Ep bLast rest. fold N.
  destruct (nHeight pindexLast <? N + 1); [discriminate |].
  set (mapContext := GetContextLWMA pindexLast (N + 1) true).
  rewrite (to_uint64_small (N + 1)) by lia. cbn [andb].
  assert (Hmain : N + 1 <= Z.of_nat (size mapContext) ->
                  lwma_main pindexLast params true mapContext
                  <> Fail out_of_range).
  { intros Hsize.
    destruct (GetContextLWMA_dense pindexLast (N + 1) true)
      as [nIdx [_ [Hs Hkeys]]]. fold mapContext in Hs, Hkeys.
    unfold lwma_main, map_at. fold N.
    destruct (proj2 (Hkeys (N + 1)) ltac:(lia)) as [h ->]. cbn [rbind].
    destruct (GetAncestor pindexLast h); cbn [deref rbind]; [discriminate |].
    match goal with
    | |- context [lwma_loop ?p ?q ?m ?n ?i ?st] =>
        pose proof (lwma_loop_keys_present p q m n i st) as Hloop;
        destruct (lwma_loop p q m n i st) as [st' | f]
    end; [discriminate |].
    cbn [rbind]. intros [= ->]. apply Hloop; [| reflexivity].
    intros i' Hi'. apply Hkeys. lia. }
  destruct (Z.ltb_spec (Z.of_nat (size mapContext)) (N + 1)) as [Hshort | Hlong].
  - destruct (Z.leb_spec (CountPoS pindexLast 0) (N + 1)) as [_ | Hcount].
    + apply lwma_pos_activation_no_out_of_range.
    + exfalso. unfold CountPoS in Hcount.
      pose proof (CountPoS_loop_le pindexLast 0 0).
      pose proof (GetContextLWMA_loop_count IsProofOfStake pindexLast (N + 1)
                    0 ∅ dense_keys_empty) as Hc.
      cbv zeta in Hc. unfold mapContext, GetContextLWMA in Hshort. lia.
  - cbn [andb]. apply Hmain. lia.
Qed.

Lemma GetContextLWMA_loop_size_le matches p nContextScope nIdx m :
  dense_keys m nIdx ->
  Z.of_nat (size (GetContextLWMA_loop matches p nContextScope nIdx m))
  <= nIdx + count_above_genesis matches p.
Proof.
  revert nIdx m. induction p as [| b prev IH]; intros nIdx m Hd.
  - destruct Hd as [_ [Hs _]]. cbn. lia.
  - cbn [GetContextLWMA_loop count_above_genesis].
    pose proof Hd as [_ [Hs _]].
    destruct prev as [| b' prev']; [lia |].
    pose proof (count_above_genesis_nonneg matches (b' :: prev')).
    destruct (nIdx <=? nContextScope); [| destruct (matches b); lia].
    destruct (matches b).
    + specialize (IH (nIdx + 1) _
                    (dense_keys_insert m nIdx (nHeight (b :: b' :: prev')) Hd)).
      lia.
    + specialize (IH nIdx m Hd). lia.
Qed.

(** In general: with retargeting enabled and a tip at height [N + 1] or
    above, a proof-of-work call on a chain that holds fewer than [N + 1]
    proof-of-work blocks above its genesis block ends in
    [std::out_of_range]. *)
Lemma Lwma3_pow_short_window pindexLast params :
  let N := Consensus.lwmaAveragingWindow params in
  Consensus.fPowNoRetargeting params = false ->
  Consensus.fPoSNoRetargeting params = false ->
  N + 1 <= nHeight pindexLast ->
  count_above_genesis IsProofOfWork pindexLast < N + 1 ->
  Lwma3CalculateNextWorkRequired pindexLast params false = Fail out_of_range.
Proof.
  intros N Hpow Hpos Hheight Hcount.
  unfold Lwma3CalculateNextWorkRequired. rewrite Hpow, Hpos. cbn [orb].
  destruct pindexLast as [| bLast rest] eqn:Ep.
  { pose proof (count_above_genesis_nonneg IsProofOfWork []).
    unfold nHeight in Hheight. cbn in Hheight, Hcount. lia. }
  rewrite <- Ep in *. cbn [deref rbind andb]. rewrite Ep at 1. cbn [deref rbind].
  fold N. destruct (Z.ltb_spec (nHeight pindexLast) (N + 1)); [lia |].
  unfold lwma_main, map_at. fold N.
  destruct (GetContextLWMA_dense pindexLast (N + 1) false)
    as [nIdx [_ [Hs Hkeys]]].
  pose proof (GetContextLWMA_loop_size_le IsProofOfWork pindexLast (N + 1)
                0 ∅ dense_keys_empty) as Hle.
  unfold GetContextLWMA in *.
  destruct (GetContextLWMA_loop IsProofOfWork pindexLast (N + 1) 0 ∅ !! (N + 1))
    eqn:E; [| reflexivity].
  assert (is_Some (GetContextLWMA_loop IsProofOfWork pindexLast (N + 1) 0 ∅
                   !! (N + 1))) as Hsome by (rewrite E; eauto).
  apply Hkeys in Hsome. lia.
Qed.

(** C1: a proof-of-work call on a chain whose height is at least [N + 1]
    but which holds fewer than [N + 1] proof-of-work blocks is not settled by
    a fallback: the lookup [mapContext.at(N + 1)] misses its key and the call
    ends in [std::out_of_range], also when it is made through
    [GetNextWorkRequired].  The proof-of-stake call on the same chain returns
    a value. *)
Theorem Lwma3_pow_short_window_throws :
  nHeight Examples.hybrid_chain = 7 /\
  size (GetContextLWMA Examples.hybrid_chain 6 false) = 2%nat /\
  Lwma3CalculateNextWorkRequired Examples.hybrid_chain Examples.params false
  = Fail out_of_range /\
  GetNextWorkRequired Examples.hybrid_chain 1200 Examples.params false
  = Fail out_of_range /\
  Lwma3CalculateNextWorkRequired Examples.hybrid_chain Examples.params true
  = Ok 0x1c0fffff.
Proof.
  repeat split; vm_compute; reflexivity.
Qed.

(** * Further properties of the code *)

(** ** The walks over the ancestors *)

Lemma GetLastBlockIndex_split (p : pindex) (k : bool) :
  p <> [] ->
  exists skipped b rest,
    p = skipped ++ b :: rest
    /\ GetLastBlockIndex p k = b :: rest
    /\ Forall (fun x => IsProofOfStake x = negb k) skipped
    /\ (IsProofOfStake b = k \/ rest = []).
Proof.
  induction p as [| b0 prev IH]; intros Hnn; [contradiction |].
  cbn [GetLastBlockIndex]. destruct prev as [| b1 prev'].
  - exists [], b0, []. repeat split; auto.
  - destruct (Bool.eqb (IsProofOfStake b0) k) eqn:E; cbn [negb].
    + exists [], b0, (b1 :: prev'). apply Bool.eqb_prop in E.
      repeat split; auto.
    + destruct (IH ltac:(discriminate)) as [skipped [b [rest [Hp [Hg [Hs Hk]]]]]].
      exists (b0 :: skipped), b, rest.
      split; [cbn [app]; f_equal; exact Hp |].
      split; [exact Hg |]. split; [| exact Hk].
      constructor; [| exact Hs].
      apply Bool.eqb_false_iff in E.
      destruct (IsProofOfStake b0), k; try reflexivity; contradiction E;
        reflexivity.
Qed.

Lemma GetLastBlockIndex_idempotent (p : pindex) (k : bool) :
  GetLastBlockIndex (GetLastBlockIndex p k) k = GetLastBlockIndex p k.
Proof.
  induction p as [| b0 prev IH]; [reflexivity |].
  cbn [GetLastBlockIndex]. destruct prev as [| b1 prev']; [reflexivity |].
  destruct (Bool.eqb (IsProofOfStake b0) k) eqn:E; cbn [negb].
  - cbn [GetLastBlockIndex]. rewrite E. reflexivity.
  - exact IH.
Qed.

(** X1: [GetLastBlockIndex] walks from a block towards the genesis block over
    the blocks of the other proof kind and stops at the first block of the
    requested kind, or at the genesis block when there is none: the blocks
    passed over are all of the other kind, the block returned is of the
    requested kind unless it is the genesis block, a second walk from the
    result stays there, and the null pointer is returned for the null pointer
    only. *)
Theorem GetLastBlockIndex_most_recent_of_kind :
  forall (b0 : CBlockIndex) (prev : pindex) (k : bool),
    (exists skipped b rest,
        b0 :: prev = skipped ++ b :: rest
        /\ GetLastBlockIndex (b0 :: prev) k = b :: rest
        /\ Forall (fun x => IsProofOfStake x = negb k) skipped
        /\ (IsProofOfStake b = k \/ rest = []))
    /\ GetLastBlockIndex (GetLastBlockIndex (b0 :: prev) k) k
       = GetLastBlockIndex (b0 :: prev) k
    /\ GetLastBlockIndex [] k = [].
Proof.
  intros b0 prev k. split; [| split].
  - apply GetLastBlockIndex_split. discriminate.
  - apply GetLastBlockIndex_idempotent.
  - reflexivity.
Qed.

Lemma nHeight_cons b (p : pindex) : nHeight (b :: p) = nHeight p + 1.
Proof. unfold nHeight. cbn [length]. lia. Qed.

Lemma nHeight_ge p : -1 <= nHeight p.
Proof. unfold nHeight. lia. Qed.

Lemma CountPoS_loop_count p nHeightScan nFound :
  CountPoS_loop p nHeightScan nFound
  = nFound
    + Z.of_nat (length (List.filter IsProofOfStake
                          (take (Z.to_nat (nHeight p - Z.max 0 nHeightScan)) p))).
Proof.
  revert nFound. induction p as [| b prev IH]; intros nFound.
  - rewrite take_nil. cbn. lia.
  - cbn [CountPoS_loop]. destruct prev as [| b' prev'].
    + replace (Z.to_nat (nHeight [b] - Z.max 0 nHeightScan)) with 0%nat
        by (unfold nHeight; cbn [length]; lia).
      cbn. lia.
    + rewrite (nHeight_cons b (b' :: prev')).
      pose proof (nHeight_cons b' prev') as Hh. pose proof (nHeight_ge prev').
      set (p' := b' :: prev') in *.
      destruct (Z.gtb_spec (nHeight p' + 1) nHeightScan) as [Hgt | Hle].
      * rewrite IH.
        replace (Z.to_nat (nHeight p' + 1 - Z.max 0 nHeightScan))
          with (S (Z.to_nat (nHeight p' - Z.max 0 nHeightScan))) by lia.
        cbn [take List.filter]. destruct (IsProofOfStake b); cbn [length]; lia.
      * replace (Z.to_nat (nHeight p' + 1 - Z.max 0 nHeightScan)) with 0%nat
          by lia.
        cbn. lia.
Qed.

(** X2: [CountPoS] returns the number of proof-of-stake blocks among the
    blocks of heights above [nHeightScan], the genesis block left out: these
    are the first [nHeight - max 0 nHeightScan] blocks of the walk.  The
    count is therefore between zero and that number; it is zero for the null
    pointer, for the genesis block and for a scan height at or above the
    height of the block. *)
Theorem CountPoS_counts_stake_blocks_above :
  forall (p : pindex) (nHeightScan : Z),
    let scanned := take (Z.to_nat (nHeight p - Z.max 0 nHeightScan)) p in
    CountPoS p nHeightScan
    = Z.of_nat (length (List.filter IsProofOfStake scanned))
    /\ 0 <= CountPoS p nHeightScan <= Z.max 0 (nHeight p - Z.max 0 nHeightScan).
Proof.
  intros p h scanned. unfold CountPoS. rewrite CountPoS_loop_count.
  fold scanned. rewrite Z.add_0_l.
  assert (Hlen : (length scanned <= Z.to_nat (nHeight p - Z.max 0 h))%nat).
  { unfold scanned. rewrite length_take. lia. }
  pose proof (List.filter_length_le IsProofOfStake scanned) as Hf.
  split; [reflexivity | lia].
Qed.

(** ** The context map, entry by entry *)

Lemma matching_heights_length matches p :
  Z.of_nat (length (matching_heights matches p))
  = count_above_genesis matches p.
Proof.
  induction p as [| b prev IH]; [reflexivity |].
  cbn [matching_heights count_above_genesis].
  destruct prev as [| b' prev']; [reflexivity |].
  rewrite length_app. destruct (matches b); cbn [length]; lia.
Qed.

(** The loop leaves the entries up to [nIdx] alone and adds, under the keys
    that follow, the heights of the matching blocks in the order of the
    walk, up to the key [nContextScope + 1]. *)
Lemma GetContextLWMA_loop_lookup matches p nContextScope nIdx m i :
  (forall i', nIdx < i' -> m !! i' = None) ->
  GetContextLWMA_loop matches p nContextScope nIdx m !! i
  = if i <=? nIdx then m !! i
    else if i <=? nContextScope + 1
         then matching_heights matches p !! Z.to_nat (i - nIdx - 1)
         else None.
Proof.
  revert nIdx m. induction p as [| b prev IH]; intros nIdx m Hm.
  - cbn [GetContextLWMA_loop matching_heights].
    destruct (Z.leb_spec i nIdx); [reflexivity |].
    rewrite Hm by lia. destruct (i <=? nContextScope + 1); reflexivity.
  - cbn [GetContextLWMA_loop matching_heights].
    destruct prev as [| b' prev'].
    + destruct (Z.leb_spec i nIdx); [reflexivity |].
      rewrite Hm by lia. destruct (i <=? nContextScope + 1); reflexivity.
    + set (p' := b' :: prev') in *.
      destruct (Z.leb_spec nIdx nContextScope) as [Hin | Hout].
      * destruct (matches b).
        -- unfold map_insert. rewrite (Hm (nIdx + 1)) by lia.
           rewrite IH.
           2:{ intros i' Hi'. rewrite lookup_insert_ne by lia.
               apply Hm. lia. }
           destruct (Z.leb_spec i (nIdx + 1)) as [Hle | Hgt].
           ++ destruct (Z.leb_spec i nIdx) as [Hle' | Hgt'].
              ** rewrite lookup_insert_ne by lia. reflexivity.
              ** assert (i = nIdx + 1) as -> by lia.
                 rewrite lookup_insert_eq.
                 destruct (Z.leb_spec (nIdx + 1) (nContextScope + 1)); [| lia].
                 replace (Z.to_nat (nIdx + 1 - nIdx - 1)) with 0%nat by lia.
                 reflexivity.
           ++ destruct (Z.leb_spec i nIdx); [lia |].
              destruct (i <=? nContextScope + 1); [| reflexivity].
              replace (Z.to_nat (i - nIdx - 1))
                with (S (Z.to_nat (i - (nIdx + 1) - 1))) by lia.
              reflexivity.
        -- cbn [app]. apply IH. exact Hm.
      * destruct (Z.leb_spec i nIdx); [reflexivity |].
        rewrite Hm by lia.
        destruct (Z.leb_spec i (nContextScope + 1)); [lia | reflexivity].
Qed.

Lemma GetContextLWMA_lookup p nContextScope kind i :
  GetContextLWMA p nContextScope kind !! i
  = if (1 <=? i) && (i <=? nContextScope + 1)
    then matching_heights (of_kind kind) p !! Z.to_nat (i - 1)
    else None.
Proof.
  assert (Hgen : forall matches,
             GetContextLWMA_loop matches p nContextScope 0 ∅ !! i
             = if (1 <=? i) && (i <=? nContextScope + 1)
               then matching_heights matches p !! Z.to_nat (i - 1)
               else None).
  { intros matches. rewrite GetContextLWMA_loop_lookup
      by (intros; apply lookup_empty).
    destruct (Z.leb_spec i 0), (Z.leb_spec 1 i); try lia; cbn [andb].
    - apply lookup_empty.
    - replace (i - 0 - 1) with (i - 1) by lia. reflexivity. }
  unfold GetContextLWMA, of_kind. destruct kind; apply Hgen.
Qed.

Lemma GetContextLWMA_size p nContextScope kind :
  Z.of_nat (size (GetContextLWMA p nContextScope kind))
  = Z.min (count_above_genesis (of_kind kind) p) (Z.max 0 (nContextScope + 1)).
Proof.
  destruct (GetContextLWMA_dense p nContextScope kind) as [n [Hn [Hs Hk]]].
  rewrite Hs. pose proof (matching_heights_length (of_kind kind) p) as Hlen.
  set (c := count_above_genesis (of_kind kind) p) in *.
  assert (Hiff : forall i, 1 <= i <= n <->
                           1 <= i <= nContextScope + 1 /\ i <= c).
  { intros i. rewrite <- Hk, GetContextLWMA_lookup.
    destruct (Z.leb_spec 1 i), (Z.leb_spec i (nContextScope + 1));
      cbn [andb]; try (split; [intros [? ?]; discriminate | lia]).
    rewrite lookup_lt_is_Some. lia. }
  destruct (Z.le_gt_cases n 0) as [Hz | Hp].
  - assert (n = 0) as -> by lia.
    destruct (Z.le_gt_cases 1 (Z.min c (Z.max 0 (nContextScope + 1))))
      as [Hge | Hlt]; [| lia].
    pose proof (proj2 (Hiff 1) ltac:(lia)). lia.
  - pose proof (proj1 (Hiff n) ltac:(lia)) as [? ?].
    destruct (Z.le_gt_cases (n + 1) (Z.min c (Z.max 0 (nContextScope + 1))))
      as [Hge | Hlt]; [| lia].
    pose proof (proj2 (Hiff (n + 1)) ltac:(lia)). lia.
Qed.

(** X3: the map built by [GetContextLWMA] holds the most recent blocks of
    the requested kind above the genesis block, numbered from 1 in the order
    of the walk, and at most [nContextScope + 1] of them (one more than the
    scope, since the index is compared before it is incremented): its size is
    the smaller of the number of such blocks and [nContextScope + 1], its
    keys are the indexes from 1 to its size, and the index [i] is mapped to
    the height of the [i]-th block of the kind met by the walk. *)
Theorem GetContextLWMA_entries :
  forall (p : pindex) (nContextScope : Z) (fProofOfStake : bool),
    let mapRet := GetContextLWMA p nContextScope fProofOfStake in
    let heights := matching_heights (of_kind fProofOfStake) p in
    Z.of_nat (size mapRet)
    = Z.min (count_above_genesis (of_kind fProofOfStake) p)
            (Z.max 0 (nContextScope + 1))
    /\ (forall i, is_Some (mapRet !! i) <-> 1 <= i <= Z.of_nat (size mapRet))
    /\ (forall i, 1 <= i <= Z.of_nat (size mapRet) ->
                  mapRet !! i = heights !! Z.to_nat (i - 1)).
Proof.
  intros p scope kind mapRet heights.
  pose proof (GetContextLWMA_size p scope kind) as Hsize. fold mapRet in Hsize.
  destruct (GetContextLWMA_dense p scope kind) as [n [Hn [Hs Hk]]].
  fold mapRet in Hs, Hk.
  split; [exact Hsize |]. split.
  - intros i. rewrite Hs. apply Hk.
  - intros i Hi. unfold mapRet. rewrite GetContextLWMA_lookup.
    destruct (Z.leb_spec 1 i), (Z.leb_spec i (scope + 1)); cbn [andb];
      try reflexivity; lia.
Qed.

Lemma matching_heights_lookup matches p (n : nat) h :
  matching_heights matches p !! n = Some h ->
  exists pre b rest,
    p = pre ++ b :: rest /\ rest <> [] /\ matches b = true
    /\ length (List.filter matches pre) = n /\ h = nHeight (b :: rest).
Proof.
  revert n. induction p as [| b0 prev IH]; intros n Hl; [discriminate |].
  cbn [matching_heights] in Hl. destruct prev as [| b1 prev'];
    [discriminate |].
  set (p' := b1 :: prev') in *.
  assert (Hrec : forall n', matching_heights matches p' !! n' = Some h ->
            exists pre b rest,
              b0 :: p' = (b0 :: pre) ++ b :: rest /\ rest <> []
              /\ matches b = true
              /\ length (List.filter matches pre) = n'
              /\ h = nHeight (b :: rest)).
  { intros n' Hn'. destruct (IH n' Hn') as [pre [b [rest [Hp H]]]].
    exists pre, b, rest. split; [cbn [app]; f_equal; exact Hp | exact H]. }
  destruct (matches b0) eqn:Em.
  - destruct n as [| n'].
    + injection Hl as <-. exists [], b0, p'.
      repeat split; auto; subst p'; discriminate.
    + destruct (Hrec n' Hl) as [pre [b [rest [Hp [Hr [Hb [Hc Hh]]]]]]].
      exists (b0 :: pre), b, rest. repeat split; auto.
      cbn [List.filter]. rewrite Em. cbn [length]. lia.
  - destruct (Hrec n Hl) as [pre [b [rest [Hp [Hr [Hb [Hc Hh]]]]]]].
    exists (b0 :: pre), b, rest. repeat split; auto.
    cbn [List.filter]. rewrite Em. exact Hc.
Qed.

Lemma GetAncestor_suffix (pre s : pindex) :
  s <> [] -> GetAncestor (pre ++ s) (nHeight s) = s.
Proof.
  intros Hs. unfold GetAncestor, nHeight. rewrite length_app.
  assert (0 < Z.of_nat (length s)) by (destruct s; [contradiction | cbn; lia]).
  destruct (Z.gtb_spec (Z.of_nat (length s) - 1)
              (Z.of_nat (length pre + length s) - 1)); [lia |].
  destruct (Z.ltb_spec (Z.of_nat (length s) - 1) 0); [lia |].
  cbn [orb].
  replace (Z.to_nat (Z.of_nat (length pre + length s) - 1
                     - (Z.of_nat (length s) - 1)))
    with (length pre) by lia.
  apply drop_app_length.
Qed.

Lemma of_kind_spec kind b : of_kind kind b = true <-> IsProofOfStake b = kind.
Proof.
  unfold of_kind, IsProofOfWork. destruct kind, (IsProofOfStake b);
    cbn; split; congruence.
Qed.

(** X4: every entry of the context map resolves through [GetAncestor]: when
    the map of a block sends the index [i] to the height [h], the ancestor
    of the block at height [h] is not null, is not the genesis block, is of
    the requested kind, and is the [i]-th block of that kind met on the way
    from the block to the genesis block ([i - 1] blocks of the kind come
    before it). *)
Theorem GetContextLWMA_entry_resolves :
  forall (p : pindex) (nContextScope : Z) (fProofOfStake : bool) (i h : Z),
    GetContextLWMA p nContextScope fProofOfStake !! i = Some h ->
    exists pre b rest,
      p = pre ++ b :: rest
      /\ rest <> []
      /\ IsProofOfStake b = fProofOfStake
      /\ Z.of_nat (length (List.filter (of_kind fProofOfStake) pre)) = i - 1
      /\ h = nHeight (b :: rest)
      /\ 1 <= h <= nHeight p
      /\ GetAncestor p h = b :: rest.
Proof.
  intros p scope kind i h Hl. rewrite GetContextLWMA_lookup in Hl.
  destruct (Z.leb_spec 1 i); cbn [andb] in Hl; [| discriminate].
  destruct (i <=? scope + 1); [| discriminate].
  destruct (matching_heights_lookup _ _ _ _ Hl)
    as [pre [b [rest [Hp [Hr [Hb [Hc Hh]]]]]]].
  exists pre, b, rest. split; [exact Hp |]. split; [exact Hr |].
  split; [apply of_kind_spec; exact Hb |]. split; [lia |].
  split; [exact Hh |]. split.
  - subst p h. unfold nHeight. rewrite length_app. cbn [length].
    destruct rest; [contradiction |]. cbn [length]. lia.
  - subst p h. apply GetAncestor_suffix. discriminate.
Qed.

Lemma GetContextLWMA_entry_resolves_witness :
  exists pre b rest,
    Examples.hybrid_chain = pre ++ b :: rest
    /\ rest <> []
    /\ IsProofOfStake b = true
    /\ Z.of_nat (length (List.filter (of_kind true) pre)) = 3 - 1
    /\ 3 = nHeight (b :: rest)
    /\ 1 <= 3 <= nHeight Examples.hybrid_chain
    /\ GetAncestor Examples.hybrid_chain 3 = b :: rest.
Proof.
  apply (GetContextLWMA_entry_resolves Examples.hybrid_chain 6 true 3 3).
  vm_compute. reflexivity.
Defined.

(** ** When the LWMA rule returns a value *)

Lemma GetLastBlockIndex_nonnull p kind :
  p <> [] -> GetLastBlockIndex p kind <> [].
Proof.
  intros Hp. destruct (GetLastBlockIndex_split p kind Hp)
    as [skipped [b [rest [_ [-> _]]]]].
  discriminate.
Qed.

Lemma GetContextLWMA_deref p nContextScope kind i :
  1 <= i <= Z.of_nat (size (GetContextLWMA p nContextScope kind)) ->
  exists h b,
    map_at (GetContextLWMA p nContextScope kind) i = Ok h
    /\ deref (GetAncestor p h) = Ok b
    /\ IsProofOfStake b = kind.
Proof.
  intros Hi.
  destruct (GetContextLWMA_dense p nContextScope kind) as [n [Hn [Hs Hk]]].
  destruct (proj2 (Hk i) ltac:(lia)) as [h Hh].
  pose proof Hh as Hl. rewrite GetContextLWMA_lookup in Hl.
  destruct ((1 <=? i) && (i <=? nContextScope + 1)); [| discriminate].
  destruct (matching_heights_lookup _ _ _ _ Hl)
    as [pre [b [rest [Hp [Hr [Hb [Hc Hheight]]]]]]].
  exists h, b. unfold map_at. rewrite Hh. split; [reflexivity |].
  subst p h. rewrite GetAncestor_suffix by discriminate.
  split; [reflexivity | apply of_kind_spec; exact Hb].
Qed.

Lemma window_blocks_resolves p nContextScope kind (n : nat) i :
  Z.of_nat n <= i ->
  i <= Z.of_nat (size (GetContextLWMA p nContextScope kind)) ->
  exists blocks,
    window_blocks p (GetContextLWMA p nContextScope kind) n i = Ok blocks
    /\ Forall (fun b => IsProofOfStake b = kind) blocks.
Proof.
  revert i. induction n as [| n IH]; intros i Hn Hi.
  - exists []. split; [reflexivity | constructor].
  - cbn [window_blocks].
    destruct (GetContextLWMA_deref p nContextScope kind i ltac:(lia))
      as [h [b [-> [Hb Hk]]]].
    cbn [rbind]. rewrite Hb. cbn [rbind].
    destruct (IH (i - 1) ltac:(lia) ltac:(lia)) as [rest [-> Hrest]].
    cbn [rbind]. exists (b :: rest). split; [reflexivity |].
    constructor; assumption.
Qed.

Lemma lwma_window_resolves p params kind :
  let N := Consensus.lwmaAveragingWindow params in
  0 <= N ->
  N + 1 <= Z.of_nat (size (GetContextLWMA p (N + 1) kind)) ->
  exists previous blocks,
    lwma_window p params kind = Ok (previous, blocks)
    /\ length blocks = Z.to_nat N
    /\ Forall (fun b => IsProofOfStake b = kind) blocks.
Proof.
  intros N HN Hsize. unfold lwma_window. cbv zeta. fold N.
  destruct (GetContextLWMA_deref p (N + 1) kind (N + 1) ltac:(lia))
    as [h [b [-> [Hb _]]]].
  cbn [rbind]. rewrite Hb. cbn [rbind].
  destruct (window_blocks_resolves p (N + 1) kind (Z.to_nat N) N
              ltac:(lia) ltac:(lia)) as [blocks [Hw Hall]].
  rewrite Hw. cbn [rbind]. exists (GetBlockTime b), blocks.
  split; [reflexivity |]. split; [| exact Hall].
  eapply window_blocks_length. exact Hw.
Qed.

Lemma lwma_divisors_nonzero N T :
  1 <= N -> 0 < T -> N * (N + 1) * T < 2 ^ 63 ->
  to_uint64 N <> 0 /\ to_uint64 (Z.quot (N * (N + 1) * T) 2) <> 0.
Proof.
  intros HN HT Hk.
  assert (2 <= N * (N + 1) * T) by nia.
  assert (N < 2 ^ 63) by nia.
  pose proof (Z.quot_pos (N * (N + 1) * T) 2 ltac:(lia) ltac:(lia)).
  assert (1 <= Z.quot (N * (N + 1) * T) 2 < 2 ^ 63).
  { rewrite Z.quot_div_nonneg by lia.
    split; [apply Z.div_le_lower_bound; lia
           | apply Z.div_lt_upper_bound; lia]. }
  rewrite !to_uint64_small by lia. lia.
Qed.

Lemma lwma_pos_activation_returns p params kind :
  let T := Consensus.nPowTargetSpacing params in
  p <> [] -> 0 < T < 2 ^ 63 ->
  exists bits, lwma_pos_activation p params kind = Ok bits.
Proof.
  intros T Hp HT. unfold lwma_pos_activation. cbv zeta. fold T.
  pose proof (GetLastBlockIndex_nonnull p kind Hp) as H1.
  destruct (GetLastBlockIndex p kind) as [| bPrev prev]; [contradiction |].
  cbn [deref rbind pprev tail].
  destruct prev as [| b' prev']; [eauto |].
  pose proof (GetLastBlockIndex_nonnull (b' :: prev') kind ltac:(discriminate))
    as H2.
  destruct (GetLastBlockIndex (b' :: prev') kind) as [| bPrevPrev prev2];
    [contradiction |].
  cbn [deref rbind pprev tail].
  destruct prev2; [eauto |].
  destruct p as [| bLast rest]; [contradiction |]. cbn [deref rbind].
  destruct (Z.eqb_spec T 0); [lia |]. cbn [rbind].
  rewrite Z.quot_same by lia.
  rewrite div_u64_nonzero by (rewrite to_uint64_small; lia).
  cbn [rbind]. eauto.
Qed.

Lemma count_of_kind_true p :
  count_above_genesis (of_kind true) p
  = count_above_genesis IsProofOfStake p.
Proof.
  induction p as [| b prev IH]; [reflexivity |].
  cbn [count_above_genesis of_kind]. destruct prev; [reflexivity |].
  rewrite IH. reflexivity.
Qed.

Lemma count_of_kind_false p :
  count_above_genesis (of_kind false) p
  = count_above_genesis IsProofOfWork p.
Proof.
  induction p as [| b prev IH]; [reflexivity |].
  cbn [count_above_genesis of_kind]. destruct prev; [reflexivity |].
  rewrite IH. reflexivity.
Qed.

(** With retargeting enabled, sane parameters and a block to start from,
    the rule returns a value except for a proof-of-work call above the
    bootstrap height on a chain with too few proof-of-work blocks. *)
Lemma Lwma3_returns p params kind :
  let T := Consensus.nPowTargetSpacing params in
  let N := Consensus.lwmaAveragingWindow params in
  p <> [] ->
  Consensus.fPowNoRetargeting params = false ->
  Consensus.fPoSNoRetargeting params = false ->
  0 < T < 2 ^ 63 -> 0 <= N -> N * (N + 1) * T < 2 ^ 63 ->
  kind = true \/ nHeight p < N + 1
  \/ N + 1 <= count_above_genesis IsProofOfWork p ->
  exists bits, Lwma3CalculateNextWorkRequired p params kind = Ok bits.
Proof.
  intros T N Hp Hpow Hpos HT HN Hk Hcase.
  assert (HN64 : N + 1 < 2 ^ 64) by nia.
  assert (Hmain : N + 1 <= nHeight p ->
                  N + 1 <= Z.of_nat (size (GetContextLWMA p (N + 1) kind)) ->
                  exists bits,
                    Lwma3CalculateNextWorkRequired p params kind = Ok bits).
  { intros Hh Hsize.
    destruct (lwma_window_resolves p params kind HN Hsize)
      as [previous [blocks [Hw [Hlen _]]]].
    eexists. apply (Lwma3_main_path p params kind previous blocks);
      try assumption.
    destruct (Z.eq_dec N 0) as [HN0 | HN0].
    - left. fold N in Hlen. rewrite HN0 in Hlen.
      destruct blocks; [reflexivity | discriminate].
    - right. apply lwma_divisors_nonzero; lia. }
  destruct (Z.lt_ge_cases (nHeight p) (N + 1)) as [Hlow | Hhigh].
  { unfold Lwma3CalculateNextWorkRequired. rewrite Hpow, Hpos. cbn [orb].
    destruct p as [| b0 rest0] eqn:Ep; [contradiction |].
    cbn [deref rbind]. rewrite <- Ep in *. fold N.
    destruct (Z.ltb_spec (nHeight p) (N + 1)); [eauto | lia]. }
  pose proof (GetContextLWMA_size p (N + 1) kind) as Hsize.
  destruct kind.
  - destruct (Z.lt_ge_cases
                (Z.of_nat (size (GetContextLWMA p (N + 1) true))) (N + 1))
      as [Hshort | Hlong]; [| apply Hmain; assumption].
    unfold Lwma3CalculateNextWorkRequired. rewrite Hpow, Hpos. cbn [orb].
    destruct p as [| b0 rest0] eqn:Ep; [contradiction |].
    cbn [deref rbind]. rewrite <- Ep in *. fold N.
    destruct (Z.ltb_spec (nHeight p) (N + 1)); [lia |].
    rewrite (to_uint64_small (N + 1)) by lia. cbn [andb].
    destruct (Z.ltb_spec (Z.of_nat (size (GetContextLWMA p (N + 1) true)))
                (N + 1)); [| lia].
    pose proof (CountPoS_loop_le p 0 0) as Hc. fold (CountPoS p 0) in Hc.
    rewrite count_of_kind_true in Hsize.
    destruct (Z.leb_spec (CountPoS p 0) (N + 1)); [| lia].
    cbn [andb]. apply lwma_pos_activation_returns; [congruence | assumption].
  - destruct Hcase as [Hc | [Hc | Hc]]; [discriminate | lia |].
    rewrite count_of_kind_false in Hsize.
    apply Hmain; [assumption | lia].
Qed.

(** X5: with retargeting enabled, a target spacing and an averaging window
    for which the constant [k] fits a 64-bit integer, and a block to start
    from, [Lwma3CalculateNextWorkRequired] returns a value in every case but
    one: a proof-of-work call at a height of [N + 1] or more on a chain that
    holds fewer than [N + 1] proof-of-work blocks above its genesis block,
    which ends in the exception of [mapContext.at].  A proof-of-stake call
    always returns a value. *)
Theorem Lwma3_returns_iff :
  forall (pindexLast : pindex) (params : Consensus.Params)
         (fProofOfStake : bool),
    let T := Consensus.nPowTargetSpacing params in
    let N := Consensus.lwmaAveragingWindow params in
    pindexLast <> [] ->
    Consensus.fPowNoRetargeting params = false ->
    Consensus.fPoSNoRetargeting params = false ->
    0 < T < 2 ^ 63 -> 0 <= N -> N * (N + 1) * T < 2 ^ 63 ->
    ((exists bits,
         Lwma3CalculateNextWorkRequired pindexLast params fProofOfStake
         = Ok bits)
     <-> fProofOfStake = true \/ nHeight pindexLast < N + 1
         \/ N + 1 <= count_above_genesis IsProofOfWork pindexLast)
    /\ (fProofOfStake = false -> N + 1 <= nHeight pindexLast ->
        count_above_genesis IsProofOfWork pindexLast < N + 1 ->
        Lwma3CalculateNextWorkRequired pindexLast params fProofOfStake
        = Fail out_of_range).
Proof.
  intros p params kind T N Hp Hpow Hpos HT HN Hk.
  assert (Hfail : kind = false -> N + 1 <= nHeight p ->
                  count_above_genesis IsProofOfWork p < N + 1 ->
                  Lwma3CalculateNextWorkRequired p params kind
                  = Fail out_of_range).
  { intros -> Hh Hc. apply Lwma3_pow_short_window; assumption. }
  split; [| exact Hfail]. split.
  - intros [bits Hbits]. destruct kind; [left; reflexivity | right].
    destruct (Z.lt_ge_cases (nHeight p) (N + 1)); [left; assumption | right].
    destruct (Z.lt_ge_cases (count_above_genesis IsProofOfWork p) (N + 1));
      [| assumption].
    rewrite Hfail in Hbits by auto. discriminate.
  - apply Lwma3_returns; assumption.
Qed.

Lemma Lwma3_returns_iff_witness :
  (exists bits,
      Lwma3CalculateNextWorkRequired Examples.hybrid_chain Examples.params true
      = Ok bits)
  <-> true = true \/ nHeight Examples.hybrid_chain < 5 + 1
      \/ 5 + 1 <= count_above_genesis IsProofOfWork Examples.hybrid_chain.
Proof.
  apply (Lwma3_returns_iff Examples.hybrid_chain Examples.params true);
    vm_compute; try reflexivity; try discriminate; split; reflexivity.
Defined.

(** ** Returned bits and the limit *)

Lemma rbind_Ok_inv {A B : Type} (r : result A) (k : A -> result B) (b : B) :
  rbind r k = Ok b -> exists a, r = Ok a /\ k a = Ok b.
Proof.
  destruct r as [a | f]; cbn [rbind]; [eauto | discriminate].
Qed.

(** The encoding of a positive 256-bit value decodes without the sign and
    without the overflow flag, to a positive value. *)
Lemma GetCompact_flags x :
  0 < x < 2 ^ 256 ->
  arith_uint256.negative (arith_uint256.GetCompact x) = false
  /\ arith_uint256.overflow (arith_uint256.GetCompact x) = false
  /\ 0 < arith_uint256.decode (arith_uint256.GetCompact x) <= x.
Proof.
  intros Hx.
  pose proof (decode_GetCompact x Hx) as Hdec.
  pose proof (decode_GetCompact_le x ltac:(lia)) as Hle.
  destruct (GetCompact_positive x ltac:(lia)) as [HG [Hm Hs]].
  pose proof (compact_size_bounds x ltac:(lia)) as Hsb. cbv zeta in Hsb.
  destruct (bits_positive x ltac:(lia)) as [Hb1 Hbx].
  set (s := compact_size x) in *. set (m := compact_mantissa x) in *.
  set (b := arith_uint256.bits x) in *.
  assert (Hb256 : b <= 256).
  { destruct (Z.le_gt_cases b 256) as [| Hgt]; [assumption |].
    assert (2 ^ 256 <= 2 ^ (b - 1)) by (apply Z.pow_le_mono_r; lia). lia. }
  assert (Hsize : Z.shiftr (m + s * 2 ^ 24) 24 = s).
  { rewrite Z.shiftr_div_pow2 by lia.
    symmetry. apply (Z.div_unique _ _ s m); lia. }
  assert (Hword : Z.land (m + s * 2 ^ 24) 0x007fffff = m).
  { change 0x007fffff with (Z.ones 23). rewrite Z.land_ones by lia.
    symmetry. apply (Z.mod_unique _ _ (2 * s) m); lia. }
  assert (Hsign : Z.land (m + s * 2 ^ 24) 0x00800000 = 0).
  { rewrite land_bit23, Z.testbit_odd, Z.shiftr_div_pow2 by lia.
    assert ((m + s * 2 ^ 24) / 2 ^ 23 = 2 * s) as ->.
    { symmetry. apply (Z.div_unique _ _ (2 * s) m); lia. }
    rewrite Z.odd_mul. reflexivity. }
  assert (Hpos : 0 < arith_uint256.decode (arith_uint256.GetCompact x)).
  { rewrite Hdec. fold s. destruct (Z.leb_spec s 3); [lia |].
    pose proof (pow2_pos (8 * (s - 3)) ltac:(lia)) as He.
    assert (2 ^ (8 * (s - 3)) <= 2 ^ (b - 1))
      by (apply Z.pow_le_mono_r; lia).
    assert (1 <= x / 2 ^ (8 * (s - 3)))
      by (apply Z.div_le_lower_bound; lia).
    nia. }
  split; [| split; [| lia]].
  - unfold arith_uint256.negative, arith_uint256.SetCompact. cbn [fst snd].
    rewrite HG, Hsign. cbn [Z.eqb negb]. apply andb_false_r.
  - unfold arith_uint256.overflow, arith_uint256.SetCompact. cbn [fst snd].
    rewrite HG, Hsize, Hword.
    assert (Hs33 : s <= 33).
    { unfold s, compact_size. fold b.
      assert (b / 8 <= 32) by (apply Z.div_le_upper_bound; lia). lia. }
    destruct (Z.gtb_spec s 34); [lia |].
    destruct (Z.gtb_spec s 33); [lia |].
    rewrite andb_false_r. cbn [orb].
    destruct (Z.gtb_spec s 32) as [H33 |]; [| rewrite andb_false_r;
                                                apply andb_false_r].
    assert (s = 33) as Es by lia.
    destruct (Z.leb_spec s 3); [lia |].
    assert (m < 2 ^ 16).
    { unfold m, compact_mantissa, scale_to_size. fold s. rewrite Es.
      destruct (Z.leb_spec 33 3); [lia |].
      apply Z.div_lt_upper_bound; [apply pow2_pos; lia |].
      rewrite <- pow2_add by lia. change (8 * (33 - 3) + 16) with 256. lia. }
    destruct (Z.gtb_spec m 0xffff); [lia |]. cbn [andb].
    apply andb_false_r.
Qed.

(** X6: with retargeting enabled and a limit that is a 256-bit value, the
    bits that [Lwma3CalculateNextWorkRequired] returns never stand for a
    target above the limit of the proof kind: on each of its paths (the
    bootstrap, the rule of the first proof-of-stake blocks and the weighted
    average) the decoded target is between zero and the limit, and the bits
    are at most the bits of the limit. *)
Theorem Lwma3_within_limit :
  forall (pindexLast : pindex) (params : Consensus.Params)
         (fProofOfStake : bool) (bits : Z),
    let ProofLimit :=
      UintToArith256 (if fProofOfStake then Consensus.posLimit params
                      else Consensus.powLimit params) in
    Consensus.fPowNoRetargeting params = false ->
    Consensus.fPoSNoRetargeting params = false ->
    0 <= ProofLimit < 2 ^ 256 ->
    Lwma3CalculateNextWorkRequired pindexLast params fProofOfStake = Ok bits ->
    0 <= arith_uint256.decode bits <= ProofLimit
    /\ 0 <= bits <= arith_uint256.GetCompact ProofLimit.
Proof.
  intros p params kind bits L Hpow Hpos HL Hr.
  assert (Hkey : forall x, 0 <= x <= L ->
            bits = arith_uint256.GetCompact x ->
            0 <= arith_uint256.decode bits <= L
            /\ 0 <= bits <= arith_uint256.GetCompact L).
  { intros x Hx ->. pose proof (decode_GetCompact_le x ltac:(lia)).
    pose proof (GetCompact_nonneg x ltac:(lia)).
    pose proof (GetCompact_mono x L ltac:(lia)). lia. }
  unfold Lwma3CalculateNextWorkRequired in Hr. rewrite Hpow, Hpos in Hr.
  cbn [orb] in Hr. fold L in Hr.
  destruct p as [| bLast rest] eqn:Ep; [discriminate |].
  cbn [deref rbind] in Hr. rewrite <- Ep in *.
  destruct (nHeight p <? Consensus.lwmaAveragingWindow params + 1).
  { injection Hr as <-. apply (Hkey L); [lia | reflexivity]. }
  match type of Hr with
  | (if ?c then _ else _) = _ => destruct c
  end.
  - unfold lwma_pos_activation in Hr. cbv zeta in Hr. fold L in Hr.
    apply rbind_Ok_inv in Hr as [bPrev [_ Hr]].
    destruct (pprev (GetLastBlockIndex p kind)).
    { injection Hr as <-. apply (Hkey L); [lia | reflexivity]. }
    apply rbind_Ok_inv in Hr as [bPrevPrev [_ Hr]].
    destruct (pprev (GetLastBlockIndex _ kind)).
    { injection Hr as <-. apply (Hkey L); [lia | reflexivity]. }
    apply rbind_Ok_inv in Hr as [bL [_ Hr]].
    apply rbind_Ok_inv in Hr as [nInterval [_ Hr]].
    apply rbind_Ok_inv in Hr as [bnNew [_ Hr]].
    injection Hr as <-.
    destruct (Z.leb_spec bnNew 0); cbn [orb];
      [apply (Hkey L); [lia | reflexivity] |].
    destruct (Z.gtb_spec bnNew L);
      [apply (Hkey L); [lia | reflexivity] |].
    apply (Hkey bnNew); [lia | reflexivity].
  - unfold lwma_main in Hr. fold L in Hr.
    apply rbind_Ok_inv in Hr as [h [_ Hr]].
    apply rbind_Ok_inv in Hr as [b0 [_ Hr]].
    apply rbind_Ok_inv in Hr as [st [_ Hr]].
    cbv zeta in Hr. injection Hr as <-.
    match goal with
    | |- context [arith_uint256.mul_u32 ?a ?b] =>
        pose proof (Z.mod_pos_bound (a * to_uint32 b) (2 ^ 256) ltac:(lia))
          as Hw;
        change ((a * to_uint32 b) mod 2 ^ 256)
          with (arith_uint256.mul_u32 a b) in Hw;
        set (next := arith_uint256.mul_u32 a b) in *
    end.
    destruct (Z.gtb_spec next L).
    + apply (Hkey L); [lia | reflexivity].
    + apply (Hkey next); [lia | reflexivity].
Qed.

Lemma Lwma3_within_limit_witness :
  0 <= arith_uint256.decode 0x1c0fffff <= 2 ^ 224 - 1
  /\ 0 <= 0x1c0fffff <= arith_uint256.GetCompact (2 ^ 224 - 1).
Proof.
  apply (Lwma3_within_limit Examples.hybrid_chain Examples.params true
           0x1c0fffff);
    vm_compute; first [reflexivity | split; [discriminate | reflexivity]].
Defined.

(** X7: the bits returned by the legacy EMA always pass the range check of
    [CheckProofOfWork].  With retargeting enabled for the proof kind and a
    limit of the height that is positive and not above [powLimit], the
    returned bits decode to a positive target at most the limit, without the
    sign and without an overflow; hence [CheckProofOfWork] accepts a hash
    under these bits exactly when the hash is at most the decoded target. *)
Theorem CalculateNextWorkRequired_passes_range_check :
  forall (pindexLast : pindex) (nFirstBlockTime : Z)
         (params : Consensus.Params) (fProofOfStake : bool) (bits : Z),
    let limit := GetLimit (nHeight pindexLast + 1) params fProofOfStake in
    (if fProofOfStake then Consensus.fPoSNoRetargeting params
     else Consensus.fPowNoRetargeting params) = false ->
    0 < limit < 2 ^ 256 ->
    limit <= UintToArith256 (Consensus.powLimit params) ->
    CalculateNextWorkRequired pindexLast nFirstBlockTime params fProofOfStake
    = Ok bits ->
    0 < arith_uint256.decode bits <= limit
    /\ arith_uint256.negative bits = false
    /\ arith_uint256.overflow bits = false
    /\ forall hash kind,
         CheckProofOfWork hash bits params kind = true
         <-> UintToArith256 hash <= arith_uint256.decode bits.
Proof.
  intros p first params kind bits limit Hflag Hlimit Hpow Hr.
  assert (Hx : exists x, 0 < x <= limit /\ bits = arith_uint256.GetCompact x).
  { unfold CalculateNextWorkRequired in Hr.
    apply rbind_Ok_inv in Hr as [bLast [_ Hr]].
    assert (He : ema_retarget p first params kind bLast = Ok bits).
    { destruct kind; rewrite Hflag in Hr; exact Hr. }
    clear Hr. unfold ema_retarget in He. cbv zeta in He. fold limit in He.
    apply rbind_Ok_inv in He as [nInterval [_ He]].
    apply rbind_Ok_inv in He as [bnNew [_ He]].
    injection He as <-.
    destruct (Z.leb_spec bnNew 0); cbn [orb]; [exists limit; lia |].
    destruct (Z.gtb_spec bnNew limit); [exists limit; lia |].
    exists bnNew. lia. }
  destruct Hx as [x [Hx ->]].
  destruct (GetCompact_flags x ltac:(lia)) as [Hn [Ho Hd]].
  split; [lia |]. split; [exact Hn |]. split; [exact Ho |].
  intros hash kind'. rewrite CheckProofOfWork_true.
  unfold target_in_range. rewrite Hn, Ho. intuition lia.
Qed.

Lemma CalculateNextWorkRequired_passes_range_check_witness :
  0 < arith_uint256.decode 0x1c0cf3ce <= 2 ^ 224 - 1
  /\ arith_uint256.negative 0x1c0cf3ce = false
  /\ arith_uint256.overflow 0x1c0cf3ce = false
  /\ forall hash kind,
       CheckProofOfWork hash 0x1c0cf3ce Examples.params kind = true
       <-> UintToArith256 hash <= arith_uint256.decode 0x1c0cf3ce.
Proof.
  apply (CalculateNextWorkRequired_passes_range_check
           Examples.pow_chain 850 Examples.params false 0x1c0cf3ce);
    vm_compute; first [reflexivity | discriminate
                      | split; [reflexivity | reflexivity]].
Defined.

(** ** The series of [mul_exp] *)

Lemma mul_exp_step_invariant abs_p q a n :
  mul_exp_invariant a n -> 0 < a -> to_uint64 q <> 0 ->
  exists a',
    mul_exp_step abs_p q a n = Ok (a', n + 1)
    /\ a' = arith_uint256.mul_u32 a abs_p / to_uint64 q / (n + 1)
    /\ mul_exp_invariant a' (n + 1).
Proof.
  intros [Ha [Hn Hdec]] Hpos Hq. unfold mul_exp_step. cbv zeta.
  assert (Hn1 : to_uint64 (n + 1) = n + 1)
    by (apply to_uint64_small; lia).
  rewrite Hn1, (div_u64_nonzero _ q Hq). cbn [rbind].
  rewrite div_u64_nonzero by (rewrite Hn1; lia). cbn [rbind]. rewrite Hn1.
  eexists. split; [reflexivity |]. split; [reflexivity |].
  unfold arith_uint256.mul_u32, arith_uint256.wrap, arith_uint256.modulus,
    to_uint32.
  pose proof (Z.mod_pos_bound q (2 ^ 64) ltac:(lia)) as Bq.
  unfold to_uint64 in Hq.
  pose proof (Z.mod_pos_bound abs_p (2 ^ 32) ltac:(lia)) as Bp.
  pose proof (Z.mod_pos_bound (a * (abs_p mod 2 ^ 32)) (2 ^ 256) ltac:(lia))
    as Bw.
  unfold to_uint64.
  set (w := (a * (abs_p mod 2 ^ 32)) mod 2 ^ 256) in *.
  set (q64 := q mod 2 ^ 64) in *. set (p32 := abs_p mod 2 ^ 32) in *.
  assert (Hw : w <= a * p32) by (unfold w; apply Z.mod_le; nia).
  assert (Hw1 : 0 <= w / q64 <= w).
  { split; [apply Z.div_pos; lia |]. apply Z.div_le_upper_bound; nia. }
  assert (Ha' : 0 <= w / q64 / (n + 1) <= w / q64).
  { split; [apply Z.div_pos; lia |]. apply Z.div_le_upper_bound; nia. }
  assert (Hlast : n = 2 ^ 33 + 256 -> False).
  { intros ->. specialize (Hdec ltac:(lia)).
    replace (256 - (2 ^ 33 + 256 - 2 ^ 33)) with 0 in Hdec by lia.
    change (2 ^ 0) with 1 in Hdec. lia. }
  split; [lia |]. split; [lia |].
  intros Hge.
  destruct (Z.eq_dec (n + 1) (2 ^ 33)) as [E | E].
  { replace (256 - (n + 1 - 2 ^ 33)) with 256 by lia. lia. }
  specialize (Hdec ltac:(lia)).
  set (e := 256 - (n + 1 - 2 ^ 33)).
  replace (256 - (n - 2 ^ 33)) with (e + 1) in Hdec by (unfold e; lia).
  assert (0 <= e) by (unfold e; lia).
  rewrite Z.pow_add_r in Hdec by lia. change (2 ^ 1) with 2 in Hdec.
  assert (w / q64 / (n + 1) * 2 <= a); [| lia].
  assert (w / q64 / (n + 1) * (n + 1) <= w / q64)
    by (rewrite Z.mul_comm; apply Z.mul_div_le; lia).
  assert (a * p32 < a * 2 ^ 32) by nia.
  nia.
Qed.

Lemma mul_exp_loop_returns isNegative abs_p q a n res :
  mul_exp_invariant a n -> to_uint64 q <> 0 ->
  exists r, mul_exp_loop isNegative abs_p q a n res = Ok r.
Proof.
  revert isNegative abs_p q a n res.
  apply (mul_exp_loop_elim
           (fun isNegative abs_p q a n res r =>
              mul_exp_invariant a n -> to_uint64 q <> 0 ->
              exists v, r = Ok v)).
  - intros neg abs_p q a Hn n res _ _ _. eauto.
  - intros isNegative abs_p q a Hpos n a' n' Heq res IH _ _ Hinv Hq.
    destruct (mul_exp_step_invariant abs_p q a n Hinv ltac:(lia) Hq)
      as [a1 [Hstep [_ Hinv']]].
    rewrite Hstep in Heq. injection Heq as <- <-.
    apply IH; assumption.
  - intros isNegative abs_p q a Hpos n f Heq res _ _ Hinv Hq.
    destruct (mul_exp_step_invariant abs_p q a n Hinv ltac:(lia) Hq)
      as [a1 [Hstep _]].
    rewrite Hstep in Heq. discriminate.
Qed.

Lemma mul_exp_invariant_start a :
  0 <= a < 2 ^ 256 -> mul_exp_invariant a 0.
Proof.
  intros Ha. split; [exact Ha |]. split; [lia |].
  intros H. exfalso. clear Ha. lia.
Qed.

Lemma mul_exp_loop_zero isNegative abs_p q a n res :
  a <= 0 -> mul_exp_loop isNegative abs_p q a n res = Ok res.
Proof.
  intros Ha. rewrite mul_exp_loop_equation_1.
  destruct (Z_gt_dec a 0) as [Hpos | Hnp]; [lia | reflexivity].
Qed.

Lemma mul_exp_loop_zero_divisor isNegative abs_p q a n res :
  0 < a -> to_uint64 q = 0 ->
  mul_exp_loop isNegative abs_p q a n res = Fail uint_error.
Proof.
  revert isNegative abs_p q a n res.
  apply (mul_exp_loop_elim
           (fun isNegative abs_p q a n res r =>
              0 < a -> to_uint64 q = 0 -> r = Fail uint_error)).
  - intros neg abs_p0 q0 a0 Hn n0 res0 _ Ha _. lia.
  - intros neg abs_p0 q0 a0 Hpos n0 a' n' Heq res0 _ _ _ _ Hq.
    unfold mul_exp_step, arith_uint256.div_u64 in Heq. rewrite Hq in Heq.
    cbn in Heq. discriminate.
  - intros neg abs_p0 q0 a0 Hpos n0 f Heq res0 _ _ _ Hq.
    unfold mul_exp_step, arith_uint256.div_u64 in Heq. rewrite Hq in Heq.
    cbn in Heq. congruence.
Qed.

(** X8: [mul_exp] returns a value exactly when it does not divide by zero:
    for a 256-bit [a], the call returns when [a] is zero (the loop is not
    entered) or the divisor [q] is not zero as a 64-bit value, whatever the
    exponent; the counter [n] never wraps around and the loop ends.  With a
    positive [a] and a divisor that is zero as a 64-bit value the call ends
    in the error of the division of [arith_uint256]. *)
Theorem mul_exp_returns_iff :
  forall (a p q : Z),
    0 <= a < 2 ^ 256 ->
    ((exists r, mul_exp a p q = Ok r) <-> a = 0 \/ to_uint64 q <> 0)
    /\ (0 < a -> to_uint64 q = 0 -> mul_exp a p q = Fail uint_error)
    /\ (a = 0 -> mul_exp a p q = Ok 0).
Proof.
  intros a p q Ha. unfold mul_exp. cbv zeta.
  split; [| split].
  - split.
    + intros [r Hr]. destruct (Z.eq_dec a 0) as [| Hne]; [left; assumption |].
      right. intros Hq.
      rewrite mul_exp_loop_zero_divisor in Hr by (assumption || lia).
      discriminate.
    + intros [-> | Hq].
      * rewrite mul_exp_loop_zero by lia. eauto.
      * apply mul_exp_loop_returns;
          [apply mul_exp_invariant_start |]; assumption.
  - intros Hpos Hq. apply mul_exp_loop_zero_divisor; assumption.
  - intros ->. apply mul_exp_loop_zero. lia.
Qed.

Lemma mul_exp_returns_iff_witness :
  (exists r, mul_exp (2 ^ 200) (-40) 600 = Ok r)
  <-> 2 ^ 200 = 0 \/ to_uint64 600 <> 0.
Proof.
  apply (mul_exp_returns_iff (2 ^ 200) (-40) 600). lia.
Defined.

(** ** The legacy EMA at the target spacing *)

Lemma mul_exp_loop_zero_multiplier isNegative abs_p q a n res :
  to_uint32 abs_p = 0 -> mul_exp_invariant a n -> to_uint64 q <> 0 ->
  0 <= res < 2 ^ 256 ->
  mul_exp_loop isNegative abs_p q a n res = Ok res.
Proof.
  revert isNegative abs_p q a n res.
  apply (mul_exp_loop_elim
           (fun isNegative abs_p q a n res r =>
              to_uint32 abs_p = 0 -> mul_exp_invariant a n ->
              to_uint64 q <> 0 -> 0 <= res < 2 ^ 256 -> r = Ok res)).
  - intros neg abs_p q a Hn n res _ _ _ _ _. reflexivity.
  - intros neg abs_p q a Hpos n a' n' Heq res IH _ _ Hp Hinv Hq Hres.
    destruct (mul_exp_step_invariant abs_p q a n Hinv ltac:(lia) Hq)
      as [a1 [Hstep [Ha1 Hinv']]].
    rewrite Hstep in Heq. injection Heq as <- <-.
    assert (a1 = 0) as E.
    { rewrite Ha1. unfold arith_uint256.mul_u32. rewrite Hp, Z.mul_0_r.
      reflexivity. }
    rewrite E in *.
    assert (Hsame : (if neg && Z.odd (n + 1)
                     then arith_uint256.sub res 0
                     else arith_uint256.add res 0) = res).
    { unfold arith_uint256.sub, arith_uint256.add, arith_uint256.wrap,
        arith_uint256.modulus.
      rewrite Z.sub_0_r, Z.add_0_r, Z.mod_small by lia.
      destruct (neg && Z.odd (n + 1)); reflexivity. }
    rewrite Hsame in IH. rewrite Hsame. apply IH; assumption.
  - intros neg abs_p q a Hpos n f Heq res _ _ Hp Hinv Hq Hres.
    destruct (mul_exp_step_invariant abs_p q a n Hinv ltac:(lia) Hq)
      as [a1 [Hstep _]].
    rewrite Hstep in Heq. discriminate.
Qed.

Lemma mul_exp_zero_exponent a q :
  0 <= a < 2 ^ 256 -> to_uint64 q <> 0 -> mul_exp a 0 q = Ok a.
Proof.
  intros Ha Hq. unfold mul_exp. cbv zeta.
  apply mul_exp_loop_zero_multiplier;
    [reflexivity | apply mul_exp_invariant_start | |]; assumption.
Qed.

(** The decoding of compact bits is a 256-bit value. *)
Lemma decode_range nCompact : 0 <= arith_uint256.decode nCompact < 2 ^ 256.
Proof.
  unfold arith_uint256.decode, arith_uint256.SetCompact. cbn [fst].
  assert (Hw : 0 <= Z.land nCompact 0x007fffff < 2 ^ 23).
  { change 0x007fffff with (Z.ones 23). rewrite Z.land_ones by lia.
    apply Z.mod_pos_bound. lia. }
  set (w := Z.land nCompact 0x007fffff) in *.
  destruct (Z.leb_spec (Z.shiftr nCompact 24) 3).
  - assert (0 <= Z.shiftr w (8 * (3 - Z.shiftr nCompact 24)) <= w).
    { rewrite Z.shiftr_div_pow2 by lia.
      pose proof (pow2_pos (8 * (3 - Z.shiftr nCompact 24)) ltac:(lia)).
      split; [apply Z.div_pos; lia |].
      apply Z.div_le_upper_bound; nia. }
    lia.
  - apply Z.mod_pos_bound. reflexivity.
Qed.

(** X9: the legacy EMA is at rest at the target spacing.  When the last
    block came exactly one target spacing after the reference time, the
    target of the last block is kept: below the height [QIP9Height] the
    blend multiplies and divides by the same [(interval + 1) * spacing]
    (provided this factor fits 32 bits and the product fits 256 bits), at or
    above it [mul_exp] is called with the exponent zero.  The result is the
    encoding of the decoded target of the last block, replaced by the limit
    when it is zero or above the limit. *)
Theorem CalculateNextWorkRequired_at_target_spacing :
  forall (bLast : CBlockIndex) (rest : pindex) (nFirstBlockTime : Z)
         (params : Consensus.Params) (fProofOfStake : bool),
    let pindexLast := bLast :: rest in
    let height := nHeight pindexLast + 1 in
    let T := Consensus.TargetSpacing params height in
    let nInterval := Z.quot (Consensus.TargetTimespan params height) T in
    let bn := arith_uint256.decode (nBits bLast) in
    let divisor :=
      to_uint32 (to_uint32 (Consensus.StakeTimestampMask params height) + 1) in
    (if fProofOfStake then Consensus.fPoSNoRetargeting params
     else Consensus.fPowNoRetargeting params) = false ->
    GetBlockTime bLast - nFirstBlockTime = T ->
    0 < T ->
    (if height <? Consensus.QIP9Height params
     then 0 < (nInterval + 1) * T < 2 ^ 32
          /\ bn * ((nInterval + 1) * T) < 2 ^ 256
     else divisor <> 0
          /\ to_uint64 (Z.quot ((nInterval + 1) * T) divisor) <> 0) ->
    CalculateNextWorkRequired pindexLast nFirstBlockTime params fProofOfStake
    = Ok (arith_uint256.GetCompact
            (replace_by_limit (GetLimit height params fProofOfStake) bn)).
Proof.
  intros bLast rest first params kind p height T nInterval bn divisor
    Hflag Hspacing HT Hcase.
  pose proof (decode_range (nBits bLast)) as Hbn. fold bn in Hbn.
  assert (Hema : ema_retarget p first params kind bLast
                 = Ok (arith_uint256.GetCompact
                         (replace_by_limit (GetLimit height params kind) bn))).
  { rewrite ema_retarget_rules. cbv zeta. fold height T bn.
    unfold Consensus.DifficultyAdjustmentInterval. cbv zeta. fold T.
    destruct (Z.eqb_spec T 0); [lia |]. cbn [rbind]. fold nInterval.
    rewrite Hspacing.
    destruct (height <? Consensus.QIP9Height params).
    - destruct Hcase as [Hd Hprod].
      rewrite (proj1 (proj2 (ema_spacing_cases 10 T T))) by lia.
      unfold ema_blend.
      replace ((nInterval - 1) * T + 2 * T) with ((nInterval + 1) * T) by lia.
      set (d := (nInterval + 1) * T) in *.
      unfold arith_uint256.mul_u32, arith_uint256.wrap, arith_uint256.modulus.
      rewrite (to_uint32_small d) by lia.
      rewrite (Z.mod_small (bn * d)) by nia.
      rewrite div_u64_nonzero by (rewrite to_uint64_small; lia).
      rewrite to_uint64_small by lia.
      rewrite Z.div_mul by lia. reflexivity.
    - destruct Hcase as [Hd Hq].
      rewrite (proj1 (proj2 (ema_spacing_cases 20 T T))) by lia.
      unfold ema_decay. cbv zeta. fold divisor.
      destruct (Z.eqb_spec divisor 0); [contradiction |].
      rewrite Z.sub_diag, Z.mul_0_r, Z.quot_0_l by assumption.
      rewrite mul_exp_zero_exponent by assumption. reflexivity. }
  unfold CalculateNextWorkRequired. cbn [deref rbind].
  destruct kind; rewrite Hflag; exact Hema.
Qed.

Lemma CalculateNextWorkRequired_at_target_spacing_witness :
  CalculateNextWorkRequired Examples.pow_chain 750 Examples.params false
  = Ok 0x1c0fffff.
Proof.
  apply (CalculateNextWorkRequired_at_target_spacing
           (Examples.block 900 0x1c0fffff false)
           (Examples.chain_of false 0x1c0fffff [400; 300; 200; 100; 0; 0])
           750 Examples.params false);
    vm_compute; repeat split; reflexivity.
Defined.

(** ** The LWMA at the target pace *)

Lemma weighted_sum_replicate (n : nat) j s :
  2 * weighted_sum j (replicate n s)
  = s * Z.of_nat n * (2 * j + Z.of_nat n + 1).
Proof.
  revert j. induction n as [| n IH]; intros j.
  - cbn. lia.
  - cbn [replicate weighted_sum]. rewrite Z.mul_add_distr_l, IH. lia.
Qed.

Lemma average_target_replicate N k (n : nat) avg bits :
  let q := arith_uint256.decode bits / to_uint64 N / to_uint64 k in
  0 <= avg -> 0 <= q -> avg + Z.of_nat n * q < 2 ^ 256 ->
  average_target N k avg (replicate n bits) = avg + Z.of_nat n * q.
Proof.
  intros q. revert avg. induction n as [| n IH]; intros avg Havg Hq Hfit.
  - cbn. lia.
  - cbn [replicate average_target]. fold q.
    unfold arith_uint256.add, arith_uint256.wrap, arith_uint256.modulus.
    rewrite Z.mod_small by lia. rewrite IH by lia. lia.
Qed.

(** X10: the LWMA at rest.  When the blocks of the window all carry the
    same bits and every solve time equals the target spacing [T], the
    weighted sum is exactly [k] and the next target is the common target
    rounded down to a multiple of [N * k] (capped at the limit): at the
    target pace the rule returns a target that never exceeds the target of
    the window. *)
Theorem Lwma3_at_target_pace :
  forall (pindexLast : pindex) (params : Consensus.Params)
         (fProofOfStake : bool) (previous : Z) (blocks : list CBlockIndex)
         (bits : Z),
    let T := Consensus.nPowTargetSpacing params in
    let N := Consensus.lwmaAveragingWindow params in
    let k := Z.quot (N * (N + 1) * T) 2 in
    let ProofLimit :=
      UintToArith256 (if fProofOfStake then Consensus.posLimit params
                      else Consensus.powLimit params) in
    let target := arith_uint256.decode bits in
    Consensus.fPowNoRetargeting params = false ->
    Consensus.fPoSNoRetargeting params = false ->
    1 <= N -> 0 < T -> N * (N + 1) * T < 2 ^ 33 ->
    N + 1 <= nHeight pindexLast ->
    lwma_window pindexLast params fProofOfStake = Ok (previous, blocks) ->
    map nBits blocks = replicate (Z.to_nat N) bits ->
    solvetimes T previous (map GetBlockTime blocks)
    = replicate (Z.to_nat N) T ->
    Lwma3CalculateNextWorkRequired pindexLast params fProofOfStake
    = Ok (arith_uint256.GetCompact
            (Z.min (target / (N * k) * (N * k)) ProofLimit))
    /\ target - N * k < target / (N * k) * (N * k) <= target.
Proof.
  intros p params kind previous blocks bits T N k L target
    Hpow Hpos HN HT Hk Hheight Hw Hbits Hst.
  destruct (lwma_divisors_nonzero N T HN HT ltac:(lia)) as [HN0 Hk0].
  fold k in Hk0.
  assert (Hkq : 2 * k = N * (N + 1) * T).
  { unfold k. rewrite Z.quot_div_nonneg by nia.
    assert (Heven : (N * (N + 1) * T) mod 2 = 0).
    { rewrite <- Z.mul_assoc, Z.mul_comm, <- Z.mul_assoc.
      replace ((N + 1) * (T * N)) with ((N * (N + 1)) * T) by lia.
      rewrite <- Zmult_mod_idemp_l.
      assert ((N * (N + 1)) mod 2 = 0) as ->; [| reflexivity].
      destruct (Z.even N) eqn:E.
      - apply Z.even_spec in E as [c ->].
        replace (2 * c * (2 * c + 1)) with ((c * (2 * c + 1)) * 2) by lia.
        apply Z_mod_mult.
      - rewrite <- Z.negb_odd in E. apply negb_false_iff in E.
        apply Z.odd_spec in E as [c ->].
        replace ((2 * c + 1) * (2 * c + 1 + 1))
          with (((2 * c + 1) * (c + 1)) * 2) by lia.
        apply Z_mod_mult. }
    pose proof (Z.div_mod (N * (N + 1) * T) 2 ltac:(lia)). lia. }
  assert (Hkpos : 1 <= k < 2 ^ 32) by nia.
  assert (HN32 : N < 2 ^ 32) by nia.
  pose proof (decode_range bits) as Ht. fold target in Ht.
  assert (Hquot : target / to_uint64 N / to_uint64 k = target / (N * k)).
  { rewrite !to_uint64_small by lia. apply Z.div_div; lia. }
  assert (Hmul : 0 <= target / (N * k) * (N * k) <= target).
  { pose proof (Z.mul_div_le target (N * k) ltac:(nia)).
    pose proof (Z.div_pos target (N * k) ltac:(lia) ltac:(nia)).
    split; [nia | lia]. }
  assert (Hloss : target - N * k < target / (N * k) * (N * k)).
  { pose proof (Z.div_mod target (N * k) ltac:(nia)).
    pose proof (Z.mod_pos_bound target (N * k) ltac:(nia)). lia. }
  split; [| lia].
  rewrite (Lwma3_main_path p params kind previous blocks)
    by (try assumption; try lia; right; split; assumption).
  do 2 f_equal. unfold lwma_next_target. cbv zeta.
  fold T N k L. rewrite Hbits, Hst.
  assert (Hsum : weighted_sum 0 (replicate (Z.to_nat N) T) = k).
  { pose proof (weighted_sum_replicate (Z.to_nat N) 0 T) as E.
    rewrite Z2Nat.id in E by lia. nia. }
  rewrite Hsum.
  pose proof (Z.div_pos target (N * k) ltac:(lia) ltac:(nia)) as Hq0.
  assert (Havg : average_target N k 0 (replicate (Z.to_nat N) bits)
                 = 0 + N * (target / (N * k))).
  { rewrite average_target_replicate; fold target; rewrite ?Hquot;
      rewrite ?Z2Nat.id by lia; [reflexivity | lia | lia | nia]. }
  rewrite Havg.
  unfold arith_uint256.mul_u32, arith_uint256.wrap, arith_uint256.modulus.
  rewrite to_uint32_small by lia.
  replace ((0 + N * (target / (N * k))) * k)
    with (target / (N * k) * (N * k)) by lia.
  rewrite Z.mod_small by lia.
  destruct (Z.gtb_spec (target / (N * k) * (N * k)) L); lia.
Qed.

Lemma Lwma3_at_target_pace_witness :
  Lwma3CalculateNextWorkRequired steady_chain Examples.params false
  = Ok (arith_uint256.GetCompact
          (Z.min (arith_uint256.decode 0x1c0fffff / (5 * 2250) * (5 * 2250))
                 (2 ^ 224 - 1)))
  /\ arith_uint256.decode 0x1c0fffff - 5 * 2250
     < arith_uint256.decode 0x1c0fffff / (5 * 2250) * (5 * 2250)
     <= arith_uint256.decode 0x1c0fffff.
Proof.
  apply (Lwma3_at_target_pace steady_chain Examples.params false 150
           (Examples.chain_of false 0x1c0fffff [300; 450; 600; 750; 900])
           0x1c0fffff);
    vm_compute; first [reflexivity | discriminate].
Defined.

(** ** The entry point *)

Lemma count_above_genesis_cons matches s c (l : pindex) :
  count_above_genesis matches (s :: c :: l)
  = (if matches s then 1 else 0) + count_above_genesis matches (c :: l).
Proof. reflexivity. Qed.

Lemma count_above_genesis_app matches (skipped : pindex) b rest :
  Forall (fun x => matches x = false) skipped ->
  count_above_genesis matches (skipped ++ b :: rest)
  = count_above_genesis matches (b :: rest).
Proof.
  induction skipped as [| s skipped IH]; intros Hs; [reflexivity |].
  inversion Hs as [| ? ? Hhead Htail]; subst.
  specialize (IH Htail).
  destruct skipped as [| s' sk]; cbn [app] in *;
    rewrite count_above_genesis_cons, Hhead; [reflexivity |].
  rewrite IH. reflexivity.
Qed.

(** The walk ends on the genesis block when no block of the kind lies above
    it, and otherwise on a block of the kind above the genesis block, with
    one such block fewer behind it. *)
Lemma GetLastBlockIndex_count p kind :
  p <> [] ->
  exists b rest,
    GetLastBlockIndex p kind = b :: rest
    /\ (count_above_genesis (of_kind kind) p = 0 -> rest = [])
    /\ (0 < count_above_genesis (of_kind kind) p ->
        rest <> [] /\ IsProofOfStake b = kind
        /\ count_above_genesis (of_kind kind) rest
           = count_above_genesis (of_kind kind) p - 1).
Proof.
  intros Hp.
  destruct (GetLastBlockIndex_split p kind Hp)
    as [skipped [b [rest [Hsplit [Hg [Hs Hk]]]]]].
  exists b, rest. split; [exact Hg |].
  assert (Hcount : count_above_genesis (of_kind kind) p
                   = count_above_genesis (of_kind kind) (b :: rest)).
  { rewrite Hsplit. apply count_above_genesis_app.
    eapply Forall_impl; [exact Hs |]. cbn beta. intros x Hx.
    destruct (of_kind kind x) eqn:E; [| reflexivity].
    apply of_kind_spec in E. rewrite E in Hx. destruct kind; discriminate. }
  rewrite Hcount. cbn [count_above_genesis].
  pose proof (count_above_genesis_nonneg (of_kind kind) rest).
  destruct rest as [| r rest']; [split; [reflexivity | lia] |].
  destruct Hk as [Hk | Hk]; [| discriminate].
  apply of_kind_spec in Hk. rewrite Hk.
  split; [lia |]. intros _. split; [discriminate |].
  split; [apply of_kind_spec; exact Hk | lia].
Qed.

(** X11: [GetNextWorkRequired] before and after the second block of a
    kind.  For the null pointer, and for a chain with at most one block of
    the requested kind above its genesis block, it returns the bits of the
    limit of the next height.  With two such blocks or more and without the
    minimum-difficulty rule it is the LWMA rule, called on the most recent
    block of the requested kind (not on the tip). *)
Theorem GetNextWorkRequired_cases :
  forall (pindexLast : pindex) (pblockTime : Z) (params : Consensus.Params)
         (fProofOfStake : bool),
    let blocks_of_kind :=
      count_above_genesis (of_kind fProofOfStake) pindexLast in
    GetNextWorkRequired [] pblockTime params fProofOfStake
    = Ok (arith_uint256.GetCompact (GetLimit 0 params fProofOfStake))
    /\ (pindexLast <> [] -> blocks_of_kind <= 1 ->
        GetNextWorkRequired pindexLast pblockTime params fProofOfStake
        = Ok (arith_uint256.GetCompact
                (GetLimit (nHeight pindexLast + 1) params fProofOfStake)))
    /\ (2 <= blocks_of_kind ->
        Consensus.fPowAllowMinDifficultyBlocks params = false ->
        GetNextWorkRequired pindexLast pblockTime params fProofOfStake
        = Lwma3CalculateNextWorkRequired
            (GetLastBlockIndex pindexLast fProofOfStake) params
            fProofOfStake).
Proof.
  intros p t params kind. cbv zeta. split; [reflexivity |].
  destruct p as [| bLast rest0] eqn:Ep.
  { split; [intros H; contradiction | cbn; lia]. }
  rewrite <- Ep in *.
  assert (Hp : p <> []) by (rewrite Ep; discriminate).
  destruct (GetLastBlockIndex_count p kind Hp) as [b [rest [Hg [Hzero Hpos]]]].
  assert (Hunfold :
    GetNextWorkRequired p t params kind
    = match rest with
      | [] => Ok (arith_uint256.GetCompact
                    (GetLimit (nHeight p + 1) params kind))
      | _ :: _ =>
          do _ <- deref (GetLastBlockIndex rest kind);
          match pprev (GetLastBlockIndex rest kind) with
          | [] => Ok (arith_uint256.GetCompact
                        (GetLimit (nHeight p + 1) params kind))
          | _ :: _ =>
              if Consensus.fPowAllowMinDifficultyBlocks params then
                if t >? GetBlockTime bLast
                        + Consensus.TargetSpacing params (nHeight p + 1) * 2
                then Ok (arith_uint256.GetCompact
                           (GetLimit (nHeight p + 1) params kind))
                else
                  do b <- last_non_special_block params
                            (arith_uint256.GetCompact
                               (GetLimit (nHeight p + 1) params kind)) p;
                  Ok (nBits b)
              else Lwma3CalculateNextWorkRequired (b :: rest) params kind
          end
      end).
  { rewrite Ep. unfold GetNextWorkRequired, GetLastBlockIndexQtum.
    cbv beta iota zeta. rewrite <- Ep. rewrite Hg.
    cbn [deref rbind pprev tail]. destruct rest; reflexivity. }
  pose proof (count_above_genesis_nonneg (of_kind kind) p) as Hc0.
  set (c := count_above_genesis (of_kind kind) p) in *.
  split.
  - intros _ Hc1. rewrite Hunfold.
    destruct rest as [| r rest']; [reflexivity |].
    destruct (Z.eq_dec c 0) as [E0 | E0]; [specialize (Hzero E0); discriminate |].
    destruct (Hpos ltac:(lia)) as [_ [_ Hrest]].
    destruct (GetLastBlockIndex_count (r :: rest') kind ltac:(discriminate))
      as [b2 [rest2 [Hg2 [Hzero2 _]]]].
    rewrite Hg2. cbn [deref rbind pprev tail].
    rewrite (Hzero2 ltac:(lia)). reflexivity.
  - intros Hc2 Hmin. rewrite Hunfold, Hg, Hmin.
    destruct (Hpos ltac:(lia)) as [Hr [_ Hrest]].
    destruct rest as [| r rest']; [contradiction |].
    destruct (GetLastBlockIndex_count (r :: rest') kind ltac:(discriminate))
      as [b2 [rest2 [Hg2 [_ Hpos2]]]].
    rewrite Hg2. cbn [deref rbind pprev tail].
    destruct (Hpos2 ltac:(lia)) as [Hr2 _].
    destruct rest2; [contradiction | reflexivity].
Qed.

Lemma GetNextWorkRequired_cases_witness :
  GetNextWorkRequired Examples.hybrid_chain 1200 Examples.params true
  = Lwma3CalculateNextWorkRequired
      (GetLastBlockIndex Examples.hybrid_chain true) Examples.params true.
Proof.
  apply (GetNextWorkRequired_cases Examples.hybrid_chain 1200 Examples.params
           true).
  - vm_compute. discriminate.
  - reflexivity.
Defined.

(** The loop of the minimum-difficulty rule stops on the first block, from
    the tip, that is the genesis block, lies on a boundary of the adjustment
    interval, or has bits other than the limit: every block it passes over
    carries the bits of the limit and lies off the boundaries. *)
Lemma last_non_special_block_stops params nTargetLimit p :
  p <> [] ->
  (forall h, exists nInterval,
      Consensus.DifficultyAdjustmentInterval params h = Ok nInterval
      /\ nInterval <> 0) ->
  exists skipped b rest,
    p = skipped ++ b :: rest
    /\ last_non_special_block params nTargetLimit p = Ok b
    /\ (forall pre x post,
          skipped = pre ++ x :: post ->
          nBits x = nTargetLimit
          /\ forall nInterval,
               Consensus.DifficultyAdjustmentInterval params
                 (nHeight (x :: post ++ b :: rest)) = Ok nInterval ->
               Z.rem (nHeight (x :: post ++ b :: rest)) nInterval <> 0)
    /\ (rest = [] \/ nBits b <> nTargetLimit
        \/ exists nInterval,
             Consensus.DifficultyAdjustmentInterval params
               (nHeight (b :: rest)) = Ok nInterval
             /\ Z.rem (nHeight (b :: rest)) nInterval = 0).
Proof.
  intros Hp Hint. induction p as [| b0 prev IH]; [contradiction |].
  cbn [last_non_special_block]. destruct prev as [| b1 prev'].
  { exists [], b0, []. split; [reflexivity |]. split; [reflexivity |].
    split; [| left; reflexivity].
    intros pre x post E. destruct pre; discriminate. }
  set (p' := b1 :: prev') in *.
  destruct (Hint (nHeight (b0 :: p'))) as [nInterval [HI Hne]].
  rewrite HI. cbn [rbind].
  destruct (Z.eqb_spec nInterval 0); [contradiction |].
  destruct (Z.eqb_spec (Z.rem (nHeight (b0 :: p')) nInterval) 0) as [Hrem | Hrem];
    cbn [negb andb].
  { exists [], b0, p'. split; [reflexivity |]. split; [reflexivity |]. split.
    - intros pre x post E. destruct pre; discriminate.
    - right. right. exists nInterval. split; assumption. }
  destruct (Z.eqb_spec (nBits b0) nTargetLimit) as [Hbits | Hbits].
  - destruct (IH ltac:(subst p'; discriminate))
      as [skipped [b [rest [Hsplit [Hl [Hs Hstop]]]]]].
    exists (b0 :: skipped), b, rest.
    split; [cbn [app]; f_equal; exact Hsplit |].
    split; [exact Hl |]. split; [| exact Hstop].
    intros pre x post E. destruct pre as [| y pre'].
    + cbn [app] in E. injection E as <- <-.
      split; [exact Hbits |]. intros I HI'.
      rewrite <- Hsplit in HI' |- *. rewrite HI in HI'.
      injection HI' as <-. exact Hrem.
    + cbn [app] in E. injection E as _ E. apply (Hs pre' x post E).
  - exists [], b0, p'. split; [reflexivity |]. split; [reflexivity |]. split.
    + intros pre x post E. destruct pre; discriminate.
    + right. left. exact Hbits.
Qed.

(** X12: under the minimum-difficulty rule ([fPowAllowMinDifficultyBlocks])
    [GetNextWorkRequired] never retargets.  Once two blocks of the kind
    exist above the genesis block, a block that comes more than two target
    spacings after the tip gets the bits of the limit; any other block gets
    the bits of a block of the chain: the first one, from the tip, that is
    the genesis block, lies on a boundary of the adjustment interval, or
    carries bits other than the limit.  It is the first one: every block
    between the tip and it carries the bits of the limit and lies off the
    boundaries of the interval. *)
Theorem GetNextWorkRequired_min_difficulty :
  forall (bLast : CBlockIndex) (prev : pindex) (pblockTime : Z)
         (params : Consensus.Params) (fProofOfStake : bool),
    let pindexLast := bLast :: prev in
    let nTargetLimit :=
      arith_uint256.GetCompact
        (GetLimit (nHeight pindexLast + 1) params fProofOfStake) in
    let late :=
      GetBlockTime bLast
      + Consensus.TargetSpacing params (nHeight pindexLast + 1) * 2 in
    Consensus.fPowAllowMinDifficultyBlocks params = true ->
    2 <= count_above_genesis (of_kind fProofOfStake) pindexLast ->
    (forall h, exists nInterval,
        Consensus.DifficultyAdjustmentInterval params h = Ok nInterval
        /\ nInterval <> 0) ->
    (late < pblockTime ->
     GetNextWorkRequired pindexLast pblockTime params fProofOfStake
     = Ok nTargetLimit)
    /\ (pblockTime <= late ->
        exists skipped b rest,
          pindexLast = skipped ++ b :: rest
          /\ GetNextWorkRequired pindexLast pblockTime params fProofOfStake
             = Ok (nBits b)
          /\ (forall pre x post,
                skipped = pre ++ x :: post ->
                nBits x = nTargetLimit
                /\ forall nInterval,
                     Consensus.DifficultyAdjustmentInterval params
                       (nHeight (x :: post ++ b :: rest)) = Ok nInterval ->
                     Z.rem (nHeight (x :: post ++ b :: rest)) nInterval <> 0)
          /\ (rest = [] \/ nBits b <> nTargetLimit
              \/ exists nInterval,
                   Consensus.DifficultyAdjustmentInterval params
                     (nHeight (b :: rest)) = Ok nInterval
                   /\ Z.rem (nHeight (b :: rest)) nInterval = 0)).
Proof.
  intros bLast prev t params kind p nTargetLimit late Hmin Hc Hint.
  assert (Hp : p <> []) by (subst p; discriminate).
  destruct (GetLastBlockIndex_count p kind Hp) as [b [rest [Hg [_ Hpos]]]].
  destruct (Hpos ltac:(lia)) as [Hr [_ Hrest]].
  destruct rest as [| r rest']; [contradiction |].
  destruct (GetLastBlockIndex_count (r :: rest') kind ltac:(discriminate))
    as [b2 [rest2 [Hg2 [_ Hpos2]]]].
  destruct (Hpos2 ltac:(lia)) as [Hr2 _].
  destruct rest2 as [| r2 rest2']; [contradiction |].
  assert (Hunfold :
    GetNextWorkRequired p t params kind
    = if t >? late then Ok nTargetLimit
      else do b <- last_non_special_block params nTargetLimit p;
           Ok (nBits b)).
  { unfold p at 1. unfold GetNextWorkRequired, GetLastBlockIndexQtum.
    cbv beta iota zeta. fold p. rewrite Hg. cbn [deref rbind pprev tail].
    rewrite Hg2. cbn [deref rbind pprev tail]. rewrite Hmin. reflexivity. }
  rewrite Hunfold. split.
  - intros Hlate. destruct (Z.gtb_spec t late); [reflexivity | lia].
  - intros Hearly. destruct (Z.gtb_spec t late); [lia |].
    destruct (last_non_special_block_stops params nTargetLimit p Hp Hint)
      as [skipped [b' [rest'' [Hsplit [Hl [Hs Hstop]]]]]].
    exists skipped, b', rest''. rewrite Hl. cbn [rbind].
    repeat split; try assumption; apply (Hs pre x post); assumption.
Qed.

Lemma GetNextWorkRequired_min_difficulty_witness :
  exists skipped b rest,
    boundary_chain = skipped ++ b :: rest
    /\ GetNextWorkRequired boundary_chain 1100 min_difficulty_params false
       = Ok (nBits b)
    /\ (forall pre x post,
          skipped = pre ++ x :: post ->
          nBits x = 0x1d00ffff
          /\ forall nInterval,
               Consensus.DifficultyAdjustmentInterval min_difficulty_params
                 (nHeight (x :: post ++ b :: rest)) = Ok nInterval ->
               Z.rem (nHeight (x :: post ++ b :: rest)) nInterval <> 0)
    /\ (rest = [] \/ nBits b <> 0x1d00ffff
        \/ exists nInterval,
             Consensus.DifficultyAdjustmentInterval min_difficulty_params
               (nHeight (b :: rest)) = Ok nInterval
             /\ Z.rem (nHeight (b :: rest)) nInterval = 0).
Proof.
  apply (GetNextWorkRequired_min_difficulty
           (Examples.block 1050 0x1d00ffff false)
           (Examples.block 900 0x1d00ffff false
            :: Examples.chain_of false 0x1c0fffff [400; 300; 200; 100; 0; 0])
           1100 min_difficulty_params false).
  - reflexivity.
  - vm_compute. discriminate.
  - intros h. unfold Consensus.DifficultyAdjustmentInterval,
      Consensus.TargetTimespan, Consensus.TargetSpacing.
    cbn [min_difficulty_params Examples.params Examples.network
         Consensus.nReduceBlocktimeHeight Consensus.QIP9Height
         Consensus.nPowTargetSpacing Consensus.nRBTPowTargetSpacing
         Consensus.nPowTargetTimespan Consensus.nPowTargetTimespanV2
         Consensus.nRBTPowTargetTimespan].
    destruct (h <? 2000), (h <? 1000); cbn; eexists;
      (split; [reflexivity | discriminate]).
  - vm_compute. discriminate.
Defined.

(** ** The hash engines compared *)

Lemma run_rx_slow_hash2_old (H : randomx_vm -> list byte -> list byte) calls :
  run (rx_slow_hash2_old H) tt calls
  = Ok (map (fun c : call =>
               H (snd c) (take (Z.to_nat (snd (fst c))) (fst (fst c))))
          calls).
Proof.
  induction calls as [| [[data length] seedhash] rest IH]; [reflexivity |].
  cbn [run map fst snd]. unfold rx_slow_hash2_old at 1.
  cbn [calculate rbind]. rewrite IH. reflexivity.
Qed.

(** X13: the static variables of [rx_slow_hash] are a cache only: over any
    sequence of calls, with any seeds, the engine that keeps its cache and
    machine between calls returns the hashes of [rx_slow_hash2_old], which
    builds a fresh cache and machine for the seed of every call.  Each
    output is the hash of the first [length] bytes of the buffer under the
    seed of its own call. *)
Theorem rx_slow_hash_is_stateless :
  forall (H : randomx_vm -> list byte -> list byte) (st : rx_state)
         (calls : list call),
    rx_coherent st ->
    run (rx_slow_hash H) st calls = run (rx_slow_hash2_old H) tt calls
    /\ run (rx_slow_hash H) st calls
       = Ok (map (fun c : call =>
                    H (snd c) (take (Z.to_nat (snd (fst c))) (fst (fst c))))
               calls).
Proof.
  intros H st calls Hst.
  rewrite run_rx_slow_hash2_old, run_rx_slow_hash by exact Hst.
  split; reflexivity.
Qed.

Lemma rx_slow_hash_is_stateless_witness :
  let calls :=
    [(SeedExamples.header, 144, 1); (SeedExamples.header, 144, 2);
     (SeedExamples.header, 100, 1)] in
  run (rx_slow_hash SeedExamples.seed_byte_hash) rx_initial calls
  = run (rx_slow_hash2_old SeedExamples.seed_byte_hash) tt calls.
Proof.
  apply (rx_slow_hash_is_stateless SeedExamples.seed_byte_hash rx_initial).
  left. repeat split.
Defined.

Lemma rx_slow_hash2_step (H : randomx_vm -> list byte -> list byte) s st c :
  (forall vm d, length (H vm d) = 32%nat) ->
  rx2_memo_sound H s st -> header_call s c ->
  exists st',
    rx_slow_hash2 H st (fst (fst c)) (snd (fst c)) (snd c)
    = Ok (H s (take 144 (fst (fst c))), st')
    /\ rx2_memo_sound H s st'.
Proof.
  intros Hlen [Heng Hmemo] [Hs [Hl [Hd Hnz]]].
  destruct c as [[data length] seedhash]. cbn [fst snd] in *. subst.
  assert (Hcopy : forall old : list byte,
            take 144 (memcpy old data 144) = take 144 data).
  { intros old. unfold memcpy.
    rewrite take_app_le by (rewrite length_take; lia).
    rewrite take_take. f_equal. }
  assert (Hkeep : forall (old : list byte) vm d,
            take 32 (memcpy old (H vm d) 32) = H vm d).
  { intros old vm d. unfold memcpy.
    rewrite take_app_le by (rewrite length_take, Hlen; lia).
    rewrite take_take. replace (32 `min` 32)%nat with 32%nat by lia.
    apply take_ge. rewrite Hlen. lia. }
  unfold rx_slow_hash2, rx_rotate, memcmp_eq. cbv zeta.
  destruct (bool_decide (take 144 data = take 144 (old_data st))) eqn:Ehit.
  - apply bool_decide_eq_true_1 in Ehit.
    destruct Hmemo as [Hzero | Hhash]; [rewrite Hzero in Ehit; contradiction |].
    rewrite Hhash, <- Ehit. eexists. split; [reflexivity |].
    split; cbn [engine old_data old_hash].
    + right.
      destruct Heng as [[Hi [Hv Hc]] | [Hi [Hseed [Hv Hc]]]];
        rewrite Hi, ?Hv, ?Hc; cbn [negb randomx_seed2];
        rewrite ?Hseed, Z.eqb_refl; cbn [negb]; cbn; auto.
    + right. rewrite Hhash, <- Ehit. reflexivity.
  - change (Z.to_nat 144) with 144%nat.
    destruct Heng as [[Hi [Hv Hc]] | [Hi [Hseed [Hv Hc]]]];
      rewrite Hi, ?Hv, ?Hc; cbn [negb randomx_seed2];
      rewrite ?Hseed, Z.eqb_refl; cbn [negb rx_vm];
      rewrite ?Hv; cbn [calculate rbind];
      (eexists; split; [reflexivity |]);
      (split; cbn [engine old_data old_hash];
       [right; cbn; auto | right; rewrite Hcopy, Hkeep; reflexivity]).
Qed.

Lemma run_rx_slow_hash2 (H : randomx_vm -> list byte -> list byte) s st calls :
  (forall vm d, length (H vm d) = 32%nat) ->
  rx2_memo_sound H s st -> Forall (header_call s) calls ->
  run (rx_slow_hash2 H) st calls
  = Ok (map (fun c : call => H s (take 144 (fst (fst c)))) calls).
Proof.
  intros Hlen. revert st.
  induction calls as [| c rest IH]; intros st Hst Hcalls; [reflexivity |].
  inversion Hcalls as [| ? ? Hc Hrest]; subst.
  destruct (rx_slow_hash2_step H s st c Hlen Hst Hc) as [st' [Hstep Hst']].
  destruct c as [[data length] seedhash]. cbn [fst snd] in *.
  cbn [run map fst snd]. rewrite Hstep. cbn [rbind].
  rewrite (IH st' Hst' Hrest). reflexivity.
Qed.

(** X14: under a seed that does not change, the memo of [rx_slow_hash2]
    is transparent.  For a hash primitive that writes 32 bytes, over any
    sequence of calls that hash block headers of 144 bytes (not all zero)
    under one seed, the memoized engine started from its initial state
    returns the hashes of the engine without memo: a hit returns what a
    computation would return. *)
Theorem rx_slow_hash2_transparent_under_one_seed :
  forall (H : randomx_vm -> list byte -> list byte) (s : uint256)
         (calls : list call),
    (forall vm d, length (H vm d) = 32%nat) ->
    Forall (header_call s) calls ->
    run (rx_slow_hash2 H) rx2_initial calls
    = run (rx_slow_hash H) rx_initial calls
    /\ run (rx_slow_hash2 H) rx2_initial calls
       = Ok (map (fun c : call => H s (take 144 (fst (fst c)))) calls).
Proof.
  intros H s calls Hlen Hcalls.
  assert (Hinit : rx2_memo_sound H s rx2_initial).
  { split; [left; repeat split | left; reflexivity]. }
  rewrite (run_rx_slow_hash2 H s rx2_initial calls Hlen Hinit Hcalls).
  split; [| reflexivity].
  rewrite run_rx_slow_hash by (left; repeat split).
  f_equal. apply map_ext_in. intros c Hin.
  rewrite List.Forall_forall in Hcalls.
  destruct (Hcalls c Hin) as [-> [-> _]]. reflexivity.
Qed.

Lemma rx_slow_hash2_transparent_under_one_seed_witness :
  let calls :=
    [(SeedExamples.header, 144, 7); (SeedExamples.header, 144, 7)] in
  run (rx_slow_hash2 SeedExamples.seed_byte_hash) rx2_initial calls
  = run (rx_slow_hash SeedExamples.seed_byte_hash) rx_initial calls.
Proof.
  apply (rx_slow_hash2_transparent_under_one_seed
           SeedExamples.seed_byte_hash 7).
  - intros vm d. apply length_replicate.
  - repeat constructor; vm_compute; discriminate.
Defined.

(** ** The seed outside of the windows *)

Lemma uint32_to_int_wrap z :
  - 2 ^ 31 <= z < 2 ^ 31 -> uint32_to_int (to_uint32 z) = z.
Proof.
  intros Hz. unfold uint32_to_int, to_uint32.
  destruct (Z.lt_ge_cases z 0).
  - rewrite <- (Z_mod_plus_full z 1 (2 ^ 32)).
    rewrite Z.mod_small by lia.
    destruct (Z.ltb_spec (z + 1 * 2 ^ 32) (2 ^ 31)); lia.
  - rewrite Z.mod_small by lia.
    destruct (Z.ltb_spec z (2 ^ 31)); lia.
Qed.

Lemma CChain_at_outside (c : CChain) z :
  z < 0 \/ Z.of_nat (length c) <= z -> CChain_at c z = Fail null_dereference.
Proof.
  intros Hz. unfold CChain_at.
  destruct (Z.ltb_spec z 0); [reflexivity |].
  destruct (Z.geb_spec z (Z.of_nat (length c))); [reflexivity | lia].
Qed.

Lemma key_or_genesis_fault (c : CChain) (cur : uint256) (B : Type)
    (k : uint256 -> result B) :
  (forall key, k key = Fail null_dereference) ->
  rbind (if cur =? 0 then do g <- Genesis c; Ok (GetBlockHash g) else Ok cur) k
  = Fail null_dereference.
Proof.
  intros Hk. destruct (cur =? 0); [| apply Hk].
  unfold Genesis, CChain_at.
  destruct ((0 <? 0) || (0 >=? Z.of_nat (length c))); [reflexivity |].
  destruct (c !! Z.to_nat 0); cbn [rbind]; [apply Hk | reflexivity].
Qed.

(** X15: [GetRandomXSeed] dereferences the null pointer whenever the block
    it selects is not on the active chain.  The index handed to the chain
    is the start of the window of the height (or of the window before, up
    to the switch offset) minus [SeedStartingHeight], converted to [int]:
    when this index is negative, as for the heights whose window starts
    below [SeedStartingHeight], or beyond the tip, the chain returns the
    null pointer and the call reads its hash. *)
Theorem GetRandomXSeed_faults_off_chain :
  forall (c : CChain) (p : Consensus.Params)
         (current_key_block : uint256) (nHeight : Z),
    let start := to_uint32 (Consensus.RX2SeedHeight p) in
    let interval := to_uint32 (Consensus.RX2SeedInterval p) in
    let SwitchKey := start mod interval in
    let r := nHeight mod interval in
    let index :=
      if r >? SwitchKey then nHeight - r - start
      else nHeight - r - interval - start in
    interval <> 0 -> 0 <= nHeight -> nHeight + interval < 2 ^ 32 ->
    r > SwitchKey \/ interval <= nHeight ->
    - 2 ^ 31 <= index < 2 ^ 31 ->
    index < 0 \/ Z.of_nat (length c) <= index ->
    GetRandomXSeed c p current_key_block nHeight = Fail null_dereference.
Proof.
  intros c p cur h start interval SwitchKey r index HI Hh Hhi Hwin Hidx Hoff.
  assert (HI32 : 0 <= interval < 2 ^ 32) by (apply Z.mod_pos_bound; lia).
  assert (Hr : 0 <= r < interval) by (apply Z.mod_pos_bound; lia).
  assert (HK : 0 <= SwitchKey < interval) by (apply Z.mod_pos_bound; lia).
  assert (Hmul : h - r = interval * (h / interval)).
  { unfold r. pose proof (Z.div_mod h interval HI). lia. }
  assert (Hdiv : 0 <= h / interval) by (apply Z.div_pos; lia).
  assert (Hhr : 0 <= h - r <= h) by nia.
  assert (Hsecond : interval <= h -> interval <= h - r).
  { intros HIh. assert (1 <= h / interval) by (apply Z.div_le_lower_bound; lia).
    nia. }
  unfold GetRandomXSeed. cbv zeta.
  change (to_uint32 (Consensus.RX2SeedHeight p)) with start.
  change (to_uint32 (Consensus.RX2SeedInterval p)) with interval.
  change (start mod interval) with SwitchKey. change (h mod interval) with r.
  destruct (Z.eqb_spec interval 0) as [| _]; [contradiction |].
  apply key_or_genesis_fault. intros key.
  subst index. clearbody r SwitchKey start interval.
  rewrite (to_uint32_small (h - r + SwitchKey)) by lia.
  destruct (Z.gtb_spec r SwitchKey) as [Hgt | Hle].
  - rewrite (to_uint32_small (h - r)) by lia.
    destruct (Z.gtb_spec h (h - r + SwitchKey)); [| lia].
    destruct (Z.gtb_spec h (h - r)); [| lia].
    rewrite uint32_to_int_wrap by lia.
    rewrite CChain_at_outside by lia. reflexivity.
  - destruct Hwin as [| HIh]; [lia |]. specialize (Hsecond HIh).
    rewrite (to_uint32_small (h - interval - r)) by lia.
    destruct (Z.gtb_spec h (h - r + SwitchKey)); [lia |].
    destruct (Z.gtb_spec h (h - interval - r)); [| lia].
    replace (h - interval - r - start) with (h - r - interval - start) by lia.
    rewrite uint32_to_int_wrap by lia.
    rewrite CChain_at_outside by lia. reflexivity.
Qed.

Lemma GetRandomXSeed_faults_off_chain_witness :
  GetRandomXSeed SeedExamples.active_chain Examples.params 5100 950
  = Fail null_dereference.
Proof.
  apply (GetRandomXSeed_faults_off_chain
           SeedExamples.active_chain Examples.params 5100 950).
  - vm_compute. discriminate.
  - lia.
  - vm_compute. reflexivity.
  - left. vm_compute. reflexivity.
  - vm_compute. split; [discriminate | reflexivity].
  - left. vm_compute. reflexivity.
Defined.

(** X16: in the first window the seed is the key of the previous call.
    For a height below [SeedInterval] that has not passed the switch offset,
    no block is read: the call returns the value that the static variable
    [current_key_block] holds, which is the hash of the genesis block only
    as long as no other call has replaced it.  The seed of such a height is
    therefore not a function of the height and the chain: two different keys
    left by earlier calls give two different seeds. *)
Theorem GetRandomXSeed_first_window_keeps_key :
  forall (c : CChain) (p : Consensus.Params)
         (current_key_block : uint256) (nHeight : Z),
    let start := to_uint32 (Consensus.RX2SeedHeight p) in
    let interval := to_uint32 (Consensus.RX2SeedInterval p) in
    let SwitchKey := start mod interval in
    interval <> 0 -> 0 <= nHeight < interval -> nHeight <= SwitchKey ->
    nHeight + interval <= 2 ^ 32 ->
    (current_key_block <> 0 ->
     GetRandomXSeed c p current_key_block nHeight
     = Ok (current_key_block, current_key_block))
    /\ (forall g : CBlockIndex,
          Genesis c = Ok g ->
          GetRandomXSeed c p 0 nHeight = Ok (GetBlockHash g, GetBlockHash g))
    /\ (forall other : uint256,
          current_key_block <> 0 -> other <> 0 ->
          other <> current_key_block ->
          GetRandomXSeed c p other nHeight
          <> GetRandomXSeed c p current_key_block nHeight).
Proof.
  intros c p cur h start interval SwitchKey HI Hh HK Hhi.
  assert (Hr : h mod interval = h) by (apply Z.mod_small; lia).
  assert (Hkey : forall key,
            (do current_key_block <-
               (if h >? to_uint32 (h - h mod interval + SwitchKey) then
                  if h >? to_uint32 (h - h mod interval) then
                    do b <- CChain_at c
                              (uint32_to_int
                                 (to_uint32
                                    (to_uint32 (h - h mod interval) - start)));
                    Ok (GetBlockHash b)
                  else Ok key
                else
                  if h >? to_uint32 (h - interval - h mod interval) then
                    do b <- CChain_at c
                              (uint32_to_int
                                 (to_uint32
                                    (to_uint32 (h - interval - h mod interval)
                                     - start)));
                    Ok (GetBlockHash b)
                  else Ok key);
             Ok (current_key_block, current_key_block))
            = Ok (key, key)).
  { intros key. rewrite Hr.
    assert (HI32 : 0 <= interval < 2 ^ 32) by (apply Z.mod_pos_bound; lia).
    assert (HSK : 0 <= SwitchKey < interval) by (apply Z.mod_pos_bound; lia).
    replace (h - h + SwitchKey) with SwitchKey by lia.
    rewrite (to_uint32_small SwitchKey) by lia.
    destruct (Z.gtb_spec h SwitchKey); [lia |].
    assert (Hwrap : to_uint32 (h - interval - h) = 2 ^ 32 - interval).
    { unfold to_uint32.
      rewrite <- (Z_mod_plus_full (h - interval - h) 1 (2 ^ 32)).
      replace (h - interval - h + 1 * 2 ^ 32) with (2 ^ 32 - interval) by lia.
      apply Z.mod_small. lia. }
    rewrite Hwrap.
    destruct (Z.gtb_spec h (2 ^ 32 - interval)); [lia | reflexivity]. }
  assert (Hcall : forall key, key <> 0 ->
            GetRandomXSeed c p key h = Ok (key, key)).
  { intros key Hne. unfold GetRandomXSeed. cbv zeta.
    change (to_uint32 (Consensus.RX2SeedHeight p)) with start.
    change (to_uint32 (Consensus.RX2SeedInterval p)) with interval.
    change (start mod interval) with SwitchKey.
    destruct (Z.eqb_spec interval 0) as [| _]; [contradiction |].
    destruct (Z.eqb_spec key 0); [contradiction |].
    cbn [rbind]. apply Hkey. }
  split; [exact (Hcall cur) |]. split.
  - intros g Hg. unfold GetRandomXSeed. cbv zeta.
    change (to_uint32 (Consensus.RX2SeedHeight p)) with start.
    change (to_uint32 (Consensus.RX2SeedInterval p)) with interval.
    change (start mod interval) with SwitchKey.
    destruct (Z.eqb_spec interval 0) as [| _]; [contradiction |].
    rewrite Z.eqb_refl, Hg. cbn [rbind]. apply Hkey.
  - intros other Hc Ho Hdiff. rewrite !Hcall by assumption. congruence.
Qed.

Lemma GetRandomXSeed_first_window_keeps_key_witness :
  GetRandomXSeed SeedExamples.active_chain Examples.params 5100 0
  = Ok (5100, 5100).
Proof.
  apply (GetRandomXSeed_first_window_keeps_key
           SeedExamples.active_chain Examples.params 5100 0).
  - vm_compute. discriminate.
  - vm_compute. split; [discriminate | reflexivity].
  - vm_compute. discriminate.
  - vm_compute. discriminate.
  - discriminate.
Defined.

(** ** How far one retarget can ease the target *)

Lemma lwma_k_exact N T :
  0 <= N -> 0 <= T -> 2 * Z.quot (N * (N + 1) * T) 2 = N * (N + 1) * T.
Proof.
  intros HN HT. rewrite Z.quot_div_nonneg by nia.
  assert (Heven : (N * (N + 1) * T) mod 2 = 0).
  { rewrite <- Zmult_mod_idemp_l.
    assert ((N * (N + 1)) mod 2 = 0) as ->; [| reflexivity].
    destruct (Z.even N) eqn:E.
    - apply Z.even_spec in E as [c ->].
      replace (2 * c * (2 * c + 1)) with ((c * (2 * c + 1)) * 2) by lia.
      apply Z_mod_mult.
    - rewrite <- Z.negb_odd in E. apply negb_false_iff in E.
      apply Z.odd_spec in E as [c ->].
      replace ((2 * c + 1) * (2 * c + 1 + 1))
        with (((2 * c + 1) * (c + 1)) * 2) by lia.
      apply Z_mod_mult. }
  pose proof (Z.div_mod (N * (N + 1) * T) 2 ltac:(lia)). lia.
Qed.

Lemma weighted_sum_upper c j sts :
  0 <= j -> Forall (fun s => s <= c) sts ->
  2 * weighted_sum j sts
  <= c * Z.of_nat (length sts) * (2 * j + Z.of_nat (length sts) + 1).
Proof.
  intros Hj H. revert j Hj.
  induction H as [| s rest Hs _ IH]; intros j Hj.
  - cbn. lia.
  - cbn [weighted_sum length]. specialize (IH (j + 1) ltac:(lia)).
    rewrite Nat2Z.inj_succ. nia.
Qed.

Lemma average_target_upper N k M avg bits :
  0 <= avg -> 0 < to_uint64 N -> 0 < to_uint64 k ->
  Forall (fun b => arith_uint256.decode b <= M) bits ->
  0 <= average_target N k avg bits
       <= avg + Z.of_nat (length bits) * (M / to_uint64 N / to_uint64 k).
Proof.
  intros Havg HN Hk H. revert avg Havg.
  induction H as [| b rest Hb _ IH]; intros avg Havg.
  - cbn. lia.
  - cbn [average_target length]. rewrite Nat2Z.inj_succ.
    pose proof (decode_range b) as Hd.
    set (q := arith_uint256.decode b / to_uint64 N / to_uint64 k).
    assert (Hq : 0 <= q <= M / to_uint64 N / to_uint64 k).
    { unfold q. split.
      - apply Z.div_pos; [apply Z.div_pos |]; lia.
      - apply Z.div_le_mono; [lia |]. apply Z.div_le_mono; lia. }
    assert (Hadd : 0 <= arith_uint256.add avg q <= avg + q).
    { unfold arith_uint256.add, arith_uint256.wrap, arith_uint256.modulus.
      pose proof (Z.mod_pos_bound (avg + q) (2 ^ 256) ltac:(lia)).
      pose proof (Z.mod_le (avg + q) (2 ^ 256) ltac:(lia) ltac:(lia)). lia. }
    specialize (IH (arith_uint256.add avg q) ltac:(lia)). lia.
Qed.

(** X17: one retarget of the LWMA eases the target by a factor of six at
    most.  Whatever the timestamps of the window are, each solve time is
    capped at [6 * T], so the weighted sum is at most [6 * k]; the next
    target, and with it the target decoded from the returned bits, is at
    most six times the largest target of the window. *)
Theorem Lwma3_eases_at_most_sixfold :
  forall (pindexLast : pindex) (params : Consensus.Params)
         (fProofOfStake : bool) (previous : Z) (blocks : list CBlockIndex)
         (M : Z),
    let T := Consensus.nPowTargetSpacing params in
    let N := Consensus.lwmaAveragingWindow params in
    let ProofLimit :=
      UintToArith256 (if fProofOfStake then Consensus.posLimit params
                      else Consensus.powLimit params) in
    Consensus.fPowNoRetargeting params = false ->
    Consensus.fPoSNoRetargeting params = false ->
    1 <= N -> 0 < T -> N * (N + 1) * T < 2 ^ 63 ->
    N + 1 <= nHeight pindexLast ->
    0 <= ProofLimit ->
    lwma_window pindexLast params fProofOfStake = Ok (previous, blocks) ->
    Forall (fun b => arith_uint256.decode (nBits b) <= M) blocks ->
    exists bits,
      Lwma3CalculateNextWorkRequired pindexLast params fProofOfStake = Ok bits
      /\ arith_uint256.decode bits <= 6 * M.
Proof.
  intros p params kind previous blocks M T N L Hpow Hpos HN HT Hk Hheight HL
    Hw Hall.
  destruct (lwma_divisors_nonzero N T HN HT Hk) as [HN0 Hk0].
  pose proof (lwma_k_exact N T ltac:(lia) ltac:(lia)) as Hkq.
  set (k := Z.quot (N * (N + 1) * T) 2) in *.
  assert (Hkpos : 1 <= k < 2 ^ 63) by nia.
  assert (HN63 : N < 2 ^ 63) by nia.
  assert (Hlen : length blocks = Z.to_nat N).
  { unfold lwma_window in Hw. cbv zeta in Hw.
    apply rbind_Ok_inv in Hw as [h [_ Hw]].
    apply rbind_Ok_inv in Hw as [b0 [_ Hw]].
    apply rbind_Ok_inv in Hw as [bs [Hbs Hw]].
    injection Hw as _ <-. eapply window_blocks_length. exact Hbs. }
  eexists. split.
  { apply (Lwma3_main_path p params kind previous blocks);
      try assumption; try lia. right. split; assumption. }
  unfold lwma_next_target. cbv zeta. fold T N k L.
  set (sts := solvetimes T previous (map GetBlockTime blocks)).
  set (avg := average_target N k 0 (map nBits blocks)).
  assert (Hsum : 0 <= weighted_sum 0 sts <= 6 * k).
  { split.
    - apply weighted_sum_nonneg; [lia |]. apply solvetimes_ge_1. lia.
    - pose proof (weighted_sum_upper (6 * T) 0 sts ltac:(lia)
                    (solvetimes_capped T previous (map GetBlockTime blocks)))
        as Hup.
      unfold sts in Hup at 2 3.
      rewrite solvetimes_length, length_map, Hlen, Z2Nat.id in Hup by lia.
      nia. }
  assert (Hdecoded : Forall (fun b => arith_uint256.decode b <= M)
                       (map nBits blocks)).
  { apply List.Forall_forall. intros x Hx.
    apply in_map_iff in Hx as [b [<- Hb]].
    rewrite List.Forall_forall in Hall. apply Hall. exact Hb. }
  assert (HM : 0 <= M).
  { destruct blocks as [| b0 bs]; [cbn in Hlen; lia |].
    inversion Hall as [| ? ? Hb0 _]; subst.
    pose proof (decode_range (nBits b0)). lia. }
  assert (Havg : 0 <= avg /\ avg * k <= M).
  { pose proof (average_target_upper N k M 0 (map nBits blocks) ltac:(lia)
                  ltac:(rewrite to_uint64_small; lia)
                  ltac:(rewrite to_uint64_small; lia) Hdecoded) as Hup.
    fold avg in Hup.
    rewrite length_map, Hlen, Z2Nat.id, !to_uint64_small in Hup by lia.
    rewrite Z.div_div in Hup by lia.
    pose proof (Z.mul_div_le M (N * k) ltac:(nia)).
    pose proof (Z.div_pos M (N * k) ltac:(lia) ltac:(nia)).
    split; [lia | nia]. }
  set (sum := weighted_sum 0 sts) in *.
  assert (Hnext : 0 <= arith_uint256.mul_u32 avg sum < 2 ^ 256
                  /\ arith_uint256.mul_u32 avg sum <= 6 * M).
  { unfold arith_uint256.mul_u32, arith_uint256.wrap, arith_uint256.modulus,
      to_uint32.
    pose proof (Z.mod_pos_bound sum (2 ^ 32) ltac:(lia)).
    pose proof (Z.mod_le sum (2 ^ 32) ltac:(lia) ltac:(lia)).
    pose proof (Z.mod_pos_bound (avg * (sum mod 2 ^ 32)) (2 ^ 256) ltac:(lia)).
    pose proof (Z.mod_le (avg * (sum mod 2 ^ 32)) (2 ^ 256) ltac:(nia)
                  ltac:(lia)).
    split; [lia | nia]. }
  set (next := arith_uint256.mul_u32 avg sum) in *.
  destruct (Z.gtb_spec next L).
  - pose proof (decode_GetCompact_le L ltac:(lia)). lia.
  - pose proof (decode_GetCompact_le next ltac:(lia)). lia.
Qed.

Lemma Lwma3_eases_at_most_sixfold_witness :
  exists bits,
    Lwma3CalculateNextWorkRequired Examples.pow_chain Examples.params false
    = Ok bits
    /\ arith_uint256.decode bits <= 6 * arith_uint256.decode 0x1c0fffff.
Proof.
  apply (Lwma3_eases_at_most_sixfold Examples.pow_chain Examples.params false
           0
           (Examples.chain_of false 0x1c0fffff [100; 200; 300; 400; 900])
           (arith_uint256.decode 0x1c0fffff)).
  - reflexivity.
  - reflexivity.
  - vm_compute. discriminate.
  - reflexivity.
  - vm_compute. reflexivity.
  - vm_compute. discriminate.
  - vm_compute. discriminate.
  - vm_compute. reflexivity.
  - repeat constructor; vm_compute; discriminate.
Defined.

(** ** The first proof-of-stake blocks *)

(** X18: the first two proof-of-stake blocks are given away at the limit.
    With retargeting enabled, a proof-of-stake call on a chain that holds at
    most one proof-of-stake block above its genesis block returns the bits
    of [posLimit], below the bootstrap height and above it: above it the map
    is short, the count of [CountPoS] is at most [N + 1], and the rule of
    the first blocks finds the genesis block at its first or second step. *)
Theorem Lwma3_first_stake_blocks_at_limit :
  forall (pindexLast : pindex) (params : Consensus.Params),
    let N := Consensus.lwmaAveragingWindow params in
    pindexLast <> [] ->
    Consensus.fPowNoRetargeting params = false ->
    Consensus.fPoSNoRetargeting params = false ->
    1 <= N -> N + 1 < 2 ^ 64 ->
    count_above_genesis IsProofOfStake pindexLast <= 1 ->
    Lwma3CalculateNextWorkRequired pindexLast params true
    = Ok (arith_uint256.GetCompact
            (UintToArith256 (Consensus.posLimit params))).
Proof.
  intros p params N Hp Hpow Hpos HN HN64 Hcount.
  unfold Lwma3CalculateNextWorkRequired. rewrite Hpow, Hpos. cbn [orb].
  destruct p as [| b0 rest0] eqn:Ep; [contradiction |].
  cbn [deref rbind]. rewrite <- Ep in *. fold N.
  destruct (Z.ltb_spec (nHeight p) (N + 1)); [reflexivity |].
  pose proof (GetContextLWMA_size p (N + 1) true) as Hsize.
  rewrite count_of_kind_true in Hsize.
  pose proof (count_above_genesis_nonneg IsProofOfStake p) as Hc0.
  rewrite (to_uint64_small (N + 1)) by lia. cbn [andb].
  destruct (Z.ltb_spec (Z.of_nat (size (GetContextLWMA p (N + 1) true)))
              (N + 1)); [| lia].
  pose proof (CountPoS_loop_le p 0 0) as Hc. fold (CountPoS p 0) in Hc.
  destruct (Z.leb_spec (CountPoS p 0) (N + 1)); [| lia].
  cbn [andb]. unfold lwma_pos_activation. cbv zeta.
  destruct (GetLastBlockIndex_count p true Hp) as [b [rest [Hg [Hzero Hone]]]].
  rewrite count_of_kind_true in Hzero, Hone.
  rewrite Hg. cbn [deref rbind pprev tail].
  destruct rest as [| r rest']; [reflexivity |].
  destruct (Z.eq_dec (count_above_genesis IsProofOfStake p) 0) as [E | E];
    [specialize (Hzero E); discriminate |].
  destruct (Hone ltac:(lia)) as [_ [_ Hrest]].
  rewrite count_of_kind_true in Hrest.
  destruct (GetLastBlockIndex_count (r :: rest') true ltac:(discriminate))
    as [b2 [rest2 [Hg2 [Hzero2 _]]]].
  rewrite count_of_kind_true in Hzero2.
  rewrite Hg2. cbn [deref rbind pprev tail].
  rewrite (Hzero2 ltac:(lia)). reflexivity.
Qed.

Lemma Lwma3_first_stake_blocks_at_limit_witness :
  Lwma3CalculateNextWorkRequired Examples.pow_chain Examples.params true
  = Ok (arith_uint256.GetCompact
          (UintToArith256 (Consensus.posLimit Examples.params))).
Proof.
  apply (Lwma3_first_stake_blocks_at_limit Examples.pow_chain Examples.params).
  - discriminate.
  - reflexivity.
  - reflexivity.
  - vm_compute. discriminate.
  - vm_compute. reflexivity.
  - vm_compute. discriminate.
Defined.

(** ** The order of the context map *)

Lemma matching_heights_bound matches p (n : nat) h :
  matching_heights matches p !! n = Some h -> 1 <= h <= nHeight p.
Proof.
  intros Hl. destruct (matching_heights_lookup _ _ _ _ Hl)
    as [pre [b [rest [-> [Hr [_ [_ ->]]]]]]].
  unfold nHeight. rewrite length_app. cbn [length].
  destruct rest; [contradiction |]. cbn [length]. lia.
Qed.

Lemma matching_heights_decrease matches p (i j : nat) h h' :
  (i < j)%nat ->
  matching_heights matches p !! i = Some h ->
  matching_heights matches p !! j = Some h' ->
  h' < h.
Proof.
  revert i j. induction p as [| b prev IH]; intros i j Hij Hi Hj;
    [discriminate |].
  cbn [matching_heights] in Hi, Hj.
  destruct prev as [| b1 prev']; [discriminate |].
  set (p' := b1 :: prev') in *.
  destruct (matches b); cbn [app] in Hi, Hj; [| eapply IH; eassumption].
  destruct j as [| j']; [lia |].
  change (matching_heights matches p' !! j' = Some h') in Hj.
  destruct i as [| i'].
  - injection Hi as <-.
    pose proof (matching_heights_bound _ _ _ _ Hj).
    rewrite nHeight_cons. lia.
  - change (matching_heights matches p' !! i' = Some h) in Hi.
    apply (IH i' j'); [lia | assumption | assumption].
Qed.

(** X19: the context map is sorted.  Its indexes count the blocks of the
    kind from the most recent one, so a larger index is mapped to a smaller
    height; in particular no two indexes share a height. *)
Theorem GetContextLWMA_heights_decrease :
  forall (p : pindex) (nContextScope : Z) (fProofOfStake : bool)
         (i i' h h' : Z),
    GetContextLWMA p nContextScope fProofOfStake !! i = Some h ->
    GetContextLWMA p nContextScope fProofOfStake !! i' = Some h' ->
    (i < i' -> h' < h) /\ (h = h' -> i = i').
Proof.
  intros p scope kind i i' h h' Hi Hi'.
  rewrite GetContextLWMA_lookup in Hi, Hi'.
  destruct (Z.leb_spec 1 i); cbn [andb] in Hi; [| discriminate].
  destruct (i <=? scope + 1); [| discriminate].
  destruct (Z.leb_spec 1 i'); cbn [andb] in Hi'; [| discriminate].
  destruct (i' <=? scope + 1); [| discriminate].
  assert (Hlt : forall a b x y, 1 <= a -> a < b ->
            matching_heights (of_kind kind) p !! Z.to_nat (a - 1) = Some x ->
            matching_heights (of_kind kind) p !! Z.to_nat (b - 1) = Some y ->
            y < x).
  { intros a b x y Ha Hab Hx Hy.
    apply (matching_heights_decrease (of_kind kind) p
             (Z.to_nat (a - 1)) (Z.to_nat (b - 1))); [lia | assumption ..]. }
  split.
  - intros Hii. apply (Hlt i i'); assumption.
  - intros Heq. destruct (Z.lt_trichotomy i i') as [Hc | [Hc | Hc]];
      [| assumption |].
    + pose proof (Hlt i i' h h' ltac:(lia) Hc Hi Hi'). lia.
    + pose proof (Hlt i' i h' h ltac:(lia) Hc Hi' Hi). lia.
Qed.

Lemma GetContextLWMA_heights_decrease_witness :
  (1 < 3 -> 3 < 5) /\ (5 = 3 -> 1 = 3).
Proof.
  apply (GetContextLWMA_heights_decrease Examples.hybrid_chain 6 true
           1 3 5 3); vm_compute; reflexivity.
Defined.

(** ** The schedule across the reduction of the block time *)

Lemma to_int32_small z : - 2 ^ 31 <= z < 2 ^ 31 -> to_int32 z = z.
Proof. intros Hz. unfold to_int32. apply uint32_to_int_wrap. exact Hz. Qed.

Lemma int_arith_in_range z : - 2 ^ 31 <= z < 2 ^ 31 -> int_arith z = Some z.
Proof.
  intros Hz. unfold int_arith.
  destruct (Z.leb_spec (- 2 ^ 31) z); [| lia].
  destruct (Z.ltb_spec z (2 ^ 31)); [reflexivity | lia].
Qed.

Lemma int_arith_overflow z : 2 ^ 31 <= z -> int_arith z = None.
Proof.
  intros Hz. unfold int_arith.
  destruct (Z.ltb_spec z (2 ^ 31)); [lia |]. rewrite andb_false_r.
  reflexivity.
Qed.

Lemma SubsidyHalvingWeight_value p s height :
  let R := Consensus.nReduceBlocktimeHeight p in
  let f := nBlocktimeDownscaleFactor s in
  1 <= R < 2 ^ 31 -> 1 <= f < 2 ^ 31 -> 0 <= height < 2 ^ 31 ->
  height + (R - 1) * f < 2 ^ 31 ->
  SubsidyHalvingWeight p s height
  = Some (if height <? R then height else height + (R - 1) * (f - 1)).
Proof.
  intros R f HR Hf Hh Hfit.
  unfold SubsidyHalvingWeight, BlocktimeDownscaleFactor.
  cbv zeta. fold R f.
  destruct (Z.ltb_spec height R).
  - rewrite to_int32_small by lia. cbn [Z.eqb Pos.eqb].
    rewrite Z.sub_0_r, Z.mul_0_l, !int_arith_in_range by lia.
    f_equal. lia.
  - rewrite to_int32_small by lia.
    destruct (Z.eqb_spec f 1) as [E | Hne].
    + rewrite Z.sub_0_r, Z.mul_0_l, !int_arith_in_range by lia.
      f_equal. rewrite E. lia.
    + assert (0 <= (R - 1) * f) by nia.
      rewrite (int_arith_in_range (R - 1)) by lia.
      rewrite (int_arith_in_range (height - (R - 1))) by lia.
      rewrite (int_arith_in_range ((R - 1) * f)) by lia.
      rewrite int_arith_in_range by lia.
      f_equal. lia.
Qed.

(** X20: as long as the [int] arithmetic does not overflow, the weight of a
    height in the halving schedule never goes back.  For heights, a
    reduction height and a downscale factor that are positive [int] values
    with [height' + (R - 1) * factor] below [2^31], [SubsidyHalvingWeight]
    is defined, is the height itself below the reduction height and the
    height plus [factor - 1] times the number of blocks before it from
    there on, and grows strictly with the height, also across the reduction
    height.  When the product [(R - 1) * factor] leaves the range of [int],
    the weight of every height from the reduction height on is an overflow
    of a signed integer, which the language leaves undefined. *)
Theorem SubsidyHalvingWeight_strictly_increasing :
  forall (p : Consensus.Params) (s : ScheduleParams) (height height' : Z),
    let R := Consensus.nReduceBlocktimeHeight p in
    let f := nBlocktimeDownscaleFactor s in
    1 <= R < 2 ^ 31 -> 1 <= f < 2 ^ 31 ->
    0 <= height < height' -> height' < 2 ^ 31 ->
    (height' + (R - 1) * f < 2 ^ 31 ->
     exists weight weight',
       SubsidyHalvingWeight p s height = Some weight
       /\ SubsidyHalvingWeight p s height' = Some weight'
       /\ weight < weight'
       /\ weight = (if height <? R then height
                    else height + (R - 1) * (f - 1)))
    /\ (R <= height -> 2 ^ 31 <= (R - 1) * f ->
        SubsidyHalvingWeight p s height = None).
Proof.
  intros p s h h' R f HR Hf Hh Hh' . split.
  - intros Hfit.
    assert (0 <= (R - 1) * f) by nia.
    rewrite !SubsidyHalvingWeight_value by (fold R f; lia). fold R f.
    do 2 eexists. split; [reflexivity |]. split; [reflexivity |].
    split; [| reflexivity].
    destruct (Z.ltb_spec h R), (Z.ltb_spec h' R); nia.
  - intros Hafter Hover.
    unfold SubsidyHalvingWeight, BlocktimeDownscaleFactor.
    cbv zeta. fold R f.
    destruct (Z.ltb_spec h R); [lia |].
    rewrite to_int32_small by lia.
    destruct (Z.eqb_spec f 1) as [E | Hne]; [rewrite E in Hover; lia |].
    rewrite (int_arith_in_range (R - 1)) by lia.
    rewrite (int_arith_in_range (h - (R - 1))) by lia.
    rewrite (int_arith_overflow ((R - 1) * f)) by lia.
    reflexivity.
Qed.

Lemma SubsidyHalvingWeight_strictly_increasing_witness :
  exists weight weight',
    SubsidyHalvingWeight Examples.params example_schedule 1999 = Some weight
    /\ SubsidyHalvingWeight Examples.params example_schedule 2000
       = Some weight'
    /\ weight < weight'
    /\ weight = (if 1999 <? 2000 then 1999 else 1999 + (2000 - 1) * (4 - 1)).
Proof.
  apply (SubsidyHalvingWeight_strictly_increasing
           Examples.params example_schedule 1999 2000);
    vm_compute; first [reflexivity
                      | split; [discriminate | reflexivity]].
Defined.

(** X21: the granularity of the stake timestamps and the downscale factor
    of the timestamps belong together.  When [nRBTStakeTimestampMask + 1]
    divides [nStakeTimestampMask + 1] (both masks below [2^32 - 1]), the
    product of [StakeTimestampMask + 1] and [TimestampDownscaleFactor] is
    [nStakeTimestampMask + 1] at every height, before and after the
    reduction height.  With the mask [0xffffffff] after the reduction height
    the divisor wraps to zero and the division is undefined. *)
Theorem TimestampDownscaleFactor_matches_mask :
  forall (p : Consensus.Params) (height : Z),
    let mask := Consensus.nStakeTimestampMask p in
    let maskRBT := Consensus.nRBTStakeTimestampMask p in
    (0 <= mask < 2 ^ 32 - 1 -> 0 <= maskRBT < 2 ^ 32 - 1 ->
     (mask + 1) mod (maskRBT + 1) = 0 ->
     exists factor,
       TimestampDownscaleFactor p height = Ok factor
       /\ (Consensus.StakeTimestampMask p height + 1) * factor = mask + 1)
    /\ (maskRBT = 2 ^ 32 - 1 ->
        Consensus.nReduceBlocktimeHeight p <= height ->
        TimestampDownscaleFactor p height = Fail integer_division_by_zero).
Proof.
  intros p h mask maskRBT. split.
  - intros Hm Hr Hdiv.
    unfold TimestampDownscaleFactor, Consensus.StakeTimestampMask.
    cbv zeta. fold mask maskRBT.
    destruct (h <? Consensus.nReduceBlocktimeHeight p).
    + exists 1. split; [reflexivity | lia].
    + rewrite (to_uint32_small maskRBT), (to_uint32_small (maskRBT + 1)),
        (to_uint32_small mask), (to_uint32_small (mask + 1)) by lia.
      destruct (Z.eqb_spec (maskRBT + 1) 0); [lia |].
      eexists. split; [reflexivity |].
      pose proof (Z.div_mod (mask + 1) (maskRBT + 1) ltac:(lia)). lia.
  - intros Hmax Hh. unfold TimestampDownscaleFactor. cbv zeta.
    fold maskRBT. rewrite Hmax.
    destruct (Z.ltb_spec h (Consensus.nReduceBlocktimeHeight p)); [lia |].
    reflexivity.
Qed.

Lemma TimestampDownscaleFactor_matches_mask_witness :
  exists factor,
    TimestampDownscaleFactor Examples.params 2500 = Ok factor
    /\ (Consensus.StakeTimestampMask Examples.params 2500 + 1) * factor
       = 15 + 1.
Proof.
  apply (TimestampDownscaleFactor_matches_mask Examples.params 2500);
    vm_compute; first [reflexivity | split; [discriminate | reflexivity]].
Defined.

(** ** The entry point for proof-of-stake, and the guard of the special rule *)

(** X22: for proof-of-stake [GetNextWorkRequired] always returns a value.
    With retargeting enabled, the minimum-difficulty rule off, and a target
    spacing and an averaging window for which the constant [k] fits a
    64-bit integer, the proof-of-stake call returns bits for every chain,
    the null pointer included: the limit up to the second block of the
    kind, the result of the LWMA rule afterwards. *)
Theorem GetNextWorkRequired_stake_returns :
  forall (pindexLast : pindex) (pblockTime : Z) (params : Consensus.Params),
    let T := Consensus.nPowTargetSpacing params in
    let N := Consensus.lwmaAveragingWindow params in
    Consensus.fPowAllowMinDifficultyBlocks params = false ->
    Consensus.fPowNoRetargeting params = false ->
    Consensus.fPoSNoRetargeting params = false ->
    0 < T < 2 ^ 63 -> 0 <= N -> N * (N + 1) * T < 2 ^ 63 ->
    exists bits,
      GetNextWorkRequired pindexLast pblockTime params true = Ok bits.
Proof.
  intros p t params T N Hmin Hpow Hpos HT HN Hk.
  destruct p as [| bLast rest0] eqn:Ep; [cbn; eauto |].
  rewrite <- Ep. assert (Hp : p <> []) by (rewrite Ep; discriminate).
  clear Ep bLast rest0.
  destruct (GetLastBlockIndex_count p true Hp) as [b [rest [Hg [Hzero Hone]]]].
  pose proof (count_above_genesis_nonneg (of_kind true) p) as Hc0.
  assert (Hlimit : forall q, q <> [] ->
            count_above_genesis (of_kind true) q <= 1 ->
            exists bits, GetNextWorkRequired q t params true = Ok bits).
  { intros q Hq Hc. destruct q as [| q0 qrest] eqn:Eq; [contradiction |].
    rewrite <- Eq in *. rewrite Eq.
    unfold GetNextWorkRequired, GetLastBlockIndexQtum.
    cbv beta iota zeta. rewrite <- Eq.
    destruct (GetLastBlockIndex_count q true Hq)
      as [b1 [rest1 [Hg1 [Hzero1 Hone1]]]].
    pose proof (count_above_genesis_nonneg (of_kind true) q).
    rewrite Hg1. cbn [deref rbind pprev tail].
    destruct rest1 as [| r1 rest1']; [eauto |].
    destruct (Z.eq_dec (count_above_genesis (of_kind true) q) 0) as [E | E];
      [specialize (Hzero1 E); discriminate |].
    destruct (Hone1 ltac:(lia)) as [_ [_ Hrest1]].
    destruct (GetLastBlockIndex_count (r1 :: rest1') true ltac:(discriminate))
      as [b2 [rest2 [Hg2 [Hzero2 _]]]].
    rewrite Hg2. cbn [deref rbind pprev tail].
    rewrite (Hzero2 ltac:(lia)). eauto. }
  destruct (Z.le_gt_cases (count_above_genesis (of_kind true) p) 1)
    as [Hfew | Hmany]; [apply Hlimit; assumption |].
  destruct (Hone ltac:(lia)) as [Hr [_ Hrest]].
  destruct rest as [| r rest']; [contradiction |].
  destruct (GetLastBlockIndex_count (r :: rest') true ltac:(discriminate))
    as [b2 [rest2 [Hg2 [_ Hone2]]]].
  destruct (Hone2 ltac:(lia)) as [Hr2 _].
  destruct rest2 as [| r2 rest2']; [contradiction |].
  assert (Hcall : GetNextWorkRequired p t params true
                  = Lwma3CalculateNextWorkRequired (b :: r :: rest') params
                      true).
  { destruct p as [| p0 prest] eqn:Ep; [contradiction |].
    unfold GetNextWorkRequired, GetLastBlockIndexQtum. cbv beta iota zeta.
    rewrite Hg. cbn [deref rbind pprev tail]. rewrite Hg2.
    cbn [deref rbind pprev tail]. rewrite Hmin. reflexivity. }
  rewrite Hcall. apply Lwma3_returns; try assumption;
    [discriminate | left; reflexivity].
Qed.

Lemma GetNextWorkRequired_stake_returns_witness :
  exists bits,
    GetNextWorkRequired Examples.hybrid_chain 1200 Examples.params true
    = Ok bits.
Proof.
  apply (GetNextWorkRequired_stake_returns Examples.hybrid_chain 1200
           Examples.params);
    vm_compute; first [reflexivity | discriminate
                      | split; reflexivity].
Defined.

Lemma CountPoS_loop_from_genesis p nFound :
  CountPoS_loop p 0 nFound
  = nFound + count_above_genesis IsProofOfStake p.
Proof.
  revert nFound. induction p as [| b prev IH]; intros nFound;
    cbn [CountPoS_loop count_above_genesis]; [lia |].
  destruct prev as [| b' prev']; [lia |].
  rewrite (nHeight_cons b (b' :: prev')), (nHeight_cons b' prev').
  pose proof (nHeight_ge prev').
  destruct (Z.gtb_spec (nHeight prev' + 1 + 1) 0); [| lia].
  rewrite IH. destruct (IsProofOfStake b); lia.
Qed.

(** X23: the second test of the rule for the first proof-of-stake blocks
    never fails.  [CountPoS] from the genesis block counts what
    [GetContextLWMA] indexes, so whenever the map for proof-of-stake holds
    fewer than [N + 1] entries, the count of [CountPoS] is the size of the
    map, hence below [N + 1]: the guard [nPoSBlocksCounter <= N + 1] holds
    every time it is evaluated, and a short proof-of-stake window always
    takes the rule of the first blocks. *)
Theorem CountPoS_agrees_with_short_context :
  forall (pindexLast : pindex) (N : Z),
    let mapContext := GetContextLWMA pindexLast (N + 1) true in
    0 <= N ->
    Z.of_nat (size mapContext) < N + 1 ->
    CountPoS pindexLast 0 = Z.of_nat (size mapContext)
    /\ CountPoS pindexLast 0 <= N + 1.
Proof.
  intros p N mapContext HN Hshort.
  pose proof (GetContextLWMA_size p (N + 1) true) as Hsize.
  fold mapContext in Hsize. rewrite count_of_kind_true in Hsize.
  unfold CountPoS. rewrite CountPoS_loop_from_genesis. lia.
Qed.

Lemma CountPoS_agrees_with_short_context_witness :
  CountPoS Examples.pow_chain 0
  = Z.of_nat (size (GetContextLWMA Examples.pow_chain (5 + 1) true))
  /\ CountPoS Examples.pow_chain 0 <= 5 + 1.
Proof.
  apply (CountPoS_agrees_with_short_context Examples.pow_chain 5).
  - lia.
  - vm_compute. reflexivity.
Defined.

(** ** The loop of the main path, as the call runs it *)

Lemma weighted_sum_indexed j sts :
  weighted_sum j sts
  = sum_list (map (fun m : nat => List.nth m sts 0 * (j + Z.of_nat m + 1))
                (seq 0 (length sts))).
Proof.
  revert j. induction sts as [| s rest IH]; intros j; [reflexivity |].
  cbn [weighted_sum length seq map sum_list fold_right List.nth].
  fold (sum_list
          (map (fun m : nat => List.nth m (s :: rest) 0 * (j + Z.of_nat m + 1))
             (seq 1 (length rest)))).
  rewrite IH, <- seq_shift, map_map. f_equal; [lia |]. f_equal.
  apply map_ext. intros m. cbn [List.nth]. f_equal. lia.
Qed.

Lemma weighted_sum_linear sts : weighted_sum 0 sts = linear_weighted sts.
Proof.
  rewrite weighted_sum_indexed. unfold linear_weighted. f_equal.
Qed.

Lemma window_blocks_lookup pindexLast mapContext (n : nat) i blocks
    (m : nat) b :
  window_blocks pindexLast mapContext n i = Ok blocks ->
  blocks !! m = Some b ->
  exists h, mapContext !! (i - Z.of_nat m) = Some h
            /\ deref (GetAncestor pindexLast h) = Ok b.
Proof.
  revert i blocks m. induction n as [| n IH]; intros i blocks m Hw Hb.
  - cbn [window_blocks] in Hw. injection Hw as <-. discriminate.
  - cbn [window_blocks] in Hw.
    apply rbind_Ok_inv in Hw as [h [Hh Hw]].
    apply rbind_Ok_inv in Hw as [b0 [Hb0 Hw]].
    apply rbind_Ok_inv in Hw as [rest [Hrest Hw]].
    injection Hw as <-.
    destruct m as [| m'].
    + injection Hb as <-. exists h. rewrite Z.sub_0_r. split; [| exact Hb0].
      unfold map_at in Hh. destruct (mapContext !! i); [| discriminate].
      injection Hh as ->. reflexivity.
    + change (rest !! m' = Some b) in Hb.
      destruct (IH (i - 1) rest m' Hrest Hb) as [h' [Hh' Hd]].
      exists h'. split; [| exact Hd].
      replace (i - Z.of_nat (S m')) with (i - 1 - Z.of_nat m') by lia.
      exact Hh'.
Qed.

Lemma GetContextLWMA_lookup_decrease p nContextScope kind i i' h h' :
  GetContextLWMA p nContextScope kind !! i = Some h ->
  GetContextLWMA p nContextScope kind !! i' = Some h' ->
  i < i' -> h' < h.
Proof.
  intros Hi Hi' Hlt. rewrite GetContextLWMA_lookup in Hi, Hi'.
  destruct (Z.leb_spec 1 i); cbn [andb] in Hi; [| discriminate].
  destruct (i <=? nContextScope + 1); [| discriminate].
  destruct (Z.leb_spec 1 i'); cbn [andb] in Hi'; [| discriminate].
  destruct (i' <=? nContextScope + 1); [| discriminate].
  apply (matching_heights_decrease (of_kind kind) p
           (Z.to_nat (i - 1)) (Z.to_nat (i' - 1))); [lia | assumption ..].
Qed.

(** C4: in the main path of [Lwma3CalculateNextWorkRequired], for a target
    spacing [T] of one second or more, the loop starts with [j = 0] at the
    index [N] of the context map and makes [N] turns, from the oldest block
    of the window (the greatest index, the lowest height) to the newest;
    the effective timestamp of each block is the later of its block time
    and the previous effective timestamp plus one, so that every difference
    and every solve time is at least one (never brought to zero); each solve
    time is that difference capped at [6 * T]; the sum weights the solve
    times linearly, the weight being the position counted from the oldest
    block, so that the newest block has the weight [N]; and the call returns
    the encoding of the product of this sum and the average target, capped
    at the limit. *)
Theorem Lwma3_main_path_weighted_solvetimes :
  forall (pindexLast : pindex) (params : Consensus.Params)
         (fProofOfStake : bool) (previous : Z) (blocks : list CBlockIndex),
    let T := Consensus.nPowTargetSpacing params in
    let N := Consensus.lwmaAveragingWindow params in
    let ProofLimit :=
      UintToArith256 (if fProofOfStake then Consensus.posLimit params
                      else Consensus.powLimit params) in
    let mapContext := GetContextLWMA pindexLast (N + 1) fProofOfStake in
    let times := map GetBlockTime blocks in
    let stamps := effective_timestamps previous times in
    let raw := differences previous stamps in
    let sts := map (Z.min (6 * T)) raw in
    Consensus.fPowNoRetargeting params = false ->
    Consensus.fPoSNoRetargeting params = false ->
    1 <= N -> 0 < T -> N * (N + 1) * T < 2 ^ 63 ->
    N + 1 <= nHeight pindexLast ->
    lwma_window pindexLast params fProofOfStake = Ok (previous, blocks) ->
    (* the window: the block at the index N + 1, then N blocks, oldest first *)
    length blocks = Z.to_nat N
    /\ (exists h anchor,
          mapContext !! (N + 1) = Some h
          /\ deref (GetAncestor pindexLast h) = Ok anchor
          /\ previous = GetBlockTime anchor)
    /\ (forall (m : nat) b,
          blocks !! m = Some b ->
          exists h, mapContext !! (N - Z.of_nat m) = Some h
                    /\ deref (GetAncestor pindexLast h) = Ok b)
    /\ (forall i i' h h',
          mapContext !! i = Some h -> mapContext !! i' = Some h' ->
          i' < i -> h < h')
    (* effective timestamps and solve times *)
    /\ (forall (m : nat) t,
          times !! m = Some t ->
          stamps !! m
          = Some (Z.max t (List.nth m (previous :: stamps) previous + 1)))
    /\ Forall (fun d => 1 <= d) raw
    /\ Forall (fun s => 1 <= s <= 6 * T) sts
    (* the loop as the main path runs it, and the result of the call *)
    /\ exists st,
         lwma_loop pindexLast params mapContext (Z.to_nat N) N
           {| previousTimestamp := previous; j := 0;
              sumWeightedSolvetimes := 0; avgTarget := 0 |} = Ok st
         /\ j st = N
         /\ sumWeightedSolvetimes st = linear_weighted sts
         /\ (forall older s,
               sts = older ++ [s] ->
               sumWeightedSolvetimes st = linear_weighted older + s * N)
         /\ Lwma3CalculateNextWorkRequired pindexLast params fProofOfStake
            = Ok (arith_uint256.GetCompact
                    (let nextTarget :=
                       arith_uint256.mul_u32 (avgTarget st)
                         (sumWeightedSolvetimes st) in
                     if nextTarget >? ProofLimit then ProofLimit
                     else nextTarget)).
Proof.
  intros p params kind previous blocks T N L mapContext times stamps raw sts
    Hpow Hpos HN HT Hk Hheight Hw.
  destruct (lwma_divisors_nonzero N T HN HT Hk) as [HN0 Hk0].
  pose proof Hw as Hparts. unfold lwma_window in Hparts. cbv zeta in Hparts.
  fold N mapContext in Hparts.
  apply rbind_Ok_inv in Hparts as [h0 [Hh0 Hparts]].
  apply rbind_Ok_inv in Hparts as [anchor [Hanchor Hparts]].
  apply rbind_Ok_inv in Hparts as [bs [Hbs Hparts]].
  injection Hparts as Hprev Hblocks. subst bs.
  pose proof (window_blocks_length _ _ _ _ _ Hbs) as Hlen.
  assert (Hsts : sts = solvetimes T previous times) by reflexivity.
  assert (Hlen' : length sts = Z.to_nat N).
  { rewrite Hsts, solvetimes_length. unfold times. rewrite length_map.
    exact Hlen. }
  split; [exact Hlen |]. split.
  { exists h0, anchor. split; [| split; [exact Hanchor | congruence]].
    unfold map_at in Hh0. destruct (mapContext !! (N + 1)); [| discriminate].
    injection Hh0 as ->. reflexivity. }
  split.
  { intros m b Hb. eapply window_blocks_lookup; eassumption. }
  split.
  { intros i i' h h' Hi Hi' Hlt.
    apply (GetContextLWMA_lookup_decrease p (N + 1) kind i' i h' h);
      assumption. }
  split.
  { intros m t Hm. apply effective_timestamps_lookup. exact Hm. }
  split; [apply differences_effective_ge_1 |].
  split.
  { pose proof (solvetimes_ge_1 T previous times ltac:(lia)) as Hge.
    pose proof (solvetimes_capped T previous times) as Hle.
    rewrite <- Hsts in Hge, Hle.
    rewrite List.Forall_forall in *. intros s Hs.
    specialize (Hge s Hs). specialize (Hle s Hs). lia. }
  eexists. split.
  { apply (lwma_loop_window p params mapContext (Z.to_nat N) N _ blocks Hbs).
    right. split; assumption. }
  cbn [previousTimestamp j sumWeightedSolvetimes avgTarget].
  fold T times. rewrite <- Hsts.
  split; [lia |]. split; [rewrite weighted_sum_linear; lia |]. split.
  { intros older s Holder. rewrite Holder, weighted_sum_app.
    cbn [weighted_sum]. rewrite weighted_sum_linear.
    assert (Z.of_nat (length older) + 1 = N).
    { rewrite Holder, length_app in Hlen'. cbn [length] in Hlen'. lia. }
    nia. }
  rewrite (Lwma3_main_path p params kind previous blocks)
    by (try assumption; try nia; right; split; assumption).
  unfold lwma_next_target. cbv zeta. fold T N L times.
  rewrite <- Hsts, Z.add_0_l. reflexivity.
Qed.

Lemma Lwma3_main_path_weighted_solvetimes_witness :
  exists st,
    lwma_loop Examples.pow_chain Examples.params
      (GetContextLWMA Examples.pow_chain 6 false) 5 5
      {| previousTimestamp := 0; j := 0;
         sumWeightedSolvetimes := 0; avgTarget := 0 |} = Ok st
    /\ j st = 5
    /\ sumWeightedSolvetimes st
       = 100 * 1 + 100 * 2 + 100 * 3 + 100 * 4 + 500 * 5
    /\ Lwma3CalculateNextWorkRequired Examples.pow_chain Examples.params false
       = Ok 0x1c18e38c.
Proof.
  destruct (Lwma3_main_path_weighted_solvetimes
              Examples.pow_chain Examples.params false 0
              (Examples.chain_of false 0x1c0fffff [100; 200; 300; 400; 900]))
    as [_ [_ [_ [_ [_ [_ [_ [st [Hl [Hj [Hs [_ Hcall]]]]]]]]]]]].
  - reflexivity.
  - reflexivity.
  - vm_compute. discriminate.
  - reflexivity.
  - vm_compute. reflexivity.
  - vm_compute. discriminate.
  - vm_compute. reflexivity.
  - exists st. split; [exact Hl |]. split; [exact Hj |].
    split; [rewrite Hs; vm_compute; reflexivity |].
    rewrite Hcall. vm_compute in Hl. injection Hl as <-.
    vm_compute. reflexivity.
Defined.
